(** * Paragraph reconstruction of [pdf_processor_complete.py]

    A shallow embedding of the text-reconciliation core of the PDF processor:
    [ParagraphParse] (unit building, clustering of lines into paragraphs,
    separator inference) and the ignore-area filter of [PDFProcessor].

    Modelling choices.
    - Coordinates are Python [float]s, that is IEEE-754 binary64 numbers; they
      are embedded as Rocq's primitive floats, whose operations are the same
      binary64 operations with round-to-nearest-even.  The literals [1.2],
      [0.5] and the divisor [2] are the source's.
    - A text block is a Python [dict] that is shared between [text_blocks] and
      the internal [units] list and mutated in place by [set_end].  The store
      of dict objects is a list of records indexed by location; [text_blocks]
      is a list of locations, so aliasing is visible.
    - A Python exception is a [Raise] result.
    - [unicodedata.category] is a table of the Python runtime; it is a
      parameter of the development. *)

From Stdlib Require Import ZArith List String Ascii Bool Floats Permutation Sorted Lia.
From stdpp Require Import base option list sorting.

Set Warnings "-inexact-float".
Set Default Proof Using "Type".

Local Open Scope Z_scope.
Local Open Scope list_scope.

(** ** Exceptions *)

Inductive exn : Set :=
| IndexError
| ValueError.

Inductive result (A : Type) : Type :=
| Ok (a : A)
| Raise (e : exn).

Arguments Ok {A} a.
Arguments Raise {A} e.

#[global] Instance result_ret : MRet result := fun A a => Ok a.

#[global] Instance result_bind : MBind result := fun A B k m =>
  match m with
  | Ok a => k a
  | Raise e => Raise e
  end.

Fixpoint rmap {A B : Type} (f : A -> result B) (l : list A) : result (list B) :=
  match l with
  | [] => Ok []
  | a :: l' =>
      b ← f a;
      bs ← rmap f l';
      Ok (b :: bs)
  end.

(** ** Data *)

(** A character is a Unicode code point, the value of [ord]. *)
Definition char : Set := Z.

(** A Python [str]: the sequence of its code points. *)
Definition str : Set := list char.

(** The three separators the parser writes. *)
Definition sep_empty : str := [].
Definition sep_space : str := [32].
Definition sep_newline : str := [10].

(** A point [[x, y]]. *)
Definition point : Set := (float * float)%type.

(** The value under the ["from"] key. *)
Inductive provenance : Set :=
| from_text
| from_ocr.

(** A text block: the dict built by [extract_text] and [_ocr_image].  The
    ["score"] key exists on OCR blocks only. *)
Record block : Set := mkBlock {
  box : list point;
  text : str;
  from : provenance;
  end_ : str;
  score : option float
}.

(** [tb.update({"end": sep})] *)
Definition update_end (tb : block) (sep : str) : block :=
  {| box := box tb; text := text tb; from := from tb;
     end_ := sep; score := score tb |}.

(** Locations of dict objects and the store that holds them.  Every reference
    a Python program holds is live, so the store is total. *)
Definition loc : Set := nat.
Definition heap : Set := loc -> block.

(** The two accessors [PDFProcessor.__init__] hands to [ParagraphParse]:
    [lambda tb: (tb["box"], tb["text"])] and
    [lambda tb, sep: tb.update({"end": sep})]. *)
Definition get_info (h : heap) (tb : loc) : list point * str :=
  (box (h tb), text (h tb)).

Definition set_end (h : heap) (tb : loc) (sep : str) : heap :=
  fun l => if Nat.eqb l tb then update_end (h tb) sep else h l.

(** A unit [(bbox, (text[0], text[-1]), tb)]; [tb] is the dict itself, hence
    a location. *)
Record unit_ : Set := mkUnit {
  bbox : list point;
  letters : char * char;
  tb : loc
}.

(** ** Sequence primitives *)

(** [min(xs)]: the first item is kept until a strictly smaller one is seen. *)
Definition py_min (xs : list float) : result float :=
  match xs with
  | [] => Raise ValueError
  | x :: xs' => Ok (fold_left (fun m y => if (y <? m)%float then y else m) xs' x)
  end.

(** [max(xs)]: the first item is kept until a strictly greater one is seen. *)
Definition py_max (xs : list float) : result float :=
  match xs with
  | [] => Raise ValueError
  | x :: xs' => Ok (fold_left (fun m y => if (m <? y)%float then y else m) xs' x)
  end.

(** [s[0]] and [s[-1]] *)
Definition first_item {A : Type} (s : list A) : result A :=
  match s with
  | [] => Raise IndexError
  | a :: _ => Ok a
  end.

Definition last_item {A : Type} (s : list A) : result A :=
  match last s with
  | None => Raise IndexError
  | Some a => Ok a
  end.

(** [s[i]] for a non-negative index. *)
Definition item {A : Type} (s : list A) (i : nat) : result A :=
  match s !! i with
  | None => Raise IndexError
  | Some a => Ok a
  end.

(** ** [ParagraphParse] *)

(** The local [get_bbox_bounds] of [_parse]: [(min xs, min ys, max xs, max ys)]. *)
Definition get_bbox_bounds (bbox : list point)
  : result (float * float * float * float) :=
  let xs := map fst bbox in
  let ys := map snd bbox in
  x0 ← py_min xs;
  y0 ← py_min ys;
  x1 ← py_max xs;
  y1 ← py_max ys;
  Ok (x0, y0, x1, y1).

(** The table inside [is_cjk]. *)
Definition cjk_ranges : list (Z * Z) :=
  [ (0x4E00, 0x9FFF); (0x3040, 0x30FF); (0x1100, 0x11FF);
    (0x3130, 0x318F); (0xAC00, 0xD7AF); (0x3000, 0x303F);
    (0xFE30, 0xFE4F); (0xFF00, 0xFFEF) ].

Definition is_cjk (character : char) : bool :=
  existsb (fun '(start, stop) => (start <=? character) && (character <=? stop))
          cjk_ranges.

(** [s.startswith("P")] *)
Definition startswith_P (s : string) : bool := String.prefix "P" s.

(** The code point of ["-"]. *)
Definition hyphen : char := 45.

Section WithCategory.

(** [unicodedata.category]: the two-letter general category of a character. *)
Variable category : char -> string.

Definition _word_separator (letter1 letter2 : char) : str :=
  if is_cjk letter1 && is_cjk letter2 then sep_empty
  else if (letter1 =? hyphen) then sep_empty
  else if startswith_P (category letter2) then sep_empty
  else sep_space.

(** [_get_units]: one unit per text block, in order; [text[0]] and [text[-1]]
    raise on an empty text. *)
Definition make_unit (h : heap) (tb : loc) : result unit_ :=
  let '(bbox, text) := get_info h tb in
  c0 ← first_item text;
  c1 ← last_item text;
  Ok (mkUnit bbox (c0, c1) tb).

Definition _get_units (h : heap) (text_blocks : list loc) : result (list unit_) :=
  rmap (make_unit h) text_blocks.

(** The sort key [get_bbox_bounds(a[0])[1]]. *)
Definition top_key (a : unit_) : result float :=
  '(_, top, _, _) ← get_bbox_bounds (bbox a);
  Ok top.

(** [units.sort(key=...)]: the keys are computed first, one per element, and
    the elements are then ordered by [<] on the keys, equal keys keeping their
    order.  The stable sort is written as an insertion sort; on keys that [<]
    orders (no NaN) every stable sort returns this list.  With a NaN among
    the keys [<] is no order, and [list.sort] may leave the elements in
    another order than the one written here. *)
Fixpoint insert_keyed (k : float) (a : unit_) (l : list (float * unit_))
  : list (float * unit_) :=
  match l with
  | [] => [(k, a)]
  | (k', a') :: l' =>
      if (k' <? k)%float then (k', a') :: insert_keyed k a l'
      else (k, a) :: l
  end.

Definition sort_keyed (l : list (float * unit_)) : list (float * unit_) :=
  fold_right (fun ka acc => insert_keyed (fst ka) (snd ka) acc) [] l.

Definition sort_by_top (units : list unit_) : result (list unit_) :=
  keys ← rmap top_key units;
  Ok (map snd (sort_keyed (combine keys units))).

(** The locals of the clustering loop.  [paras] is a list whose last element
    is the list object [now_para] itself: it is kept as the closed paragraphs
    [closed] and the running one.  [para_top] is assigned once and never read,
    and is left out. *)
Record scan_state : Set := mkState {
  para_l : float;
  para_r : float;
  para_bottom : float;
  para_line_h : float;
  para_line_s : option float;
  closed : list (list unit_);
  now_para : list unit_;
  paras_line_space : list (option float)
}.

Definition paras (st : scan_state) : list (list unit_) :=
  closed st ++ [now_para st].

(** The state before the loop, from [units[0]]. *)
Definition init_state (u0 : unit_) : result scan_state :=
  '(l, top, r, bottom) ← get_bbox_bounds (bbox u0);
  Ok {| para_l := l; para_r := r; para_bottom := bottom;
        para_line_h := (bottom - top)%float;
        para_line_s := None;
        closed := []; now_para := [u0];
        paras_line_space := [None] |}.

(** The condition of the [if] in the loop. *)
Definition same_paragraph (st : scan_state) (l r ls : float) : bool :=
  (abs (para_l st - l) <=? para_line_h st * 1.2)%float
  && (abs (para_r st - r) <=? para_line_h st * 1.2)%float
  && match para_line_s st with
     | None => true
     | Some s => (ls <? s + para_line_h st * 0.5)%float
     end.

(** One iteration of the loop on [units[i]]. *)
Definition step (st : scan_state) (u : unit_) : result scan_state :=
  '(l, top, r, bottom) ← get_bbox_bounds (bbox u);
  let h := (bottom - top)%float in
  let ls := (top - para_bottom st)%float in
  if same_paragraph st l r ls then
    Ok {| para_l := ((para_l st + l) / 2)%float;
          para_r := ((para_r st + r) / 2)%float;
          para_bottom := bottom;
          para_line_h := ((para_line_h st + h) / 2)%float;
          para_line_s := Some match para_line_s st with
                              | None => ls
                              | Some s => ((s + ls) / 2)%float
                              end;
          closed := closed st;
          now_para := now_para st ++ [u];
          paras_line_space := paras_line_space st |}
  else
    Ok {| para_l := l; para_r := r;
          para_bottom := bottom;
          para_line_h := h;
          para_line_s := None;
          closed := closed st ++ [now_para st];
          now_para := [u];
          paras_line_space := paras_line_space st ++ [para_line_s st] |}.

(** [for i in range(1, len(units))] *)
Fixpoint scan (st : scan_state) (us : list unit_) : result scan_state :=
  match us with
  | [] => Ok st
  | u :: us' =>
      st' ← step st u;
      scan st' us'
  end.

(** The inner loop of the separator pass: [for i1 in range(len(para) - 1)]. *)
Fixpoint set_inner_ends (h : heap) (para : list unit_) : heap :=
  match para with
  | a :: ((b :: _) as rest) =>
      let sep := _word_separator (snd (letters a)) (fst (letters b)) in
      set_inner_ends (set_end h (tb a) sep) rest
  | _ => h
  end.

(** The body of [for para in paras]; [para[-1]] raises on an empty list. *)
Definition set_para_ends (h : heap) (para : list unit_) : result heap :=
  let h1 := set_inner_ends h para in
  a ← last_item para;
  Ok (set_end h1 (tb a) sep_newline).

Fixpoint set_all_ends (h : heap) (ps : list (list unit_)) : result heap :=
  match ps with
  | [] => Ok h
  | para :: ps' =>
      h1 ← set_para_ends h para;
      set_all_ends h1 ps'
  end.

(** [_parse].  The method returns nothing; the model returns the final store
    together with the local [paras], the paragraphs it has formed. *)
Definition _parse (h : heap) (units : list unit_)
  : result (list (list unit_) * heap) :=
  match units with
  | [] => Ok ([], h)
  | _ :: _ =>
      sorted ← sort_by_top units;
      u0 ← first_item sorted;
      st0 ← init_state u0;
      st ← scan st0 (tail sorted);
      h' ← set_all_ends h (paras st);
      Ok (paras st, h')
  end.

(** [run]: the list it returns is the list it was given. *)
Definition run (h : heap) (text_blocks : list loc) : result (list loc * heap) :=
  units ← _get_units h text_blocks;
  '(_, h') ← _parse h units;
  Ok (text_blocks, h').

End WithCategory.

(** ** [PDFProcessor]: the collector *)

(** A rectangle [[x0, y0, x1, y1]]: a line's bbox or an ignore area. *)
Definition rect : Set := (float * float * float * float)%type.

(** [_is_in_ignore_area] *)
Fixpoint _is_in_ignore_area (bbox : rect) (ignore_areas : list rect) : bool :=
  let '(x0, y0, x1, y1) := bbox in
  let center_x := ((x0 + x1) / 2)%float in
  let center_y := ((y0 + y1) / 2)%float in
  match ignore_areas with
  | [] => false
  | (ax0, ay0, ax1, ay1) :: areas' =>
      if (ax0 <=? center_x)%float && (center_x <=? ax1)%float
         && (ay0 <=? center_y)%float && (center_y <=? ay1)%float
      then true
      else _is_in_ignore_area bbox areas'
  end.

(** The rectangle [_filter_ignore_areas] builds from a block: points 0 and 2
    of its box. *)
Definition diagonal (b : block) : result rect :=
  p0 ← item (box b) 0;
  p2 ← item (box b) 2;
  Ok (fst p0, snd p0, fst p2, snd p2).

(** [_filter_ignore_areas] *)
Fixpoint _filter_ignore_areas (blocks : list block) (ignore_areas : list rect)
  : result (list block) :=
  match blocks with
  | [] => Ok []
  | b :: blocks' =>
      bbox ← diagonal b;
      filtered ← _filter_ignore_areas blocks' ignore_areas;
      Ok (if negb (_is_in_ignore_area bbox ignore_areas) then b :: filtered
          else filtered)
  end.

(** An entry of the list [BaseOCR.recognize] returns. *)
Record ocr_item : Set := mkItem {
  item_text : str;
  item_box : list point;
  item_score : float
}.

(** [_ocr_image], from the result of [ocr_engine.recognize]. *)
Definition _ocr_image (ocr_result : list ocr_item) : list block :=
  map (fun it => {| box := item_box it; text := item_text it;
                    from := from_ocr; end_ := sep_empty;
                    score := Some (item_score it) |}) ocr_result.

(** A line of a text block of the page: its bbox and the texts of its spans. *)
Record line : Set := mkLine {
  line_bbox : rect;
  spans : list str
}.

(** An image of [page.get_images]: the rectangles [page.get_image_rects]
    lists for its xref, none when the page does not show the image, and what
    [ocr_engine.recognize] finds in its bytes. *)
Record image : Set := mkImage {
  image_rects : list rect;
  image_ocr : list ocr_item
}.

(** What the document and the OCR engine supply for one page: the lines of
    its text blocks in order, its images in order, and the recognition result
    of the rendered page. *)
Record page : Set := mkPage {
  lines : list line;
  images : list image;
  pixmap : list ocr_item
}.

(** The [mode] argument; a string other than the four named ones selects no
    branch. *)
Inductive mode : Set :=
| mixed
| textOnly
| imageOnly
| fullPage
| other_mode.

(** The native-text loop of [extract_text]. *)
Definition native_blocks (ls : list line) (ignore_areas : list rect) : list block :=
  flat_map (fun ln =>
    let text := concat (spans ln) in
    match text with
    | [] => []
    | _ :: _ =>
        if negb (_is_in_ignore_area (line_bbox ln) ignore_areas) then
          let '(b0, b1, b2, b3) := line_bbox ln in
          [ {| box := [ (b0, b1); (b2, b1); (b2, b3); (b0, b3) ];
               text := text; from := from_text; end_ := sep_empty;
               score := None |} ]
        else []
    end) ls.

(** The image loop of [extract_text]. *)
Fixpoint image_blocks (imgs : list (list ocr_item)) (ignore_areas : list rect)
  : result (list block) :=
  match imgs with
  | [] => Ok []
  | img :: imgs' =>
      bs ← _filter_ignore_areas (_ocr_image img) ignore_areas;
      rest ← image_blocks imgs' ignore_areas;
      Ok (bs ++ rest)
  end.

(** [extract_images] on the page [extract_text] has looked up: one entry per
    image, its ["bbox"] from the first rectangle of the image and its
    ["bytes"], which stand here as what the engine recognises in them.
    [page.get_image_rects(xref)[0]] raises on an image without a rectangle;
    [doc.extract_image] is taken to answer for every image of the page. *)
Definition extract_images (pg : page) : result (list (rect * list ocr_item)) :=
  rmap (fun img =>
          img_rect ← first_item (image_rects img);
          Ok (img_rect, image_ocr img))
       (images pg).

(** The list [extract_text] hands to [paragraph_parser.run].  The list of
    [extract_images] is complete before the first image is recognised. *)
Definition collect (pg : page) (m : mode) (ignore_areas : list rect)
  : result (list block) :=
  let native :=
    match m with
    | mixed | textOnly => native_blocks (lines pg) ignore_areas
    | _ => []
    end in
  ocr ←
    match m with
    | fullPage => _filter_ignore_areas (_ocr_image (pixmap pg)) ignore_areas
    | mixed | imageOnly =>
        imgs ← extract_images pg;
        image_blocks (map snd imgs) ignore_areas
    | _ => Ok []
    end;
  Ok (native ++ ocr).

(** The blocks [extract_text] builds are fresh dicts: block [i] of the list is
    stored at location [i]. *)
Definition no_block : block :=
  {| box := []; text := []; from := from_text; end_ := sep_empty; score := None |}.

Definition alloc (blocks : list block) : heap :=
  fun l => nth l blocks no_block.

Definition locations (blocks : list block) : list loc :=
  seq 0 (length blocks).

(** [extract_text] on a loaded page: the returned blocks, read in the order
    of the returned list. *)
Definition extract_text (category : char -> string) (pg : page) (m : mode) (ignore_areas : list rect)
  : result (list block) :=
  blocks ← collect pg m ignore_areas;
  '(text_blocks, h') ← run category (alloc blocks) (locations blocks);
  Ok (map h' text_blocks).


(** ** Statements of the specification *)

(** Float comparisons as propositions. *)
Definition fle (x y : float) : Prop := (x <=? y)%float = true.
Definition flt (x y : float) : Prop := (x <? y)%float = true.

(** The code-point ranges of the word-separator rule: CJK Unified Ideographs;
    Hiragana and Katakana; Hangul Jamo; Hangul Compatibility Jamo; Hangul
    Syllables; CJK Symbols and Punctuation; CJK Compatibility Forms; Halfwidth
    and Fullwidth Forms. *)
Definition in_cjk_range (c : char) : Prop :=
  0x4E00 <= c <= 0x9FFF \/ 0x3040 <= c <= 0x30FF \/ 0x1100 <= c <= 0x11FF \/
  0x3130 <= c <= 0x318F \/ 0xAC00 <= c <= 0xD7AF \/ 0x3000 <= c <= 0x303F \/
  0xFE30 <= c <= 0xFE4F \/ 0xFF00 <= c <= 0xFFEF.

(** The same-paragraph test on the running values [st], for a candidate with
    left [l], right [r] and spacing [ls]. *)
Definition same_paragraph_test (st : scan_state) (l r ls : float) : Prop :=
  fle (abs (para_l st - l)) (para_line_h st * 1.2)
  /\ fle (abs (para_r st - r)) (para_line_h st * 1.2)
  /\ (para_line_s st = None
      \/ exists s, para_line_s st = Some s /\ flt ls (s + para_line_h st * 0.5)).

(** The same test when the running line height is zero: both tolerances are
    zero and the spacing bound is [s + 0]. *)
Definition zero_tolerance_test (st : scan_state) (l r ls : float) : Prop :=
  fle (abs (para_l st - l)) 0
  /\ fle (abs (para_r st - r)) 0
  /\ (para_line_s st = None
      \/ exists s, para_line_s st = Some s /\ flt ls (s + 0)).

(** The running values after a merge of [u]: two-point averages. *)
Definition merged (st : scan_state) (u : unit_) (l r h ls : float)
    (st' : scan_state) : Prop :=
  para_l st' = ((para_l st + l) / 2)%float
  /\ para_r st' = ((para_r st + r) / 2)%float
  /\ para_line_h st' = ((para_line_h st + h) / 2)%float
  /\ para_line_s st' = Some match para_line_s st with
                            | None => ls
                            | Some s => ((s + ls) / 2)%float
                            end
  /\ closed st' = closed st
  /\ now_para st' = now_para st ++ [u].

(** The running values after a failed test: a new paragraph seeded from [u]. *)
Definition seeded (st : scan_state) (u : unit_) (l r h : float)
    (st' : scan_state) : Prop :=
  para_l st' = l /\ para_r st' = r /\ para_line_h st' = h
  /\ para_line_s st' = None
  /\ closed st' = closed st ++ [now_para st]
  /\ now_para st' = [u].

(** The running values when the loop reaches [rest[i]], the units sorted as
    [u0 :: rest]. *)
Definition running (u0 : unit_) (rest : list unit_) (i : nat) : result scan_state :=
  st0 ← init_state u0;
  scan st0 (take i rest).

(** Two blocks that differ in the ["end"] key at most. *)
Definition same_but_end (b b' : block) : Prop :=
  box b' = box b /\ text b' = text b /\ from b' = from b /\ score b' = score b.

(** The locations the units of a paragraph list refer to. *)
Definition para_locs (ps : list (list unit_)) : list loc :=
  map tb (concat ps).

(** The order the sort leaves: no element is followed by one with a strictly
    smaller key. *)
Definition not_above (a b : float * unit_) : Prop :=
  (fst b <? fst a)%float = false.

Definition tops_ascending (us : list unit_) : Prop :=
  forall i a b ka kb,
    us !! i = Some a -> us !! S i = Some b ->
    top_key a = Ok ka -> top_key b = Ok kb ->
    (kb <? ka)%float = false.

(** The center of a rectangle, and its being inside an ignore area, boundary
    included. *)
Definition center (bbox : rect) : float * float :=
  let '(x0, y0, x1, y1) := bbox in
  (((x0 + x1) / 2)%float, ((y0 + y1) / 2)%float).

Definition center_in (bbox area : rect) : Prop :=
  let '(ax0, ay0, ax1, ay1) := area in
  fle ax0 (fst (center bbox)) /\ fle (fst (center bbox)) ax1
  /\ fle ay0 (snd (center bbox)) /\ fle (snd (center bbox)) ay1.

(** An ignore area with [x0 > x1] or [y0 > y1]. *)
Definition inverted (area : rect) : Prop :=
  let '(ax0, ay0, ax1, ay1) := area in
  flt ax1 ax0 \/ flt ay1 ay0.

(** The blocks [_filter_ignore_areas] keeps. *)
Definition kept (ignore_areas : list rect) (b : block) : bool :=
  match diagonal b with
  | Ok bbox => negb (_is_in_ignore_area bbox ignore_areas)
  | Raise _ => false
  end.

(** The geometry the specification asks the collector to check: four points
    at least, finite coordinates. *)
Definition finite_point (p : point) : bool :=
  is_finite (fst p) && is_finite (snd p).

Definition valid_geometry (b : block) : bool :=
  (4 <=? length (box b))%nat && forallb finite_point (box b).

(** ** Example inputs *)

(** The quadrilateral of an axis-aligned rectangle: top-left, top-right,
    bottom-right, bottom-left. *)
Definition rect_box (x0 y0 x1 y1 : float) : list point :=
  [ (x0, y0); (x1, y0); (x1, y1); (x0, y1) ].

(** An ASCII literal as a [str]. *)
Definition lit (s : string) : str :=
  map (fun a => Z.of_N (N_of_ascii a)) (list_ascii_of_string s).

(** The general categories of the ASCII characters, as [unicodedata.category]
    gives them; other characters are not covered and answer [Cn]. *)
Definition ascii_category (c : char) : string :=
  if (c <? 0) || (127 <? c) then "Cn"
  else if (c <? 32) || (c =? 127) then "Cc"
  else if c =? 32 then "Zs"
  else if (48 <=? c) && (c <=? 57) then "Nd"
  else if (65 <=? c) && (c <=? 90) then "Lu"
  else if (97 <=? c) && (c <=? 122) then "Ll"
  else if c =? 36 then "Sc"
  else if (c =? 43) || (c =? 60) || (c =? 61) || (c =? 62) || (c =? 124)
          || (c =? 126) then "Sm"
  else if (c =? 94) || (c =? 96) then "Sk"
  else if (c =? 40) || (c =? 91) || (c =? 123) then "Ps"
  else if (c =? 41) || (c =? 93) || (c =? 125) then "Pe"
  else if c =? 45 then "Pd"
  else if c =? 95 then "Pc"
  else "Po".

(** The three observations and the ignore rectangle of the end-to-end
    example. *)
Definition hello : ocr_item := mkItem (lit "Hello") (rect_box 0 0 100 20) 1.
Definition world : ocr_item := mkItem (lit "World") (rect_box 0 22 100 42) 1.
Definition footer : ocr_item := mkItem (lit "Footer") (rect_box 0 200 100 220) 1.
Definition footer_area : rect := (0, 190, 200, 230)%float.

Definition ocr_block (it : ocr_item) (sep : str) : block :=
  {| box := item_box it; text := item_text it; from := from_ocr;
     end_ := sep; score := Some (item_score it) |}.

Definition unit_of (it : ocr_item) (c0 c1 : char) (l : loc) : unit_ :=
  mkUnit (item_box it) (c0, c1) l.

Arguments unit_of it (c0 c1)%_Z l%_nat.

(** Two recognition results with a malformed box: a coordinate that is not a
    number, and a triangle. *)
Definition nan_item : ocr_item :=
  mkItem (lit "x") [ (nan, 0); (100, 0); (100, 20); (0, 20) ]%float 1.
Definition triangle_item : ocr_item :=
  mkItem (lit "y") [ (0, 0); (100, 0); (50, 20) ]%float 1.
Definition malformed_page : page := mkPage [] [] [nan_item; triangle_item].

(** A line of zero height and a line below it with the same margins. *)
Definition flat_item : ocr_item := mkItem (lit "A") (rect_box 0 0 100 0) 1.
Definition below_item : ocr_item := mkItem (lit "B") (rect_box 0 5 100 25) 1.

(** A third line far below the two lines of the end-to-end example. *)
Definition far_item : ocr_item := mkItem (lit "Far") (rect_box 0 100 100 120) 1.

(** The store and the units of the two lines of the example, and of the
    three lines with the far one. *)
Definition hw_heap : heap := alloc (_ocr_image [hello; world]).
Definition hw_units : list unit_ :=
  [ unit_of hello 72 111 0%nat; unit_of world 87 100 1%nat ].
Definition hwf_heap : heap := alloc (_ocr_image [hello; world; far_item]).
Definition hwf_units : list unit_ :=
  [ unit_of hello 72 111 0%nat; unit_of world 87 100 1%nat;
    unit_of far_item 70 114 2%nat ].

(** The paragraphs and the store [_parse] ends with, when it returns. *)
Definition final_paras (category : char -> string) (h : heap)
    (units : list unit_) : list (list unit_) :=
  match _parse category h units with
  | Ok (ps, _) => ps
  | Raise _ => []
  end.

Definition final_heap (category : char -> string) (h : heap)
    (units : list unit_) : heap :=
  match _parse category h units with
  | Ok (_, h') => h'
  | Raise _ => h
  end.

(** The running values, when the loop reaches them. *)
Definition running_state (u0 : unit_) (rest : list unit_) (i : nat) : scan_state :=
  match running u0 rest i with
  | Ok st => st
  | Raise _ => mkState 0 0 0 0 None [] [] []
  end.

Arguments running_state u0 rest%_list i%_nat.

(** The units of the flat line and the line below it. *)
Definition flat_heap : heap := alloc (_ocr_image [flat_item; below_item]).
Definition flat_units : list unit_ :=
  [ unit_of flat_item 65 65 0%nat; unit_of below_item 66 66 1%nat ].

(** The page of the end-to-end example. *)
Definition example_page : page := mkPage [] [] [hello; world; footer].

(** The same three observations as lines of the text layer. *)
Definition native_block (bbox : rect) (t : str) (sep : str) : block :=
  let '(b0, b1, b2, b3) := bbox in
  {| box := [ (b0, b1); (b2, b1); (b2, b3); (b0, b3) ];
     text := t; from := from_text; end_ := sep; score := None |}.

Definition native_example_page : page :=
  mkPage [ mkLine (0, 0, 100, 20)%float [lit "Hello"];
           mkLine (0, 22, 100, 42)%float [lit "Wor"; lit "ld"];
           mkLine (0, 200, 100, 220)%float [lit "Footer"] ] [] [].

(** A tall block, a short block inside its extent and a block below: the
    list of text blocks names the short block twice. *)
Definition tall_item : ocr_item := mkItem (lit "X") (rect_box 0 0 100 100) 1.
Definition short_item : ocr_item := mkItem (lit "A") (rect_box 0 10 100 12) 1.
Definition low_item : ocr_item := mkItem (lit "C") (rect_box 0 20 100 22) 1.
Definition aliased_heap : heap := alloc (_ocr_image [tall_item; short_item; low_item]).
Definition aliased_blocks : list loc := [0; 1; 1; 2]%nat.

(** ** The observations of a page and the rectangle the filter tests *)

(** The rectangle that has the first and the third point of a box as
    opposite corners; a box of fewer than three points has none. *)
Definition corners (bx : list point) : option rect :=
  match bx with
  | (x0, y0) :: _ :: (x1, y1) :: _ => Some (x0, y0, x1, y1)
  | _ => None
  end.

(** An observation is dropped when the rectangle of its corners is ignored. *)
Definition dropped (ignore_areas : list rect) (b : block) : bool :=
  match corners (box b) with
  | Some r => _is_in_ignore_area r ignore_areas
  | None => false
  end.

(** The observations of a page before the ignore areas are applied, in the
    order of collection: the lines of the text layer that have a text, then
    the lines recognised in the images or in the rendered page. *)
Definition native_observations (ls : list line) : list block :=
  flat_map (fun ln =>
    match concat (spans ln) with
    | [] => []
    | _ :: _ => [native_block (line_bbox ln) (concat (spans ln)) sep_empty]
    end) ls.

Definition ocr_observations (pg : page) (m : mode) : list block :=
  match m with
  | fullPage => _ocr_image (pixmap pg)
  | mixed | imageOnly =>
      flat_map (fun img => _ocr_image (image_ocr img)) (images pg)
  | _ => []
  end.

Definition observations (pg : page) (m : mode) : list block :=
  match m with
  | mixed | textOnly => native_observations (lines pg)
  | _ => []
  end ++ ocr_observations pg m.

(** A recognised line whose box is a slightly slanted quadrilateral, on the
    rendered page and in an image, and an ignore rectangle over the left half
    of the page. *)
Definition slanted_item : ocr_item :=
  mkItem (lit "Hello") [ (0, 0); (100, 1); (101, 21); (-1, 20) ]%float 1.
Definition left_half : rect := (0, 0, 50.25, 30)%float.
Definition slanted_page : page :=
  mkPage [] [ mkImage [ (0, 0, 200, 50)%float ] [slanted_item] ] [slanted_item].

(** ** The OCR wrapper, the document loop and the image anchors *)

(** A line of the result of the RapidOCR engine, [[box, text, score]]: the
    box is a sequence of points, a point a sequence of numbers. *)
Record raw_line : Set := mkRaw {
  raw_box : list (list float);
  raw_text : str;
  raw_score : float
}.

(** [[box[k][0], box[k][1]]] *)
Definition raw_point (box : list (list float)) (k : nat) : result point :=
  p ← item box k;
  x ← item p 0;
  y ← item p 1;
  Ok (x, y).

(** The dict [RapidOCRWrapper.recognize] appends for one line. *)
Definition recognize_line (ln : raw_line) : result ocr_item :=
  p0 ← raw_point (raw_box ln) 0;
  p1 ← raw_point (raw_box ln) 1;
  p2 ← raw_point (raw_box ln) 2;
  p3 ← raw_point (raw_box ln) 3;
  Ok (mkItem (raw_text ln) [p0; p1; p2; p3] (raw_score ln)).

(** [RapidOCRWrapper.recognize], from what the engine returns for the image:
    nothing ([None]) or a list of lines.  Any exception inside the [try] is
    caught and answered by the empty list. *)
Definition recognize (engine_result : option (list raw_line)) : list ocr_item :=
  match engine_result with
  | None => []
  | Some [] => []
  | Some ((_ :: _) as lines) =>
      match rmap recognize_line lines with
      | Ok output => output
      | Raise _ => []
      end
  end.

(** [PDFProcessor.extract_text] with its guard on the document and the page
    number; [self.doc] is [None] before a document is loaded.  An empty
    document is caught by the bounds. *)
Definition extract_text_at (category : char -> string) (doc : option (list page))
    (page_num : Z) (m : mode) (ignore_areas : list rect) : result (list block) :=
  match doc with
  | None => Ok []
  | Some pages =>
      if (page_num <? 0) || (Z.of_nat (length pages) <=? page_num) then Ok []
      else
        match pages !! Z.to_nat page_num with
        | Some pg => extract_text category pg m ignore_areas
        | None => Ok []
        end
  end.

(** A block with the ["page"] key [extract_pdf_data] adds. *)
Definition paged_block : Set := (block * Z)%type.

(** The loop of [PDFToExcelProcessor.extract_pdf_data] over the page
    numbers, with [all_text_blocks] as it stands. *)
Fixpoint extract_pages (category : char -> string) (doc : list page)
    (page_nums : list nat) (all_text_blocks : list paged_block)
  : result (list paged_block) :=
  match page_nums with
  | [] => Ok all_text_blocks
  | page_num :: rest =>
      text_blocks ← extract_text_at category (Some doc) (Z.of_nat page_num) mixed [];
      extract_pages category doc rest
        match text_blocks with
        | [] => all_text_blocks
        | _ :: _ =>
            all_text_blocks
            ++ map (fun b => (b, Z.of_nat page_num + 1)) text_blocks
        end
  end.

(** [extract_pdf_data] on a loaded document. *)
Definition extract_pdf_data (category : char -> string) (doc : list page)
  : result (list paged_block) :=
  extract_pages category doc (seq 0 (length doc)) [].

(** The offsets [(row_offset, col_offset)] of image [i] among [count]
    images, in [_insert_images_to_excel] and [verify_and_reinsert_images]. *)
Definition image_offsets (count i : nat) : Z * Z :=
  if (count <=? 2)%nat then (0, Z.of_nat i * 10)
  else (Z.of_nat i / 2 * 50, Z.of_nat i mod 2 * 10).

(** The anchor cell [(row, column)] of image [i]: [start_row] and
    [start_col] are 2. *)
Definition image_anchor (count i : nat) : Z * Z :=
  (2 + fst (image_offsets count i), 2 + snd (image_offsets count i)).

(** The insertion loop: [enumerate(image_paths)] from index [i].  An image is
    added when its file exists and the [try] block goes through ([usable]:
    the image loads and is added); its anchor is computed from its index in
    the whole list. *)
Fixpoint insert_images_from (exists_ usable : str -> bool) (count i : nat)
    (image_paths : list str) : list (str * (Z * Z)) :=
  match image_paths with
  | [] => []
  | image_path :: rest =>
      (if exists_ image_path && usable image_path
       then [(image_path, image_anchor count i)] else [])
      ++ insert_images_from exists_ usable count (S i) rest
  end.

Definition inserted_images (exists_ usable : str -> bool) (image_paths : list str)
  : list (str * (Z * Z)) :=
  insert_images_from exists_ usable (length image_paths) 0 image_paths.

(** ** The separator pass as a list of writes *)

Section Writes.

Variable category : char -> string.

(** The calls [set_end(tb, sep)] of the inner loop on a paragraph, in order. *)
Fixpoint inner_writes (para : list unit_) : list (loc * str) :=
  match para with
  | a :: ((b :: _) as rest) =>
      (tb a, _word_separator category (snd (letters a)) (fst (letters b)))
      :: inner_writes rest
  | _ => []
  end.

(** The calls on one paragraph, the newline on its last unit included. *)
Definition para_writes (para : list unit_) : list (loc * str) :=
  match last para with
  | Some a => inner_writes para ++ [(tb a, sep_newline)]
  | None => inner_writes para
  end.

Definition all_writes (ps : list (list unit_)) : list (loc * str) :=
  concat (map para_writes ps).

End Writes.

Definition apply_writes (h : heap) (ws : list (loc * str)) : heap :=
  fold_left (fun h' w => set_end h' (fst w) (snd w)) ws h.

(** The separator of the last write on a location, if it is written. *)
Fixpoint last_write (ws : list (loc * str)) (l : loc) : option str :=
  match ws with
  | [] => None
  | w :: ws' =>
      match last_write ws' l with
      | Some s => Some s
      | None => if Nat.eqb (fst w) l then Some (snd w) else None
      end
  end.

(** A box none of whose coordinates is NaN. *)
Definition no_nan (x : float) : Prop := is_nan x = false.

Definition no_nan_box (bbox : list point) : Prop :=
  Forall (fun p => no_nan (fst p) /\ no_nan (snd p)) bbox.

(** A recognition result the parser can take: a text and three points. *)
Definition usable_item (it : ocr_item) : Prop :=
  item_text it <> [] /\ (3 <= length (item_box it))%nat.

(** An image [extract_images] can place and whose recognised lines the
    parser can take. *)
Definition usable_image (img : image) : Prop :=
  image_rects img <> [] /\ Forall usable_item (image_ocr img).

(** The three separators. *)
Definition is_separator (s : str) : Prop :=
  s = sep_empty \/ s = sep_space \/ s = sep_newline.

(** A line of the engine whose box has four points of two coordinates at
    least. *)
Definition well_formed_line (ln : raw_line) : bool :=
  forallb (fun k => match raw_box ln !! k with
                    | Some p => (2 <=? length p)%nat
                    | None => false
                    end) [0; 1; 2; 3]%nat.

(** What [recognize] keeps of a line: the text, the score, and the first two
    coordinates of the first four points. *)
Definition line_kept_as (ln : raw_line) (it : ocr_item) : Prop :=
  item_text it = raw_text ln
  /\ item_score it = raw_score ln
  /\ length (item_box it) = 4%nat
  /\ forall k x y, item_box it !! k = Some (x, y) ->
       exists rest, raw_box ln !! k = Some (x :: y :: rest).

(** The blocks of a page with the ["page"] key: the page number plus one. *)
Definition tag_page (page_num : nat) (bs : list block) : list paged_block :=
  map (fun b => (b, Z.of_nat page_num + 1)) bs.

(** The blocks of the result that carry a given page. *)
Definition blocks_of_page (p : Z) (out : list paged_block) : list block :=
  map fst (List.filter (fun bp => snd bp =? p) out).

(** The top of a unit, when its box has one. *)
Definition top_of (u : unit_) : float :=
  match top_key u with
  | Ok k => k
  | Raise _ => 0%float
  end.

(** Units whose tops are pairwise different and comparable: of two units one
    is strictly above the other. *)
Definition distinct_tops (units : list unit_) : Prop :=
  NoDup units
  /\ forall a b, In a units -> In b units -> a <> b ->
       flt (top_of a) (top_of b) \/ flt (top_of b) (top_of a).

(** The strict order of the keys. *)
Definition strictly_below (a b : float * unit_) : Prop :=
  (fst a <? fst b)%float = true.

(** Example inputs for the added code. *)
Definition skew_box : list point :=
  [ (1, 2); (11, 3); (10, 9); (0, 8) ]%float.

Definition raw_hello : raw_line :=
  mkRaw [ [0; 0]; [100; 0]; [100; 20]; [0; 20] ]%float (lit "Hello") 1.
Definition raw_world : raw_line :=
  mkRaw [ [0; 22]; [100; 22]; [100; 42]; [0; 42] ]%float (lit "World") 1.

Definition hyphen_item : ocr_item := mkItem (lit "co-") (rect_box 0 0 100 20) 1.
Definition hyphen_heap : heap := alloc (_ocr_image [hyphen_item; world]).

(** A page with a line of text and an image that holds a line below it, and
    the same page when it lists the image without showing it. *)
Definition pictured_page : page :=
  mkPage [ mkLine (0, 0, 100, 20)%float [lit "Hello"] ]
         [ mkImage [ (0, 22, 100, 42)%float ] [world] ]
         [hello; world].

Definition unplaced_page : page :=
  mkPage [ mkLine (0, 0, 100, 20)%float [lit "Hello"] ]
         [ mkImage [] [world] ]
         [hello; world].

Definition two_page_doc : list page :=
  [ mkPage [ mkLine (0, 0, 100, 20)%float [lit "Hello"] ] [] [];
    mkPage [ mkLine (0, 22, 100, 42)%float [lit "World"] ] [] [] ].

(** * Properties *)

(** ** The result monad *)

Lemma bind_Ok {A B : Type} (m : result A) (k : A -> result B) (b : B) :
  m ≫= k = Ok b <-> exists a, m = Ok a /\ k a = Ok b.
Proof.
  destruct m as [a|e]; simpl; split.
  - intros H; exists a; auto.
  - intros (a' & Ha & Hk); congruence.
  - discriminate.
  - intros (a' & Ha & _); discriminate.
Qed.

Lemma bind_Raise {A B : Type} (m : result A) (k : A -> result B) (e : exn) :
  m = Raise e -> m ≫= k = Raise e.
Proof. intros ->; reflexivity. Qed.

Ltac inv_bind H :=
  let a := fresh "a" in
  let Ha := fresh "Ha" in
  apply bind_Ok in H; destruct H as (a & Ha & H).

Lemma rmap_Ok_Forall2 {A B : Type} (f : A -> result B) (l : list A) (l' : list B) :
  rmap f l = Ok l' <-> Forall2 (fun a b => f a = Ok b) l l'.
Proof.
  revert l'; induction l as [|a l IH]; intros l'; simpl.
  - split.
    + intros [= <-]; constructor.
    + intros H; inversion H; reflexivity.
  - split.
    + intros H. inv_bind H. inv_bind H. injection H as <-.
      constructor; [assumption | now apply IH].
    + intros H. inversion H as [|? b ? bs Hb Hbs]; subst.
      apply bind_Ok; exists b; split; [assumption|].
      apply bind_Ok; exists bs; split; [now apply IH | reflexivity].
Qed.

Lemma rmap_total {A B : Type} (f : A -> result B) (l : list A) :
  Forall (fun a => exists b, f a = Ok b) l -> exists l', rmap f l = Ok l'.
Proof.
  induction 1 as [|a l [b Hb] _ [bs Hbs]]; simpl.
  - now exists [].
  - exists (b :: bs). rewrite Hb; simpl. rewrite Hbs; reflexivity.
Qed.

Lemma rmap_Raise {A B : Type} (f : A -> result B) (l : list A) (e : exn) :
  (forall a e', f a = Raise e' -> e' = e) ->
  Exists (fun a => exists e', f a = Raise e') l ->
  rmap f l = Raise e.
Proof.
  intros Hone; induction 1 as [a l [e' He']|a l _ IH]; simpl.
  - rewrite He'; simpl. now rewrite (Hone _ _ He').
  - destruct (f a) as [b|e'] eqn:Hfa; simpl.
    + now rewrite IH.
    + now rewrite (Hone _ _ Hfa).
Qed.

(** ** The order of binary64 numbers

    [<] and [<=] on floats are read through the comparison of their
    specification, which is lexicographic on sign, exponent and mantissa. *)

Lemma SFcompare_swap (x y : spec_float) :
  SFcompare y x = option_map CompOpp (SFcompare x y).
Proof.
  destruct x as [sx|sx| |sx mx ex], y as [sy|sy| |sy my ey]; simpl;
    try reflexivity; try (destruct sx; reflexivity); try (destruct sy; reflexivity);
    try (destruct sx, sy; reflexivity).
  destruct sx, sy; simpl; try reflexivity;
    change (Pcompare mx my Eq) with (Pos.compare mx my);
    change (Pcompare my mx Eq) with (Pos.compare my mx);
    rewrite (Z.compare_antisym ex ey), (Pos.compare_antisym mx my);
    destruct (ex ?= ey)%Z; simpl; try reflexivity;
    destruct (mx ?= my)%positive; reflexivity.
Qed.

Lemma SFleb_trans (x y z : spec_float) :
  SFleb x y = true -> SFleb y z = true -> SFleb x z = true.
Proof.
  unfold SFleb.
  destruct x as [sx|sx| |sx mx ex], y as [sy|sy| |sy my ey], z as [sz|sz| |sz mz ez];
    simpl; try discriminate; try reflexivity;
    try (destruct sx; simpl; try discriminate; try reflexivity);
    try (destruct sy; simpl; try discriminate; try reflexivity);
    try (destruct sz; simpl; try discriminate; try reflexivity).
  all: change (Pcompare mx my Eq) with (Pos.compare mx my);
       change (Pcompare my mz Eq) with (Pos.compare my mz);
       change (Pcompare mx mz Eq) with (Pos.compare mx mz).
  all: destruct (Z.compare_spec ex ey), (Z.compare_spec ey ez), (Z.compare_spec ex ez);
       simpl; try discriminate; try reflexivity; try lia.
  all: destruct (Pos.compare_spec mx my), (Pos.compare_spec my mz),
         (Pos.compare_spec mx mz);
       simpl; try discriminate; try reflexivity; try lia.
Qed.

Lemma float_ltb_asym (a b : float) :
  (a <? b)%float = true -> (b <? a)%float = false.
Proof.
  rewrite !ltb_spec. unfold SFltb.
  rewrite (SFcompare_swap (Prim2SF a) (Prim2SF b)).
  destruct (SFcompare (Prim2SF a) (Prim2SF b)) as [[]|]; simpl; congruence.
Qed.

Lemma float_ltb_not_leb (a b : float) :
  (a <? b)%float = true -> (b <=? a)%float = false.
Proof.
  rewrite ltb_spec, leb_spec. unfold SFltb, SFleb.
  rewrite (SFcompare_swap (Prim2SF a) (Prim2SF b)).
  destruct (SFcompare (Prim2SF a) (Prim2SF b)) as [[]|]; simpl; congruence.
Qed.

Lemma float_leb_trans (a b c : float) :
  (a <=? b)%float = true -> (b <=? c)%float = true -> (a <=? c)%float = true.
Proof. rewrite !leb_spec. apply SFleb_trans. Qed.

(** ** The word separator *)

Lemma is_cjk_spec (c : char) : is_cjk c = true <-> in_cjk_range c.
Proof.
  unfold is_cjk, in_cjk_range, cjk_ranges; simpl.
  rewrite !orb_true_iff, !andb_true_iff, !Z.leb_le.
  intuition lia.
Qed.

Lemma is_cjk_false (c : char) : is_cjk c = false <-> ~ in_cjk_range c.
Proof.
  rewrite <- is_cjk_spec. destruct (is_cjk c); split; congruence.
Qed.

(** C2.  The word separator is the empty string when both characters lie in
    the CJK ranges of [is_cjk] (which are exactly the eight ranges of
    [in_cjk_range]); otherwise the empty string when the first character is
    the hyphen; otherwise the empty string when the general category of the
    second character starts with P; and a space in every remaining case. *)
Theorem word_separator_precedence (category : char -> string) (c1 c2 : char) :
  (is_cjk c1 = true <-> in_cjk_range c1)
  /\ (in_cjk_range c1 /\ in_cjk_range c2 ->
      _word_separator category c1 c2 = sep_empty)
  /\ (~ (in_cjk_range c1 /\ in_cjk_range c2) -> c1 = hyphen ->
      _word_separator category c1 c2 = sep_empty)
  /\ (~ (in_cjk_range c1 /\ in_cjk_range c2) -> c1 <> hyphen ->
      startswith_P (category c2) = true ->
      _word_separator category c1 c2 = sep_empty)
  /\ (~ (in_cjk_range c1 /\ in_cjk_range c2) -> c1 <> hyphen ->
      startswith_P (category c2) = false ->
      _word_separator category c1 c2 = sep_space).
Proof.
  split; [apply is_cjk_spec|].
  assert (Hboth : is_cjk c1 && is_cjk c2 = false <->
                  ~ (in_cjk_range c1 /\ in_cjk_range c2)).
  { rewrite <- !is_cjk_spec. destruct (is_cjk c1), (is_cjk c2); simpl;
      intuition congruence. }
  unfold _word_separator.
  repeat split.
  - intros [H1 H2]. apply is_cjk_spec in H1, H2. now rewrite H1, H2.
  - intros Hn ->. apply Hboth in Hn. now rewrite Hn.
  - intros Hn Hh HP. apply Hboth in Hn. rewrite Hn.
    apply Z.eqb_neq in Hh. now rewrite Hh, HP.
  - intros Hn Hh HP. apply Hboth in Hn. rewrite Hn.
    apply Z.eqb_neq in Hh. now rewrite Hh, HP.
Qed.

(** ** The ignore-area filter *)

Lemma is_in_ignore_area_spec (bbox : rect) (areas : list rect) :
  _is_in_ignore_area bbox areas = true <-> Exists (center_in bbox) areas.
Proof.
  destruct bbox as [[[x0 y0] x1] y1].
  induction areas as [|[[[ax0 ay0] ax1] ay1] areas IH].
  - simpl. split; [discriminate | intros H; inversion H].
  - cbn [_is_in_ignore_area].
    destruct ((ax0 <=? (x0 + x1) / 2)%float && ((x0 + x1) / 2 <=? ax1)%float
              && (ay0 <=? (y0 + y1) / 2)%float && ((y0 + y1) / 2 <=? ay1)%float)
      eqn:Hin.
    + split; [intros _ | reflexivity].
      apply Exists_cons_hd. unfold center_in, center, fle; simpl.
      rewrite !andb_true_iff in Hin. tauto.
    + rewrite IH. split; [apply Exists_cons_tl|].
      intros H; inversion H as [? ? Hc|]; subst; [|assumption].
      unfold center_in, center, fle in Hc; simpl in Hc.
      destruct Hc as (H1 & H2 & H3 & H4).
      rewrite H1, H2, H3, H4 in Hin. discriminate.
Qed.

Lemma inverted_excludes_nothing (bbox area : rect) :
  inverted area -> ~ center_in bbox area.
Proof.
  destruct area as [[[ax0 ay0] ax1] ay1].
  unfold inverted, center_in, fle, flt.
  intros [Hx|Hy] (H1 & H2 & H3 & H4).
  - apply float_ltb_not_leb in Hx.
    rewrite (float_leb_trans _ _ _ H1 H2) in Hx. discriminate.
  - apply float_ltb_not_leb in Hy.
    rewrite (float_leb_trans _ _ _ H3 H4) in Hy. discriminate.
Qed.

Lemma diagonal_Ok (b : block) :
  (exists bbox, diagonal b = Ok bbox) <-> (3 <= length (box b))%nat.
Proof.
  unfold diagonal, item.
  destruct (box b) as [|p0 [|p1 [|p2 ps]]]; simpl; split;
    try (intros [? ?]; discriminate); try lia.
  intros _. eexists; reflexivity.
Qed.

Lemma diagonal_Raise (b : block) (e : exn) :
  diagonal b = Raise e -> e = IndexError /\ (length (box b) < 3)%nat.
Proof.
  unfold diagonal, item.
  destruct (box b) as [|p0 [|p1 [|p2 ps]]]; simpl; try discriminate;
    intros [= <-]; split; auto; lia.
Qed.

Lemma filter_ignore_areas_Ok (blocks : list block) (areas : list rect)
    (out : list block) :
  _filter_ignore_areas blocks areas = Ok out ->
  out = List.filter (kept areas) blocks
  /\ Forall (fun b => (3 <= length (box b))%nat) blocks.
Proof.
  revert out; induction blocks as [|b blocks IH]; intros out H;
    cbn [_filter_ignore_areas List.filter] in *.
  - injection H as <-. split; [reflexivity | constructor].
  - inv_bind H. inv_bind H. injection H as <-.
    destruct (IH _ Ha0) as [-> Hall].
    assert (Hk : kept areas b = negb (_is_in_ignore_area a areas))
      by (unfold kept; now rewrite Ha).
    rewrite Hk. split.
    + destruct (negb (_is_in_ignore_area a areas)); reflexivity.
    + constructor; [|assumption]. apply diagonal_Ok. now exists a.
Qed.

Lemma filter_ignore_areas_total (blocks : list block) (areas : list rect) :
  Forall (fun b => (3 <= length (box b))%nat) blocks ->
  _filter_ignore_areas blocks areas = Ok (List.filter (kept areas) blocks).
Proof.
  induction 1 as [|b blocks Hb _ IH]; [reflexivity|].
  apply diagonal_Ok in Hb. destruct Hb as [bbox Hb].
  cbn [_filter_ignore_areas List.filter].
  rewrite Hb; cbn [mbind result_bind]. rewrite IH; cbn [mbind result_bind].
  assert (Hk : kept areas b = negb (_is_in_ignore_area bbox areas))
    by (unfold kept; now rewrite Hb).
  rewrite Hk.
  destruct (negb (_is_in_ignore_area bbox areas)); reflexivity.
Qed.

Lemma filter_ignore_areas_Raise (blocks : list block) (areas : list rect) :
  Exists (fun b => (length (box b) < 3)%nat) blocks ->
  _filter_ignore_areas blocks areas = Raise IndexError.
Proof.
  induction 1 as [b blocks Hb|b blocks _ IH]; simpl.
  - destruct (diagonal b) as [bbox|e] eqn:Hd.
    + assert (3 <= length (box b))%nat by (apply diagonal_Ok; eauto). lia.
    + apply diagonal_Raise in Hd. destruct Hd as [-> _]. reflexivity.
  - destruct (diagonal b) as [bbox|e] eqn:Hd; simpl.
    + now rewrite IH.
    + apply diagonal_Raise in Hd. destruct Hd as [-> _]. reflexivity.
Qed.

Lemma kept_spec (areas : list rect) (b : block) (bbox : rect) :
  diagonal b = Ok bbox ->
  kept areas b = false <-> Exists (center_in bbox) areas.
Proof.
  intros Hd. unfold kept. rewrite Hd, <- is_in_ignore_area_spec.
  destruct (_is_in_ignore_area bbox areas); simpl; split; congruence.
Qed.

Lemma native_blocks_one (ln : line) (areas : list rect) :
  native_blocks [ln] areas = []
  <-> concat (spans ln) = [] \/ Exists (center_in (line_bbox ln)) areas.
Proof.
  rewrite <- is_in_ignore_area_spec.
  unfold native_blocks; simpl. rewrite app_nil_r.
  destruct (concat (spans ln)) as [|c cs]; [tauto|].
  destruct (_is_in_ignore_area (line_bbox ln) areas); simpl.
  - tauto.
  - destruct (line_bbox ln) as [[[b0 b1] b2] b3].
    split; [discriminate | intros [?|?]; discriminate].
Qed.

Lemma float_ltb_irrefl (a : float) : (a <? a)%float = false.
Proof.
  destruct (a <? a)%float eqn:H; [|reflexivity].
  pose proof (float_ltb_asym a a H). congruence.
Qed.

Lemma rect_box_bounds (x0 y0 x1 y1 : float) :
  flt x0 x1 -> flt y0 y1 ->
  get_bbox_bounds (rect_box x0 y0 x1 y1) = Ok (x0, y0, x1, y1).
Proof.
  unfold flt. intros Hx Hy.
  pose proof (float_ltb_asym _ _ Hx) as Hx'.
  pose proof (float_ltb_asym _ _ Hy) as Hy'.
  unfold get_bbox_bounds, rect_box, py_min, py_max.
  cbn [map fst snd fold_left mbind result_bind].
  repeat first [rewrite Hx | rewrite Hy | rewrite Hx' | rewrite Hy'
               | rewrite float_ltb_irrefl].
  reflexivity.
Qed.

Lemma is_in_ignore_area_app (bbox : rect) (areas1 areas2 : list rect) :
  _is_in_ignore_area bbox (areas1 ++ areas2)
  = _is_in_ignore_area bbox areas1 || _is_in_ignore_area bbox areas2.
Proof.
  destruct bbox as [[[x0 y0] x1] y1].
  induction areas1 as [|[[[ax0 ay0] ax1] ay1] areas1 IH]; [reflexivity|].
  cbn [_is_in_ignore_area app]. cbn [_is_in_ignore_area] in IH. rewrite IH.
  destruct ((ax0 <=? (x0 + x1) / 2)%float && ((x0 + x1) / 2 <=? ax1)%float
            && (ay0 <=? (y0 + y1) / 2)%float && ((y0 + y1) / 2 <=? ay1)%float);
    reflexivity.
Qed.

Lemma is_in_ignore_area_inverted_hd (bbox area : rect) (areas : list rect) :
  inverted area ->
  _is_in_ignore_area bbox (area :: areas) = _is_in_ignore_area bbox areas.
Proof.
  intros Hinv.
  pose proof (is_in_ignore_area_spec bbox (area :: areas)) as H1.
  pose proof (is_in_ignore_area_spec bbox areas) as H2.
  pose proof (inverted_excludes_nothing bbox area Hinv) as Hn.
  destruct (_is_in_ignore_area bbox (area :: areas)) eqn:E1,
           (_is_in_ignore_area bbox areas) eqn:E2; try reflexivity.
  + assert (Hex : Exists (center_in bbox) (area :: areas)) by now apply H1.
    inversion Hex; subst; [contradiction|].
    assert (false = true) by now apply H2. discriminate.
  + assert (false = true) as Habs; [|discriminate Habs].
    apply H1. apply Exists_cons_tl. now apply H2.
Qed.

Lemma is_in_ignore_area_inverted (bbox area : rect) (areas1 areas2 : list rect) :
  inverted area ->
  _is_in_ignore_area bbox (areas1 ++ area :: areas2)
  = _is_in_ignore_area bbox (areas1 ++ areas2).
Proof.
  intros Hinv. rewrite !is_in_ignore_area_app.
  now rewrite is_in_ignore_area_inverted_hd.
Qed.

Lemma is_in_ignore_area_all_inverted (bbox : rect) (areas : list rect) :
  Forall inverted areas -> _is_in_ignore_area bbox areas = false.
Proof.
  induction 1 as [|area areas Hinv _ IH];
    [destruct bbox as [[[x0 y0] x1] y1]; reflexivity|].
  now rewrite is_in_ignore_area_inverted_hd.
Qed.

Lemma diagonal_corners (b : block) :
  diagonal b = match corners (box b) with
               | Some r => Ok r
               | None => Raise IndexError
               end.
Proof.
  unfold diagonal, item, corners.
  destruct (box b) as [|[x0 y0] [|p1 [|[x1 y1] ps]]]; reflexivity.
Qed.

Lemma kept_dropped (areas : list rect) (b : block) :
  (3 <= length (box b))%nat -> kept areas b = negb (dropped areas b).
Proof.
  intros Hlen. unfold kept, dropped. rewrite diagonal_corners.
  destruct (box b) as [|[x0 y0] [|p1 [|[x1 y1] ps]]]; simpl in Hlen; try lia.
  reflexivity.
Qed.

Lemma dropped_spec (areas : list rect) (b : block) (x0 y0 x1 y1 : float)
    (p1 : point) (ps : list point) :
  box b = (x0, y0) :: p1 :: (x1, y1) :: ps ->
  dropped areas b = true <-> Exists (center_in (x0, y0, x1, y1)) areas.
Proof.
  intros Hbox. unfold dropped, corners. rewrite Hbox.
  apply is_in_ignore_area_spec.
Qed.

Lemma filter_ignore_areas_dropped (blocks : list block) (areas : list rect)
    (out : list block) :
  _filter_ignore_areas blocks areas = Ok out ->
  out = List.filter (fun b => negb (dropped areas b)) blocks.
Proof.
  intros H. apply filter_ignore_areas_Ok in H. destruct H as [-> Hall].
  apply List.filter_ext_in. intros b Hb. apply kept_dropped.
  rewrite List.Forall_forall in Hall. now apply Hall.
Qed.

Lemma corners_native_block (bbox : rect) (t sep : str) :
  corners (box (native_block bbox t sep)) = Some bbox.
Proof. destruct bbox as [[[b0 b1] b2] b3]. reflexivity. Qed.

Lemma native_blocks_dropped (ls : list line) (areas : list rect) :
  native_blocks ls areas
  = List.filter (fun b => negb (dropped areas b)) (native_observations ls).
Proof.
  unfold native_blocks, native_observations.
  induction ls as [|ln ls IH]; [reflexivity|].
  cbn [flat_map]. rewrite List.filter_app, <- IH. f_equal.
  destruct (concat (spans ln)) as [|c cs]; [reflexivity|].
  cbn [List.filter]. unfold dropped at 1. rewrite corners_native_block.
  destruct (_is_in_ignore_area (line_bbox ln) areas); cbn [negb]; [reflexivity|].
  destruct (line_bbox ln) as [[[b0 b1] b2] b3]. reflexivity.
Qed.

Lemma image_blocks_dropped (imgs : list (list ocr_item)) (areas : list rect)
    (out : list block) :
  image_blocks imgs areas = Ok out ->
  out = List.filter (fun b => negb (dropped areas b)) (flat_map _ocr_image imgs).
Proof.
  revert out; induction imgs as [|img imgs IH]; intros out H;
    cbn [image_blocks flat_map] in *.
  - now injection H as <-.
  - inv_bind H. inv_bind H. injection H as <-.
    rewrite List.filter_app.
    f_equal; [now apply filter_ignore_areas_dropped | now apply IH].
Qed.

Lemma extract_images_Ok (pg : page) :
  Forall (fun img => image_rects img <> []) (images pg) ->
  exists imgs, extract_images pg = Ok imgs
               /\ map snd imgs = map image_ocr (images pg).
Proof.
  unfold extract_images.
  induction 1 as [|img imgs Himg _ (out & Hout & Hsnd)]; cbn [rmap map].
  - exists []. split; reflexivity.
  - destruct (image_rects img) as [|r rs]; [congruence|].
    cbn [first_item mbind result_bind]. rewrite Hout.
    cbn [mbind result_bind]. eexists. split; [reflexivity|].
    cbn [map snd]. now rewrite Hsnd.
Qed.

Lemma extract_images_Ok_inv (pg : page) (imgs : list (rect * list ocr_item)) :
  extract_images pg = Ok imgs ->
  map snd imgs = map image_ocr (images pg)
  /\ Forall (fun img => image_rects img <> []) (images pg).
Proof.
  unfold extract_images. revert imgs.
  induction (images pg) as [|img l IH]; intros imgs H; cbn [rmap map] in *.
  - injection H as <-. split; [reflexivity | constructor].
  - destruct (image_rects img) as [|r rs] eqn:Hr; [discriminate|].
    cbn [first_item mbind result_bind] in H.
    destruct (rmap _ l) as [out|e]; [|discriminate].
    cbn [mbind result_bind] in H. injection H as <-.
    destruct (IH out eq_refl) as [Hsnd Hall].
    split; [cbn [map snd]; now rewrite Hsnd|].
    constructor; [congruence | assumption].
Qed.

Lemma extract_images_Raise (pg : page) :
  Exists (fun img => image_rects img = []) (images pg) ->
  extract_images pg = Raise IndexError.
Proof.
  unfold extract_images.
  induction 1 as [img l Himg|img l _ IH]; cbn [rmap].
  - rewrite Himg. reflexivity.
  - destruct (image_rects img) as [|r rs]; [reflexivity|].
    cbn [first_item mbind result_bind]. now rewrite IH.
Qed.

Lemma flat_map_map {A B C : Type} (f : B -> list C) (g : A -> B) (l : list A) :
  flat_map f (map g l) = flat_map (fun a => f (g a)) l.
Proof. induction l as [|a l IH]; simpl; [reflexivity | now rewrite IH]. Qed.

Lemma collect_dropped (pg : page) (m : mode) (areas : list rect)
    (out : list block) :
  collect pg m areas = Ok out ->
  out = List.filter (fun b => negb (dropped areas b)) (observations pg m).
Proof.
  unfold collect, observations, ocr_observations. intros H.
  inv_bind H. injection H as <-. rename a into ocr, Ha into Hocr.
  rewrite List.filter_app.
  assert (Himg : forall bs,
            (imgs ← extract_images pg; image_blocks (map snd imgs) areas) = Ok bs ->
            bs = List.filter (fun b => negb (dropped areas b))
                   (flat_map (fun img => _ocr_image (image_ocr img)) (images pg))).
  { intros bs H. inv_bind H. apply extract_images_Ok_inv in Ha as [Hsnd _].
    apply image_blocks_dropped in H. now rewrite Hsnd, flat_map_map in H. }
  destruct m.
  - f_equal; [apply native_blocks_dropped | now apply Himg].
  - injection Hocr as <-. f_equal. apply native_blocks_dropped.
  - f_equal. now apply Himg.
  - f_equal. now apply filter_ignore_areas_dropped.
  - now injection Hocr as <-.
Qed.

Lemma filter_ignore_areas_ext (blocks : list block) (areas1 areas2 : list rect) :
  (forall bbox, _is_in_ignore_area bbox areas1 = _is_in_ignore_area bbox areas2) ->
  _filter_ignore_areas blocks areas1 = _filter_ignore_areas blocks areas2.
Proof.
  intros H. induction blocks as [|b blocks IH]; cbn [_filter_ignore_areas];
    [reflexivity|].
  destruct (diagonal b) as [bbox|e]; cbn [mbind result_bind]; [|reflexivity].
  now rewrite IH, H.
Qed.

Lemma native_blocks_ext (ls : list line) (areas1 areas2 : list rect) :
  (forall bbox, _is_in_ignore_area bbox areas1 = _is_in_ignore_area bbox areas2) ->
  native_blocks ls areas1 = native_blocks ls areas2.
Proof.
  intros H. unfold native_blocks.
  induction ls as [|ln ls IH]; cbn [flat_map]; [reflexivity|].
  now rewrite IH, H.
Qed.

Lemma image_blocks_ext (imgs : list (list ocr_item)) (areas1 areas2 : list rect) :
  (forall bbox, _is_in_ignore_area bbox areas1 = _is_in_ignore_area bbox areas2) ->
  image_blocks imgs areas1 = image_blocks imgs areas2.
Proof.
  intros H. induction imgs as [|img imgs IH]; cbn [image_blocks]; [reflexivity|].
  now rewrite IH, (filter_ignore_areas_ext _ areas1 areas2 H).
Qed.

Lemma collect_ext (pg : page) (m : mode) (areas1 areas2 : list rect) :
  (forall bbox, _is_in_ignore_area bbox areas1 = _is_in_ignore_area bbox areas2) ->
  collect pg m areas1 = collect pg m areas2.
Proof.
  intros H. unfold collect.
  rewrite (native_blocks_ext _ areas1 areas2 H),
    (filter_ignore_areas_ext _ areas1 areas2 H).
  destruct m; try reflexivity;
    destruct (extract_images pg) as [imgs|e]; cbn [mbind result_bind];
    try reflexivity; now rewrite (image_blocks_ext _ areas1 areas2 H).
Qed.

Lemma filter_ignore_areas_returns (blocks : list block) (areas1 areas2 : list rect) :
  (exists out, _filter_ignore_areas blocks areas1 = Ok out) ->
  exists out, _filter_ignore_areas blocks areas2 = Ok out.
Proof.
  intros [out H]. apply filter_ignore_areas_Ok in H. destruct H as [_ Hall].
  eexists. now apply filter_ignore_areas_total.
Qed.

Lemma image_blocks_returns (imgs : list (list ocr_item)) (areas1 areas2 : list rect) :
  (exists out, image_blocks imgs areas1 = Ok out) ->
  exists out, image_blocks imgs areas2 = Ok out.
Proof.
  induction imgs as [|img imgs IH]; cbn [image_blocks].
  - intros _. now exists [].
  - intros [out H]. inv_bind H. inv_bind H.
    destruct (filter_ignore_areas_returns _ areas1 areas2 (ex_intro _ _ Ha))
      as [bs ->].
    destruct (IH (ex_intro _ _ Ha0)) as [rest ->].
    cbn [mbind result_bind]. eexists; reflexivity.
Qed.

Lemma collect_returns (pg : page) (m : mode) (areas1 areas2 : list rect) :
  (exists out, collect pg m areas1 = Ok out) ->
  exists out, collect pg m areas2 = Ok out.
Proof.
  unfold collect. intros [out H]. inv_bind H. rename a into ocr, Ha into Hocr.
  destruct m.
  - inv_bind Hocr. rewrite Ha. cbn [mbind result_bind].
    destruct (image_blocks_returns _ areas1 areas2 (ex_intro _ _ Hocr)) as [bs ->].
    cbn [mbind result_bind]. eexists; reflexivity.
  - eexists; reflexivity.
  - inv_bind Hocr. rewrite Ha. cbn [mbind result_bind].
    destruct (image_blocks_returns _ areas1 areas2 (ex_intro _ _ Hocr)) as [bs ->].
    cbn [mbind result_bind]. eexists; reflexivity.
  - destruct (filter_ignore_areas_returns _ areas1 areas2 (ex_intro _ _ Hocr))
      as [bs ->].
    cbn [mbind result_bind]. eexists; reflexivity.
  - eexists; reflexivity.
Qed.

Lemma collect_all_inverted (pg : page) (m : mode) (areas : list rect) :
  Forall inverted areas ->
  collect pg m areas = collect pg m []
  /\ forall out, collect pg m areas = Ok out -> out = observations pg m.
Proof.
  intros Hinv. split.
  - apply collect_ext. intros bbox.
    rewrite (is_in_ignore_area_all_inverted bbox areas Hinv).
    destruct bbox as [[[x0 y0] x1] y1]. reflexivity.
  - intros out H. apply collect_dropped in H. subst out.
    induction (observations pg m) as [|b bs IH]; [reflexivity|].
    cbn [List.filter]. unfold dropped at 1.
    destruct (corners (box b)) as [r|];
      rewrite ?(is_in_ignore_area_all_inverted _ areas Hinv); cbn [negb];
      now rewrite IH.
Qed.

(** C5 as stated fails on a recognised line whose box is not an upright
    rectangle.  The box (0,0), (100,1), (101,21), (-1,20) has the bounding
    box (-1,0,101,21), whose center (50,10.5) lies in the ignore rectangle
    (0,0,50.25,30); the collector keeps the line all the same, in the
    full-page mode and in the image mode, because it tests the midpoint
    (50.5,10.5) of the first and the third point; [extract_text] returns the
    line. *)
Lemma slanted_box_is_kept :
  get_bbox_bounds (item_box slanted_item) = Ok (-1, 0, 101, 21)%float
  /\ center (-1, 0, 101, 21)%float = (50, 10.5)%float
  /\ center_in (-1, 0, 101, 21)%float left_half
  /\ corners (item_box slanted_item) = Some (0, 0, 101, 21)%float
  /\ center (0, 0, 101, 21)%float = (50.5, 10.5)%float
  /\ observations slanted_page fullPage = [ocr_block slanted_item sep_empty]
  /\ collect slanted_page fullPage [left_half]
     = Ok [ocr_block slanted_item sep_empty]
  /\ collect slanted_page imageOnly [left_half]
     = Ok [ocr_block slanted_item sep_empty]
  /\ extract_text ascii_category slanted_page fullPage [left_half]
     = Ok [ocr_block slanted_item sep_newline].
Proof. repeat split; vm_compute; reflexivity. Qed.

(** C5, amended.  A rectangle is ignored exactly when its center
    [((x0+x1)/2, (y0+y1)/2)] lies in some ignore rectangle, boundary
    included.  The rectangle the collector tests for an observation has the
    first and the third point of its box as opposite corners: in every mode
    the collector returns the observations of the page whose rectangle is
    not ignored, in their order.  For a line of the text layer this rectangle
    is the bbox of the line, and for an upright box given from its top-left
    corner it is the bounding box; for another quadrilateral it need not be.
    An inverted rectangle contains no center, and taking it out of the list
    changes no outcome of the collector; with inverted rectangles only the
    collector returns every observation; whether it returns does not depend
    on the rectangles at all. *)
Theorem ignore_area_center_rule (areas : list rect) :
  (forall bbox, _is_in_ignore_area bbox areas = true
                <-> Exists (center_in bbox) areas)
  /\ (forall b x0 y0 p1 x1 y1 ps,
        box b = (x0, y0) :: p1 :: (x1, y1) :: ps ->
        (dropped areas b = true <-> Exists (center_in (x0, y0, x1, y1)) areas))
  /\ (forall blocks out, _filter_ignore_areas blocks areas = Ok out ->
        out = List.filter (fun b => negb (dropped areas b)) blocks)
  /\ (forall pg m out, collect pg m areas = Ok out ->
        out = List.filter (fun b => negb (dropped areas b)) (observations pg m))
  /\ (forall ln t, corners (box (native_block (line_bbox ln) t sep_empty))
                   = Some (line_bbox ln))
  /\ (forall x0 y0 x1 y1, flt x0 x1 -> flt y0 y1 ->
        corners (rect_box x0 y0 x1 y1) = Some (x0, y0, x1, y1)
        /\ get_bbox_bounds (rect_box x0 y0 x1 y1) = Ok (x0, y0, x1, y1))
  /\ (forall area bbox, inverted area -> ~ center_in bbox area)
  /\ (forall pg m areas1 area areas2,
        areas = areas1 ++ area :: areas2 -> inverted area ->
        collect pg m areas = collect pg m (areas1 ++ areas2))
  /\ (Forall inverted areas ->
      forall pg m, collect pg m areas = collect pg m []
                   /\ forall out, collect pg m areas = Ok out ->
                                  out = observations pg m)
  /\ (forall pg m, (exists out, collect pg m areas = Ok out)
                   <-> (exists out, collect pg m [] = Ok out)).
Proof.
  split; [intros; apply is_in_ignore_area_spec|].
  split; [intros; eapply dropped_spec; eassumption|].
  split; [intros; now apply filter_ignore_areas_dropped|].
  split; [intros; now apply collect_dropped|].
  split; [intros; apply corners_native_block|].
  split; [intros; split; [reflexivity | now apply rect_box_bounds]|].
  split; [intros; now apply inverted_excludes_nothing|].
  split.
  - intros pg m areas1 area areas2 -> Hinv. apply collect_ext.
    intros bbox. now apply is_in_ignore_area_inverted.
  - split; [intros Hinv pg m; now apply collect_all_inverted|].
    intros pg m. split; apply collect_returns.
Qed.

(** On the page of the end-to-end example the rule drops the footer, whose
    rectangle (0,200,100,220) has its center in the ignore rectangle, and
    keeps the two lines above it. *)
Lemma ignore_area_center_rule_witness :
  (dropped [footer_area] (ocr_block footer sep_empty) = true
   <-> Exists (center_in (0, 200, 100, 220)%float) [footer_area])
  /\ _ocr_image [hello; world]
     = List.filter (fun b => negb (dropped [footer_area] b))
         (observations example_page fullPage).
Proof.
  pose proof (ignore_area_center_rule [footer_area])
    as (_ & Hdrop & _ & Hcollect & _).
  split.
  - apply (Hdrop (ocr_block footer sep_empty) _ _ (100, 200)%float _ _
             [(0, 220)%float]).
    reflexivity.
  - apply (Hcollect example_page fullPage). vm_compute; reflexivity.
Defined.

(** ** The collector and malformed boxes *)

Lemma ocr_image_box (items : list ocr_item) :
  map box (_ocr_image items) = map item_box items.
Proof. unfold _ocr_image. rewrite map_map. reflexivity. Qed.

Lemma ocr_image_text (items : list ocr_item) :
  map text (_ocr_image items) = map item_text items.
Proof. unfold _ocr_image. rewrite map_map. reflexivity. Qed.

Lemma native_blocks_In (ls : list line) (areas : list rect) (b : block) :
  In b (native_blocks ls areas) ->
  length (box b) = 4%nat /\ text b <> [] /\ from b = from_text.
Proof.
  unfold native_blocks. rewrite in_flat_map.
  intros (ln & _ & Hb).
  destruct (concat (spans ln)) as [|c cs]; [contradiction|].
  destruct (negb (_is_in_ignore_area (line_bbox ln) areas)); [|contradiction].
  destruct (line_bbox ln) as [[[b0 b1] b2] b3].
  destruct Hb as [<-|[]]. simpl. repeat split; discriminate.
Qed.

Lemma is_nan_spec (x : float) : is_nan x = true -> Prim2SF x = S754_nan.
Proof.
  unfold is_nan. rewrite FloatAxioms.eqb_spec. unfold SFeqb.
  destruct (Prim2SF x) as [s|s| |s m e]; simpl; try discriminate; try reflexivity.
  - destruct s; discriminate.
  - destruct s; rewrite Z.compare_refl;
      change (Pcompare m m Eq) with (Pos.compare m m);
      rewrite Pos.compare_refl; discriminate.
Qed.

Lemma float_nan_not_leb_r (a x : float) :
  Prim2SF x = S754_nan -> (a <=? x)%float = false.
Proof.
  intros Hx. rewrite leb_spec, Hx. unfold SFleb.
  destruct (Prim2SF a); reflexivity.
Qed.

Lemma float_nan_half_sum_l (x y : float) :
  Prim2SF x = S754_nan -> Prim2SF ((x + y) / 2) = S754_nan.
Proof.
  intros Hx. rewrite div_spec, add_spec, Hx. reflexivity.
Qed.

Lemma float_nan_half_sum_r (x y : float) :
  Prim2SF y = S754_nan -> Prim2SF ((x + y) / 2) = S754_nan.
Proof.
  intros Hy. rewrite div_spec, add_spec, Hy.
  destruct (Prim2SF x); reflexivity.
Qed.

Lemma nan_center_never_ignored (x0 y0 x1 y1 : float) (areas : list rect) :
  Prim2SF x0 = S754_nan \/ Prim2SF y0 = S754_nan
  \/ Prim2SF x1 = S754_nan \/ Prim2SF y1 = S754_nan ->
  _is_in_ignore_area (x0, y0, x1, y1) areas = false.
Proof.
  intros Hnan.
  induction areas as [|[[[ax0 ay0] ax1] ay1] areas IH]; [reflexivity|].
  cbn [_is_in_ignore_area]. cbn [_is_in_ignore_area] in IH. rewrite IH.
  assert (Hc : (ax0 <=? (x0 + x1) / 2)%float = false
               \/ (ay0 <=? (y0 + y1) / 2)%float = false).
  { destruct Hnan as [H|[H|[H|H]]].
    - left. apply float_nan_not_leb_r. now apply float_nan_half_sum_l.
    - right. apply float_nan_not_leb_r. now apply float_nan_half_sum_l.
    - left. apply float_nan_not_leb_r. now apply float_nan_half_sum_r.
    - right. apply float_nan_not_leb_r. now apply float_nan_half_sum_r. }
  destruct Hc as [-> | ->]; simpl.
  - reflexivity.
  - now rewrite !andb_false_r.
Qed.

(** C6 as stated fails.  The collector keeps an OCR block whose box holds a
    NaN coordinate and one whose box has three points, and [extract_text]
    hands both to the paragraph parser, which gives each a separator. *)
Lemma collector_keeps_malformed_boxes :
  collect malformed_page fullPage []
  = Ok [ocr_block nan_item sep_empty; ocr_block triangle_item sep_empty]
  /\ valid_geometry (ocr_block nan_item sep_empty) = false
  /\ valid_geometry (ocr_block triangle_item sep_empty) = false
  /\ extract_text ascii_category malformed_page fullPage []
     = Ok [ocr_block nan_item sep_newline; ocr_block triangle_item sep_newline].
Proof. repeat split; vm_compute; reflexivity. Qed.

(** C6, amended.  The collector checks no geometry.  The OCR filter keeps a
    block exactly when its box has points 0 and 2 and the midpoint of the two
    lies in no ignore rectangle: the number of points beyond three and the
    finiteness of the coordinates play no part, and a NaN coordinate in
    either point keeps the block whatever the rectangles.  A box with fewer
    than three points makes the filter raise [IndexError] rather than drop
    the block.  Native lines always carry four points. *)
Theorem collector_checks_no_geometry (areas : list rect) :
  (forall items, Forall (fun it => (3 <= length (item_box it))%nat) items ->
     _filter_ignore_areas (_ocr_image items) areas
     = Ok (List.filter (kept areas) (_ocr_image items)))
  /\ (forall b x0 y0 x1 y1, diagonal b = Ok (x0, y0, x1, y1) ->
        is_nan x0 = true \/ is_nan y0 = true
        \/ is_nan x1 = true \/ is_nan y1 = true ->
        kept areas b = true)
  /\ (forall items, Exists (fun it => (length (item_box it) < 3)%nat) items ->
        _filter_ignore_areas (_ocr_image items) areas = Raise IndexError)
  /\ (forall ls b, In b (native_blocks ls areas) -> length (box b) = 4%nat).
Proof.
  pose proof is_nan_spec as Hnan.
  repeat split.
  - intros items Hitems. apply filter_ignore_areas_total.
    rewrite List.Forall_forall in *. intros b Hb.
    unfold _ocr_image in Hb. apply in_map_iff in Hb.
    destruct Hb as (it & <- & Hit). simpl. auto.
  - intros b x0 y0 x1 y1 Hd Hn. unfold kept. rewrite Hd.
    rewrite nan_center_never_ignored; [reflexivity|].
    destruct Hn as [H|[H|[H|H]]]; apply Hnan in H; tauto.
  - intros items Hitems. apply filter_ignore_areas_Raise.
    apply List.Exists_exists in Hitems. destruct Hitems as (it & Hin & Hlen).
    apply List.Exists_exists. exists (ocr_block it sep_empty). split; [|exact Hlen].
    unfold _ocr_image. apply in_map_iff. now exists it.
  - intros ls b Hb. now apply native_blocks_In in Hb.
Qed.

(** ** Bounds, units and the sort *)

Lemma py_min_Ok (xs : list float) : xs <> [] -> exists m, py_min xs = Ok m.
Proof. destruct xs; [congruence | intros _; eexists; reflexivity]. Qed.

Lemma py_max_Ok (xs : list float) : xs <> [] -> exists m, py_max xs = Ok m.
Proof. destruct xs; [congruence | intros _; eexists; reflexivity]. Qed.

Lemma get_bbox_bounds_Ok (bbox : list point) :
  bbox <> [] -> exists l t r b, get_bbox_bounds bbox = Ok (l, t, r, b).
Proof.
  destruct bbox as [|p ps]; [congruence|intros _].
  unfold get_bbox_bounds; simpl. do 4 eexists; reflexivity.
Qed.

Lemma get_bbox_bounds_nil : get_bbox_bounds [] = Raise ValueError.
Proof. reflexivity. Qed.

Lemma get_bbox_bounds_Ok_inv (bbox : list point) (bs : float * float * float * float) :
  get_bbox_bounds bbox = Ok bs -> bbox <> [].
Proof. destruct bbox; [discriminate | congruence]. Qed.

Lemma top_key_Ok (a : unit_) : bbox a <> [] -> exists k, top_key a = Ok k.
Proof.
  intros H. destruct (get_bbox_bounds_Ok _ H) as (l & t & r & b & Hb).
  unfold top_key. rewrite Hb. now exists t.
Qed.

Lemma top_key_Ok_inv (a : unit_) (k : float) : top_key a = Ok k -> bbox a <> [].
Proof.
  unfold top_key. intros H. inv_bind H.
  now apply get_bbox_bounds_Ok_inv in Ha.
Qed.

Lemma last_item_Ok {A : Type} (s : list A) :
  s <> [] -> exists a, last_item s = Ok a /\ last s = Some a.
Proof.
  intros H. apply last_is_Some in H. destruct H as [a Ha].
  exists a. unfold last_item. now rewrite Ha.
Qed.

Lemma make_unit_Ok (h : heap) (l : loc) :
  text (h l) <> [] ->
  exists c0 c1, make_unit h l = Ok (mkUnit (box (h l)) (c0, c1) l).
Proof.
  intros H. unfold make_unit, get_info.
  destruct (last_item_Ok _ H) as (c1 & Hc1 & _).
  destruct (text (h l)) as [|c0 cs] eqn:Ht; [congruence|].
  simpl. rewrite Hc1. now exists c0, c1.
Qed.

Lemma make_unit_Ok_inv (h : heap) (l : loc) (u : unit_) :
  make_unit h l = Ok u ->
  tb u = l /\ bbox u = box (h l) /\ text (h l) <> []
  /\ first_item (text (h l)) = Ok (fst (letters u))
  /\ last_item (text (h l)) = Ok (snd (letters u)).
Proof.
  unfold make_unit, get_info. intros H.
  inv_bind H. inv_bind H. injection H as <-. simpl.
  repeat split; try assumption.
  destruct (text (h l)); [discriminate | congruence].
Qed.

Lemma make_unit_Raise (h : heap) (l : loc) :
  text (h l) = [] -> make_unit h l = Raise IndexError.
Proof. unfold make_unit, get_info. intros ->. reflexivity. Qed.

Lemma make_unit_Raise_inv (h : heap) (l : loc) (e : exn) :
  make_unit h l = Raise e -> e = IndexError /\ text (h l) = [].
Proof.
  intros H. destruct (text (h l)) as [|c cs] eqn:Ht.
  - rewrite make_unit_Raise in H by assumption. now injection H as <-.
  - destruct (make_unit_Ok h l) as (c0 & c1 & Hu); [congruence|].
    rewrite Hu in H. discriminate.
Qed.

Lemma get_units_Ok_inv (h : heap) (tbs : list loc) (units : list unit_) :
  _get_units h tbs = Ok units ->
  map tb units = tbs
  /\ Forall (fun u => bbox u = box (h (tb u)) /\ text (h (tb u)) <> []) units.
Proof.
  unfold _get_units. rewrite rmap_Ok_Forall2.
  induction 1 as [|l u tbs units Hu _ [IH1 IH2]]; simpl.
  - split; constructor.
  - apply make_unit_Ok_inv in Hu. destruct Hu as (Htb & Hbb & Hne & _).
    split; [now rewrite Htb, IH1|].
    constructor; [|assumption]. rewrite Htb. auto.
Qed.

Lemma get_units_total (h : heap) (tbs : list loc) :
  Forall (fun l => text (h l) <> []) tbs ->
  exists units, _get_units h tbs = Ok units.
Proof.
  intros H. apply rmap_total.
  eapply Forall_impl; [exact H|]. simpl.
  intros l Hl. destruct (make_unit_Ok h l Hl) as (c0 & c1 & Hu). eauto.
Qed.

Lemma get_units_Raise (h : heap) (tbs : list loc) :
  Exists (fun l => text (h l) = []) tbs ->
  _get_units h tbs = Raise IndexError.
Proof.
  intros H. apply rmap_Raise.
  - intros l e He. now apply make_unit_Raise_inv in He.
  - eapply List.Exists_impl; [|exact H]. simpl.
    intros l Hl. exists IndexError. now apply make_unit_Raise.
Qed.

Lemma insert_keyed_perm (k : float) (a : unit_) (l : list (float * unit_)) :
  Permutation (insert_keyed k a l) ((k, a) :: l).
Proof.
  induction l as [|[k' a'] l IH]; simpl; [reflexivity|].
  destruct (k' <? k)%float; [|reflexivity].
  rewrite IH. apply perm_swap.
Qed.

Lemma sort_keyed_perm (l : list (float * unit_)) : Permutation (sort_keyed l) l.
Proof.
  induction l as [|[k a] l IH]; simpl; [reflexivity|].
  rewrite insert_keyed_perm. now constructor.
Qed.

Lemma rmap_length {A B : Type} (f : A -> result B) (l : list A) (l' : list B) :
  rmap f l = Ok l' -> length l' = length l.
Proof.
  rewrite rmap_Ok_Forall2. intros H. symmetry. now apply Forall2_length in H.
Qed.

Lemma map_snd_combine {A B : Type} (l1 : list A) (l2 : list B) :
  length l1 = length l2 -> map snd (combine l1 l2) = l2.
Proof.
  revert l2; induction l1 as [|a l1 IH]; intros [|b l2]; simpl;
    try discriminate; try reflexivity.
  intros [= H]. now rewrite IH.
Qed.

Lemma sort_by_top_perm (units sorted : list unit_) :
  sort_by_top units = Ok sorted -> Permutation sorted units.
Proof.
  unfold sort_by_top. intros H. inv_bind H. injection H as <-.
  apply rmap_length in Ha.
  rewrite <- (map_snd_combine a units Ha) at 2.
  apply Permutation_map, sort_keyed_perm.
Qed.

Lemma sort_by_top_total (units : list unit_) :
  Forall (fun u => bbox u <> []) units ->
  exists sorted, sort_by_top units = Ok sorted.
Proof.
  intros H. unfold sort_by_top.
  destruct (rmap_total top_key units) as [keys Hk].
  - eapply Forall_impl; [exact H|]. intros u Hu. now apply top_key_Ok.
  - rewrite Hk. eexists; reflexivity.
Qed.

Lemma sort_by_top_Ok_inv (units sorted : list unit_) :
  sort_by_top units = Ok sorted -> Forall (fun u => bbox u <> []) units.
Proof.
  unfold sort_by_top. intros H. inv_bind H. clear H.
  apply rmap_Ok_Forall2 in Ha.
  induction Ha as [|u k units keys Hk _ IH]; constructor; [|assumption].
  now apply top_key_Ok_inv in Hk.
Qed.

(** The sort leaves the units in ascending order of top, whatever the keys. *)
Lemma insert_keyed_sorted (k : float) (a : unit_) (l : list (float * unit_)) :
  Sorted not_above l -> Sorted not_above (insert_keyed k a l).
Proof.
  induction l as [|[k' a'] l IH]; intros Hs; simpl.
  - repeat constructor.
  - destruct (k' <? k)%float eqn:Hlt.
    + apply Sorted_inv in Hs. destruct Hs as [Hs Hhd].
      constructor; [now apply IH|].
      destruct l as [|[k2 a2] l]; simpl.
      * constructor. unfold not_above; simpl. now apply float_ltb_asym.
      * destruct (k2 <? k)%float.
        -- constructor. now inversion Hhd.
        -- constructor. unfold not_above; simpl. now apply float_ltb_asym.
    + constructor; [assumption|]. constructor. exact Hlt.
Qed.

Lemma sort_keyed_sorted (l : list (float * unit_)) : Sorted not_above (sort_keyed l).
Proof.
  induction l as [|[k a] l IH]; simpl; [constructor|].
  now apply insert_keyed_sorted.
Qed.

(** A list that is in order already is left as it is: equal keys are never
    exchanged. *)
Lemma sort_keyed_id (l : list (float * unit_)) :
  Sorted not_above l -> sort_keyed l = l.
Proof.
  induction l as [|[k a] l IH]; intros Hs; simpl; [reflexivity|].
  apply Sorted_inv in Hs. destruct Hs as [Hs Hhd].
  rewrite (IH Hs).
  destruct l as [|[k' a'] l]; simpl; [reflexivity|].
  inversion Hhd as [|? ? Hr]; subst. unfold not_above in Hr; simpl in Hr.
  now rewrite Hr.
Qed.

Lemma Sorted_lookup {A : Type} (R : A -> A -> Prop) (l : list A) (i : nat) (x y : A) :
  Sorted R l -> l !! i = Some x -> l !! S i = Some y -> R x y.
Proof.
  intros Hs; revert i; induction Hs as [|a l Hs IH Hhd]; intros i Hx Hy.
  - discriminate.
  - destruct i as [|i]; simpl in *.
    + injection Hx as <-. destruct l as [|b l]; [discriminate|].
      simpl in Hy. injection Hy as <-. now inversion Hhd.
    + eapply IH; eassumption.
Qed.

Lemma combine_keys_Forall (keys : list float) (units : list unit_) :
  Forall2 (fun a k => top_key a = Ok k) units keys ->
  Forall (fun ka => top_key (snd ka) = Ok (fst ka)) (combine keys units).
Proof.
  induction 1; simpl; constructor; assumption.
Qed.

Lemma sort_by_top_ascending (units sorted : list unit_) :
  sort_by_top units = Ok sorted -> tops_ascending sorted.
Proof.
  unfold sort_by_top. intros H. inv_bind H. rename a into keys.
  injection H as <-.
  apply rmap_Ok_Forall2 in Ha. apply combine_keys_Forall in Ha.
  assert (Hall : Forall (fun ka => top_key (snd ka) = Ok (fst ka))
                        (sort_keyed (combine keys units))).
  { eapply Permutation_Forall; [symmetry; apply sort_keyed_perm | exact Ha]. }
  pose proof (sort_keyed_sorted (combine keys units)) as Hs.
  intros i a b ka kb Hia Hib Hka Hkb.
  rewrite list_lookup_fmap in Hia, Hib.
  destruct (sort_keyed (combine keys units) !! i) as [[k1 a1]|] eqn:H1;
    [|discriminate].
  destruct (sort_keyed (combine keys units) !! S i) as [[k2 a2]|] eqn:H2;
    [|discriminate].
  simpl in Hia, Hib. injection Hia as <-. injection Hib as <-.
  pose proof (Sorted_lookup _ _ _ _ _ Hs H1 H2) as Hr.
  rewrite Forall_lookup in Hall.
  pose proof (Hall _ _ H1) as E1. pose proof (Hall _ _ H2) as E2.
  simpl in E1, E2. unfold not_above in Hr. simpl in Hr. congruence.
Qed.

Lemma sort_by_top_id (units : list unit_) :
  Forall (fun u => bbox u <> []) units ->
  tops_ascending units -> sort_by_top units = Ok units.
Proof.
  intros Hall Hasc. unfold sort_by_top.
  destruct (rmap_total top_key units) as [keys Hk].
  { eapply Forall_impl; [exact Hall|]. intros u Hu. now apply top_key_Ok. }
  rewrite Hk. cbn [mbind result_bind]. f_equal.
  pose proof (rmap_length _ _ _ Hk) as Hlen.
  apply rmap_Ok_Forall2 in Hk.
  rewrite sort_keyed_id; [now apply map_snd_combine|].
  clear Hall Hlen. revert Hasc.
  induction Hk as [|u k units keys Hu Hk IH]; intros Hasc; simpl.
  - constructor.
  - constructor.
    + apply IH. intros i a b ka kb Ha Hb. apply (Hasc (S i) a b ka kb); assumption.
    + destruct Hk as [|u' k' units keys Hu' Hk]; simpl; constructor.
      unfold not_above; simpl.
      apply (Hasc 0%nat u u' k k'); reflexivity || assumption.
Qed.

Lemma sort_by_top_idempotent (units sorted : list unit_) :
  sort_by_top units = Ok sorted -> sort_by_top sorted = Ok sorted.
Proof.
  intros H. pose proof (sort_by_top_perm _ _ H) as Hperm.
  apply sort_by_top_id.
  - eapply Permutation_Forall; [symmetry; exact Hperm|].
    now apply sort_by_top_Ok_inv in H.
  - now apply sort_by_top_ascending in H.
Qed.

(** ** The clustering loop *)

Lemma same_paragraph_spec (st : scan_state) (l r ls : float) :
  same_paragraph st l r ls = true <-> same_paragraph_test st l r ls.
Proof.
  unfold same_paragraph, same_paragraph_test, fle, flt.
  rewrite !andb_true_iff.
  destruct (para_line_s st) as [s|].
  - split.
    + intros [[H1 H2] H3]. repeat split; try assumption. right. eauto.
    + intros (H1 & H2 & [H3|(s' & [= <-] & H3)]); [discriminate|]. auto.
  - split.
    + intros [[H1 H2] _]. repeat split; try assumption. now left.
    + intros (H1 & H2 & _). auto.
Qed.

(** What one iteration does, case by case. *)
Lemma step_cases (st : scan_state) (u : unit_) (l t r b : float) :
  get_bbox_bounds (bbox u) = Ok (l, t, r, b) ->
  exists st', step st u = Ok st' /\ para_bottom st' = b
    /\ (same_paragraph_test st l r (t - para_bottom st)
        /\ merged st u l r (b - t) (t - para_bottom st) st'
        \/ ~ same_paragraph_test st l r (t - para_bottom st)
           /\ seeded st u l r (b - t) st').
Proof.
  intros Hb. unfold step. rewrite Hb. cbn [mbind result_bind].
  destruct (same_paragraph st l r (t - para_bottom st)) eqn:Htest.
  - eexists; split; [reflexivity|]. split; [reflexivity|]. left.
    apply same_paragraph_spec in Htest. split; [assumption|].
    unfold merged; simpl. repeat split.
  - eexists; split; [reflexivity|]. split; [reflexivity|]. right.
    split.
    + rewrite <- same_paragraph_spec. congruence.
    + unfold seeded; simpl. repeat split.
Qed.

Lemma step_Ok_inv (st st' : scan_state) (u : unit_) :
  step st u = Ok st' -> bbox u <> [].
Proof.
  unfold step. intros H. inv_bind H. now apply get_bbox_bounds_Ok_inv in Ha.
Qed.

Lemma step_total (st : scan_state) (u : unit_) :
  bbox u <> [] -> exists st', step st u = Ok st'.
Proof.
  intros H. destruct (get_bbox_bounds_Ok _ H) as (l & t & r & b & Hb).
  destruct (step_cases st u l t r b Hb) as (st' & Hs & _). eauto.
Qed.

(** Either the unit joins the running paragraph or it opens the next one. *)
Lemma step_paras (st st' : scan_state) (u : unit_) :
  step st u = Ok st' ->
  (closed st' = closed st /\ now_para st' = now_para st ++ [u])
  \/ (closed st' = closed st ++ [now_para st] /\ now_para st' = [u]).
Proof.
  intros H. pose proof (step_Ok_inv _ _ _ H) as Hne.
  destruct (get_bbox_bounds_Ok _ Hne) as (l & t & r & b & Hb).
  destruct (step_cases st u l t r b Hb) as (st2 & Hs & _ & Hc).
  rewrite H in Hs. injection Hs as <-.
  destruct Hc as [(_ & Hm)|(_ & Hm)].
  - left. unfold merged in Hm. tauto.
  - right. unfold seeded in Hm. tauto.
Qed.

Lemma scan_app (st : scan_state) (us1 us2 : list unit_) :
  scan st (us1 ++ us2) = st1 ← scan st us1; scan st1 us2.
Proof.
  revert st; induction us1 as [|u us1 IH]; intros st; simpl; [reflexivity|].
  destruct (step st u) as [st'|e]; simpl; [apply IH | reflexivity].
Qed.

Lemma scan_total (st : scan_state) (us : list unit_) :
  Forall (fun u => bbox u <> []) us -> exists st', scan st us = Ok st'.
Proof.
  intros H; revert st; induction H as [|u us Hu _ IH]; intros st; simpl.
  - eauto.
  - destruct (step_total st u Hu) as [st1 Hs]. rewrite Hs; simpl. apply IH.
Qed.

(** The paragraphs after a scan extend the paragraphs before it: the closed
    ones stay, the running one grows by [x], and [more] are opened after
    it; together [x] and [more] are the scanned units, in order. *)
Lemma scan_extends (st st' : scan_state) (us : list unit_) :
  scan st us = Ok st' ->
  exists x more,
    paras st' = closed st ++ (now_para st ++ x) :: more
    /\ concat (x :: more) = us
    /\ Forall (fun p => p <> []) more.
Proof.
  revert st; induction us as [|u us IH]; intros st H; simpl in H.
  - injection H as <-. exists [], []. unfold paras.
    rewrite app_nil_r. repeat split. constructor.
  - inv_bind H. rename a into st1.
    destruct (IH _ H) as (x & more & Hp & Hc & Hne).
    destruct (step_paras _ _ _ Ha) as [[Hcl Hnow]|[Hcl Hnow]].
    + exists (u :: x), more. rewrite Hp, Hcl, Hnow.
      rewrite <- app_assoc. simpl. repeat split; try assumption.
      simpl in Hc. now rewrite Hc.
    + exists [], ((u :: x) :: more). rewrite Hp, Hcl, Hnow.
      rewrite <- app_assoc, app_nil_r. simpl. repeat split.
      * simpl in Hc. now rewrite Hc.
      * constructor; [discriminate | assumption].
Qed.

Lemma init_state_Ok (u0 : unit_) (l t r b : float) :
  get_bbox_bounds (bbox u0) = Ok (l, t, r, b) ->
  init_state u0 = Ok (mkState l r b (b - t) None [] [u0] [None]).
Proof. intros H. unfold init_state. now rewrite H. Qed.

Lemma init_state_paras (u0 : unit_) (st0 : scan_state) :
  init_state u0 = Ok st0 -> closed st0 = [] /\ now_para st0 = [u0].
Proof.
  unfold init_state. intros H. inv_bind H.
  destruct a as [[[l t] r] b]. injection H as <-. auto.
Qed.

Lemma init_state_total (u0 : unit_) :
  bbox u0 <> [] -> exists st0, init_state u0 = Ok st0.
Proof.
  intros H. destruct (get_bbox_bounds_Ok _ H) as (l & t & r & b & Hb).
  rewrite (init_state_Ok _ _ _ _ _ Hb). eauto.
Qed.

(** ** The separator pass and the store *)

Lemma same_but_end_refl (b : block) : same_but_end b b.
Proof. unfold same_but_end; auto. Qed.

Lemma same_but_end_trans (b1 b2 b3 : block) :
  same_but_end b1 b2 -> same_but_end b2 b3 -> same_but_end b1 b3.
Proof. unfold same_but_end; intuition congruence. Qed.

Lemma set_end_same (h : heap) (l : loc) (sep : str) :
  end_ (set_end h l sep l) = sep.
Proof. unfold set_end. now rewrite Nat.eqb_refl. Qed.

Lemma set_end_other (h : heap) (l l' : loc) (sep : str) :
  l' <> l -> set_end h l sep l' = h l'.
Proof.
  intros H. unfold set_end. apply Nat.eqb_neq in H. now rewrite H.
Qed.

Lemma set_end_frame (h : heap) (l l' : loc) (sep : str) :
  same_but_end (h l') (set_end h l sep l').
Proof.
  unfold set_end. destruct (Nat.eqb l' l) eqn:E.
  - apply Nat.eqb_eq in E. subst. unfold same_but_end; simpl; auto.
  - apply same_but_end_refl.
Qed.

Section SeparatorPass.

Variable category : char -> string.

Lemma set_inner_ends_cons (h : heap) (a b : unit_) (para : list unit_) :
  set_inner_ends category h (a :: b :: para)
  = set_inner_ends category
      (set_end h (tb a) (_word_separator category (snd (letters a)) (fst (letters b))))
      (b :: para).
Proof. reflexivity. Qed.

Lemma set_inner_ends_frame (h : heap) (para : list unit_) (l : loc) :
  same_but_end (h l) (set_inner_ends category h para l).
Proof.
  revert h; induction para as [|a [|b para] IH]; intros h;
    try apply same_but_end_refl.
  rewrite set_inner_ends_cons.
  eapply same_but_end_trans; [apply set_end_frame | apply IH].
Qed.

Lemma set_inner_ends_other (h : heap) (para : list unit_) (l : loc) :
  ~ In l (map tb para) -> set_inner_ends category h para l = h l.
Proof.
  revert h; induction para as [|a [|b para] IH]; intros h Hl; try reflexivity.
  rewrite set_inner_ends_cons, IH.
  - apply set_end_other. intros ->. apply Hl. now left.
  - intros Hin. apply Hl. now right.
Qed.

Lemma set_para_ends_total (h : heap) (para : list unit_) :
  para <> [] -> exists h', set_para_ends category h para = Ok h'.
Proof.
  intros H. unfold set_para_ends.
  destruct (last_item_Ok _ H) as (a & Ha & _). rewrite Ha. eexists; reflexivity.
Qed.

Lemma set_para_ends_Ok_inv (h h' : heap) (para : list unit_) :
  set_para_ends category h para = Ok h' ->
  exists a, last para = Some a
    /\ h' = set_end (set_inner_ends category h para) (tb a) sep_newline.
Proof.
  unfold set_para_ends, last_item. intros H.
  destruct (last para) as [a|]; [|discriminate].
  injection H as <-. eauto.
Qed.

Lemma set_para_ends_frame (h h' : heap) (para : list unit_) (l : loc) :
  set_para_ends category h para = Ok h' -> same_but_end (h l) (h' l).
Proof.
  intros H. apply set_para_ends_Ok_inv in H. destruct H as (a & _ & ->).
  eapply same_but_end_trans; [apply set_inner_ends_frame | apply set_end_frame].
Qed.

Lemma set_para_ends_other (h h' : heap) (para : list unit_) (l : loc) :
  set_para_ends category h para = Ok h' ->
  ~ In l (map tb para) -> h' l = h l.
Proof.
  intros H Hl. apply set_para_ends_Ok_inv in H. destruct H as (a & Ha & ->).
  rewrite set_end_other.
  - now apply set_inner_ends_other.
  - intros ->. apply Hl. apply in_map.
    apply last_Some in Ha. destruct Ha as [pre ->].
    apply in_or_app. right. now left.
Qed.

Lemma set_para_ends_last (h h' : heap) (para : list unit_) (a : unit_) :
  set_para_ends category h para = Ok h' -> last para = Some a ->
  end_ (h' (tb a)) = sep_newline.
Proof.
  intros H Ha. apply set_para_ends_Ok_inv in H. destruct H as (a' & Ha' & ->).
  rewrite Ha in Ha'. injection Ha' as <-. apply set_end_same.
Qed.

Lemma set_all_ends_total (h : heap) (ps : list (list unit_)) :
  Forall (fun p => p <> []) ps -> exists h', set_all_ends category h ps = Ok h'.
Proof.
  intros H; revert h; induction H as [|p ps Hp _ IH]; intros h; simpl.
  - eauto.
  - destruct (set_para_ends_total h p Hp) as [h1 H1]. rewrite H1; simpl.
    apply IH.
Qed.

Lemma set_all_ends_frame (h h' : heap) (ps : list (list unit_)) (l : loc) :
  set_all_ends category h ps = Ok h' -> same_but_end (h l) (h' l).
Proof.
  revert h; induction ps as [|p ps IH]; intros h H; simpl in H.
  - injection H as <-. apply same_but_end_refl.
  - inv_bind H. eapply same_but_end_trans.
    + eapply set_para_ends_frame; eassumption.
    + now apply IH.
Qed.

Lemma set_all_ends_other (h h' : heap) (ps : list (list unit_)) (l : loc) :
  set_all_ends category h ps = Ok h' -> ~ In l (para_locs ps) -> h' l = h l.
Proof.
  unfold para_locs.
  revert h; induction ps as [|p ps IH]; intros h H Hl; simpl in H.
  - now injection H as <-.
  - inv_bind H. simpl in Hl. rewrite map_app, in_app_iff in Hl.
    rewrite (IH _ H) by tauto.
    eapply set_para_ends_other; [eassumption | tauto].
Qed.

(** With distinct locations, the newline written on the last unit of a
    paragraph is still there at the end of the pass. *)
Lemma set_all_ends_last (h h' : heap) (ps : list (list unit_))
    (para : list unit_) (a : unit_) :
  set_all_ends category h ps = Ok h' ->
  NoDup (para_locs ps) ->
  In para ps -> last para = Some a ->
  end_ (h' (tb a)) = sep_newline.
Proof.
  unfold para_locs.
  revert h; induction ps as [|p ps IH]; intros h H Hnd Hin Ha; [contradiction|].
  simpl in H. inv_bind H. rename a0 into h1.
  simpl in Hnd. rewrite map_app in Hnd.
  apply NoDup_app in Hnd. destruct Hnd as (_ & Hdisj & Hnd).
  destruct Hin as [->|Hin].
  - assert (Hl : In (tb a) (map tb para)).
    { apply in_map. apply last_Some in Ha. destruct Ha as [pre ->].
      apply in_or_app. right. now left. }
    rewrite (set_all_ends_other h1 h' ps (tb a) H).
    + eapply set_para_ends_last; eassumption.
    + unfold para_locs. intros Hin2.
      apply (Hdisj (tb a)); now apply list_elem_of_In.
  - now apply (IH h1).
Qed.

End SeparatorPass.

(** ** [_parse] and [run] *)

Section Parse.

Variable category : char -> string.

Lemma parse_nil (h : heap) : _parse category h [] = Ok ([], h).
Proof. reflexivity. Qed.

Lemma parse_Ok_inv (h h' : heap) (units : list unit_) (ps : list (list unit_)) :
  units <> [] ->
  _parse category h units = Ok (ps, h') ->
  exists u0 rest st0 st,
    sort_by_top units = Ok (u0 :: rest)
    /\ init_state u0 = Ok st0
    /\ scan st0 rest = Ok st
    /\ ps = paras st
    /\ set_all_ends category h ps = Ok h'.
Proof.
  intros Hne H. destruct units as [|u units]; [congruence|].
  unfold _parse in H.
  inv_bind H. rename a into sorted.
  inv_bind H. rename a into u0.
  inv_bind H. rename a into st0.
  inv_bind H. rename a into st.
  inv_bind H. injection H as <- <-.
  destruct sorted as [|u0' rest]; [discriminate|].
  injection Ha0 as ->. simpl in Ha2.
  exists u0, rest, st0, st. auto.
Qed.

Lemma parse_sorted (h h' : heap) (units : list unit_) (ps : list (list unit_)) :
  _parse category h units = Ok (ps, h') ->
  exists sorted,
    sort_by_top units = Ok sorted
    /\ concat ps = sorted
    /\ Forall (fun p => p <> []) ps
    /\ set_all_ends category h ps = Ok h'.
Proof.
  intros H. destruct units as [|u units].
  - injection H as <- <-. exists []. repeat split. constructor.
  - apply parse_Ok_inv in H; [|discriminate].
    destruct H as (u0 & rest & st0 & st & Hs & Hi & Hsc & -> & He).
    exists (u0 :: rest). split; [assumption|].
    destruct (scan_extends _ _ _ Hsc) as (x & more & Hp & Hc & Hne).
    destruct (init_state_paras _ _ Hi) as [Hcl Hnow].
    rewrite Hcl, Hnow in Hp. simpl in Hp.
    rewrite Hp. repeat split; try assumption.
    + simpl. simpl in Hc. now rewrite Hc.
    + constructor; [discriminate | assumption].
    + now rewrite <- Hp.
Qed.

Lemma parse_total (h : heap) (units : list unit_) :
  Forall (fun u => bbox u <> []) units ->
  exists ps h', _parse category h units = Ok (ps, h').
Proof.
  intros Hall. destruct units as [|u units]; [do 2 eexists; reflexivity|].
  destruct (sort_by_top_total _ Hall) as [sorted Hs].
  pose proof (sort_by_top_perm _ _ Hs) as Hperm.
  assert (Hall' : Forall (fun u => bbox u <> []) sorted).
  { eapply Permutation_Forall; [symmetry; exact Hperm | exact Hall]. }
  destruct sorted as [|u0 rest].
  { apply Permutation_length in Hperm. discriminate. }
  inversion Hall' as [|? ? Hu0 Hrest]; subst.
  destruct (init_state_total _ Hu0) as [st0 Hi].
  destruct (scan_total st0 _ Hrest) as [st Hsc].
  destruct (scan_extends _ _ _ Hsc) as (x & more & Hp & _ & Hne).
  destruct (init_state_paras _ _ Hi) as [Hcl Hnow].
  rewrite Hcl, Hnow in Hp. simpl in Hp.
  destruct (set_all_ends_total category h (paras st)) as [h' He].
  { rewrite Hp. constructor; [discriminate | assumption]. }
  exists (paras st), h'. unfold _parse.
  rewrite Hs; cbn [mbind result_bind first_item].
  rewrite Hi; cbn [mbind result_bind tail].
  rewrite Hsc; cbn [mbind result_bind].
  rewrite He. reflexivity.
Qed.

Lemma parse_Raise (h : heap) (units : list unit_) (e : exn) :
  _parse category h units = Raise e -> sort_by_top units = Raise e.
Proof.
  intros H. destruct (sort_by_top units) as [sorted|e'] eqn:Hs.
  - apply sort_by_top_Ok_inv in Hs.
    destruct (parse_total h units Hs) as (ps & h' & Hp). congruence.
  - destruct units; [discriminate|].
    unfold _parse in H. rewrite Hs in H. cbn [mbind result_bind] in H.
    congruence.
Qed.

Lemma run_Ok_inv (h h' : heap) (tbs out : list loc) :
  run category h tbs = Ok (out, h') ->
  out = tbs
  /\ exists units ps, _get_units h tbs = Ok units
                      /\ _parse category h units = Ok (ps, h').
Proof.
  unfold run. intros H. inv_bind H. rename a into units.
  inv_bind H. destruct a as [ps h1]. injection H as <- <-.
  split; [reflexivity|]. eauto.
Qed.

Lemma run_total_aux (h : heap) (tbs : list loc) :
  Forall (fun l => text (h l) <> [] /\ box (h l) <> []) tbs ->
  exists h', run category h tbs = Ok (tbs, h').
Proof.
  intros Hall.
  destruct (get_units_total h tbs) as [units Hu].
  { eapply Forall_impl; [exact Hall|]. simpl. tauto. }
  destruct (get_units_Ok_inv _ _ _ Hu) as [Hmap Hunits].
  destruct (parse_total h units) as (ps & h' & Hp).
  { rewrite List.Forall_forall in *. intros u Hin.
    destruct (Hunits u Hin) as [-> _].
    apply Hall. rewrite <- Hmap. now apply in_map. }
  exists h'. unfold run. rewrite Hu; cbn [mbind result_bind].
  rewrite Hp. reflexivity.
Qed.

End Parse.

(** ** The claims on reconstruction *)

(** C4.  With the text blocks distinct dicts, the paragraphs [_parse] forms
    are a partition of the units: their concatenation is the sorted list, a
    permutation of the units and so of the text blocks, no paragraph is
    empty, no location occurs twice, and the order inside and across the
    paragraphs is the order of the sort, in which no unit is followed by one
    with a smaller top.  At the end of the separator pass
    the last unit of every paragraph holds the newline separator, whatever
    its letters. *)
Theorem paragraphs_partition (category : char -> string) (h h' : heap)
    (text_blocks : list loc) (units : list unit_) (ps : list (list unit_)) :
  NoDup text_blocks ->
  _get_units h text_blocks = Ok units ->
  _parse category h units = Ok (ps, h') ->
  exists sorted,
    sort_by_top units = Ok sorted
    /\ Permutation sorted units
    /\ tops_ascending sorted
    /\ concat ps = sorted
    /\ Forall (fun p => p <> []) ps
    /\ Permutation (para_locs ps) text_blocks
    /\ NoDup (para_locs ps)
    /\ forall para a, In para ps -> last para = Some a ->
                      end_ (h' (tb a)) = sep_newline.
Proof.
  intros Hnd Hu Hp.
  destruct (parse_sorted _ _ _ _ _ Hp) as (sorted & Hs & Hc & Hne & He).
  pose proof (sort_by_top_perm _ _ Hs) as Hperm.
  destruct (get_units_Ok_inv _ _ _ Hu) as [Hmap _].
  assert (Hlocs : Permutation (para_locs ps) text_blocks).
  { unfold para_locs. rewrite Hc, <- Hmap. now apply Permutation_map. }
  assert (Hnd' : NoDup (para_locs ps)).
  { eapply NoDup_Permutation_proper; [exact Hlocs | exact Hnd]. }
  exists sorted. repeat split; try assumption.
  - now apply sort_by_top_ascending in Hs.
  - intros para a Hin Ha.
    eapply set_all_ends_last; eassumption.
Qed.

Lemma paragraphs_partition_witness :
  exists sorted,
    sort_by_top hw_units = Ok sorted
    /\ Permutation sorted hw_units
    /\ tops_ascending sorted
    /\ concat (final_paras ascii_category hw_heap hw_units) = sorted
    /\ Forall (fun p => p <> []) (final_paras ascii_category hw_heap hw_units)
    /\ Permutation (para_locs (final_paras ascii_category hw_heap hw_units))
                   [0; 1]%nat
    /\ NoDup (para_locs (final_paras ascii_category hw_heap hw_units))
    /\ forall para a,
         In para (final_paras ascii_category hw_heap hw_units) ->
         last para = Some a ->
         end_ (final_heap ascii_category hw_heap hw_units (tb a)) = sep_newline.
Proof.
  apply (paragraphs_partition ascii_category hw_heap
           (final_heap ascii_category hw_heap hw_units) [0; 1]%nat hw_units
           (final_paras ascii_category hw_heap hw_units)).
  - repeat constructor; rewrite ?list_elem_of_In; simpl; intuition lia.
  - vm_compute; reflexivity.
  - vm_compute; reflexivity.
Defined.

(** C9.  [run] returns the list it was given: the same locations in the same
    order, although the units are sorted inside.  In the store every block
    keeps its box, text, provenance and score, a block that is not in the
    list is untouched, and when [run] raises it does so while building the
    units or sorting them, before anything is written. *)
Theorem run_frame (category : char -> string) (h : heap)
    (text_blocks : list loc) :
  match run category h text_blocks with
  | Ok (out, h') =>
      out = text_blocks
      /\ (forall l, same_but_end (h l) (h' l))
      /\ (forall l, ~ In l text_blocks -> h' l = h l)
  | Raise e =>
      _get_units h text_blocks = Raise e
      \/ exists units, _get_units h text_blocks = Ok units
                       /\ sort_by_top units = Raise e
  end.
Proof.
  destruct (run category h text_blocks) as [[out h']|e] eqn:Hrun.
  - apply run_Ok_inv in Hrun. destruct Hrun as (-> & units & ps & Hu & Hp).
    split; [reflexivity|].
    destruct (parse_sorted _ _ _ _ _ Hp) as (sorted & Hs & Hc & _ & He).
    split.
    + intros l. eapply set_all_ends_frame; eassumption.
    + intros l Hl. eapply set_all_ends_other; [eassumption|].
      unfold para_locs. rewrite Hc.
      destruct (get_units_Ok_inv _ _ _ Hu) as [Hmap _].
      intros Hin. apply Hl. rewrite <- Hmap.
      eapply Permutation_in; [|exact Hin].
      apply Permutation_map. now apply sort_by_top_perm.
  - unfold run in Hrun.
    destruct (_get_units h text_blocks) as [units|e'] eqn:Hu.
    + right. exists units. split; [reflexivity|].
      cbn [mbind result_bind] in Hrun.
      destruct (_parse category h units) as [[ps h']|e'] eqn:Hp.
      * discriminate.
      * cbn [mbind result_bind] in Hrun. injection Hrun as ->.
        now apply parse_Raise in Hp.
    + left. cbn [mbind result_bind] in Hrun. congruence.
Qed.

(** C10.  [run] returns for every list in which each block has a non-empty
    text and a non-empty box; on the empty list it returns the empty list
    and the store as it was.  The condition on the text is needed: a block
    with an empty text makes [_get_units] raise [IndexError].  The native
    loop of [extract_text] only builds blocks with a non-empty text, while
    [_ocr_image] passes the recognised text on as it is. *)
Theorem run_total (category : char -> string) (h : heap)
    (text_blocks : list loc) :
  Forall (fun l => text (h l) <> [] /\ box (h l) <> []) text_blocks ->
  (exists h', run category h text_blocks = Ok (text_blocks, h'))
  /\ run category h [] = Ok ([], h)
  /\ (forall tbs, Exists (fun l => text (h l) = []) tbs ->
                  run category h tbs = Raise IndexError)
  /\ (forall ls areas b, In b (native_blocks ls areas) -> text b <> [])
  /\ (forall items, map text (_ocr_image items) = map item_text items).
Proof.
  intros Hall. split; [now apply run_total_aux|].
  split; [reflexivity|].
  split.
  - intros tbs Hex. unfold run. now rewrite (get_units_Raise h tbs Hex).
  - split.
    + intros ls areas b Hb. now apply native_blocks_In in Hb.
    + apply ocr_image_text.
Qed.

Lemma run_total_witness :
  (exists h', run ascii_category hw_heap [0; 1]%nat = Ok ([0; 1]%nat, h'))
  /\ run ascii_category hw_heap [] = Ok ([], hw_heap)
  /\ (forall tbs, Exists (fun l => text (hw_heap l) = []) tbs ->
                  run ascii_category hw_heap tbs = Raise IndexError)
  /\ (forall ls areas b, In b (native_blocks ls areas) -> text b <> [])
  /\ (forall items, map text (_ocr_image items) = map item_text items).
Proof.
  apply (run_total ascii_category hw_heap [0; 1]%nat).
  repeat constructor; simpl; discriminate.
Defined.

(** ** The same-paragraph rule along the scan *)

Lemma scan_split (st0 stf : scan_state) (rest : list unit_) (i : nat) (u : unit_) :
  scan st0 rest = Ok stf -> rest !! i = Some u ->
  exists st st',
    scan st0 (take i rest) = Ok st
    /\ step st u = Ok st'
    /\ scan st0 (take (S i) rest) = Ok st'
    /\ scan st' (drop (S i) rest) = Ok stf.
Proof.
  intros Hsc Hi.
  rewrite <- (take_drop_middle rest i u Hi) in Hsc.
  rewrite scan_app in Hsc. inv_bind Hsc. rename a into st.
  simpl in Hsc. inv_bind Hsc. rename a into st'.
  exists st, st'. repeat split; try assumption.
  rewrite (take_S_r rest i u Hi), scan_app, Ha. simpl. now rewrite Ha0.
Qed.

(** The paragraphs at the end of the scan, seen from iteration [i]. *)
Lemma scan_outcome (st0 stf : scan_state) (rest : list unit_) (i : nat) (u : unit_) :
  scan st0 rest = Ok stf -> rest !! i = Some u ->
  exists st st' l t r b,
    scan st0 (take i rest) = Ok st
    /\ get_bbox_bounds (bbox u) = Ok (l, t, r, b)
    /\ step st u = Ok st'
    /\ scan st0 (take (S i) rest) = Ok st'
    /\ para_bottom st' = b
    /\ (same_paragraph_test st l r (t - para_bottom st)
        /\ merged st u l r (b - t) (t - para_bottom st) st'
        /\ (exists x more,
              paras stf = closed st ++ (now_para st ++ u :: x) :: more)
        \/ ~ same_paragraph_test st l r (t - para_bottom st)
           /\ seeded st u l r (b - t) st'
           /\ (exists x more,
                 paras stf = closed st ++ now_para st :: (u :: x) :: more)).
Proof.
  intros Hsc Hi.
  destruct (scan_split _ _ _ _ _ Hsc Hi) as (st & st' & H1 & H2 & H3 & H4).
  pose proof (step_Ok_inv _ _ _ H2) as Hne.
  destruct (get_bbox_bounds_Ok _ Hne) as (l & t & r & b & Hb).
  destruct (step_cases st u l t r b Hb) as (st2 & Hs & Hbot & Hc).
  rewrite H2 in Hs. injection Hs as <-.
  destruct (scan_extends _ _ _ H4) as (x & more & Hp & _ & _).
  exists st, st', l, t, r, b. repeat split; try assumption.
  destruct Hc as [(Ht & Hm)|(Ht & Hm)]; [left | right];
    (split; [assumption|]); (split; [assumption|]); exists x, more.
  - destruct Hm as (_ & _ & _ & _ & Hcl & Hnow).
    rewrite Hp, Hcl, Hnow, <- app_assoc. reflexivity.
  - destruct Hm as (_ & _ & _ & _ & Hcl & Hnow).
    rewrite Hp, Hcl, Hnow, <- app_assoc. reflexivity.
Qed.

(** C1.  On a non-empty list of units, sorted by top as [u0 :: rest], the
    loop meets [rest[i]] with the running values [st] left by the units
    before it.  The unit is merged into the running paragraph exactly when
    the three conditions of the same-paragraph test hold on those values; a
    merge replaces left, right and line height by the two-point averages
    and the spacing by [ls] or its average with the old spacing; a failed
    test seeds a new paragraph from the unit, with no spacing; either way
    the running bottom becomes the unit's bottom.  The final paragraphs
    show the outcome: the unit follows the running paragraph's units in one
    paragraph, or starts the paragraph after it. *)
Theorem same_paragraph_rule (category : char -> string) (h h' : heap)
    (units : list unit_) (ps : list (list unit_)) :
  units <> [] ->
  _parse category h units = Ok (ps, h') ->
  exists u0 rest,
    sort_by_top units = Ok (u0 :: rest)
    /\ forall i u, rest !! i = Some u ->
       exists st st' l t r b,
         running u0 rest i = Ok st
         /\ get_bbox_bounds (bbox u) = Ok (l, t, r, b)
         /\ step st u = Ok st'
         /\ running u0 rest (S i) = Ok st'
         /\ para_bottom st' = b
         /\ (same_paragraph_test st l r (t - para_bottom st)
             /\ merged st u l r (b - t) (t - para_bottom st) st'
             /\ (exists x more,
                   ps = closed st ++ (now_para st ++ u :: x) :: more)
             \/ ~ same_paragraph_test st l r (t - para_bottom st)
                /\ seeded st u l r (b - t) st'
                /\ (exists x more,
                      ps = closed st ++ now_para st :: (u :: x) :: more)).
Proof.
  intros Hne Hp.
  destruct (parse_Ok_inv _ _ _ _ _ Hne Hp)
    as (u0 & rest & st0 & stf & Hs & Hi & Hsc & -> & _).
  exists u0, rest. split; [assumption|].
  intros i u Hu.
  destruct (scan_outcome _ _ _ _ _ Hsc Hu)
    as (st & st' & l & t & r & b & H1 & H2 & H3 & H4 & H5 & H6).
  exists st, st', l, t, r, b.
  unfold running. rewrite Hi. cbn [mbind result_bind].
  repeat split; assumption.
Qed.

Lemma same_paragraph_rule_witness :
  exists u0 rest,
    sort_by_top hwf_units = Ok (u0 :: rest)
    /\ forall i u, rest !! i = Some u ->
       exists st st' l t r b,
         running u0 rest i = Ok st
         /\ get_bbox_bounds (bbox u) = Ok (l, t, r, b)
         /\ step st u = Ok st'
         /\ running u0 rest (S i) = Ok st'
         /\ para_bottom st' = b
         /\ (same_paragraph_test st l r (t - para_bottom st)
             /\ merged st u l r (b - t) (t - para_bottom st) st'
             /\ (exists x more,
                   final_paras ascii_category hwf_heap hwf_units
                   = closed st ++ (now_para st ++ u :: x) :: more)
             \/ ~ same_paragraph_test st l r (t - para_bottom st)
                /\ seeded st u l r (b - t) st'
                /\ (exists x more,
                      final_paras ascii_category hwf_heap hwf_units
                      = closed st ++ now_para st :: (u :: x) :: more)).
Proof.
  apply (same_paragraph_rule ascii_category hwf_heap
           (final_heap ascii_category hwf_heap hwf_units) hwf_units
           (final_paras ascii_category hwf_heap hwf_units)).
  - discriminate.
  - vm_compute; reflexivity.
Defined.

(** C8.  Once the running paragraph has a spacing [s] (it has two lines at
    least), a line whose gap [ls] to the running bottom exceeds
    [s + 0.5 * para_line_h] is not merged, whatever its margins, identical
    ones included: in the final paragraphs it starts the paragraph after
    the running one. *)
Theorem vertical_gap_splits (category : char -> string) (h h' : heap)
    (units : list unit_) (ps : list (list unit_))
    (u0 u : unit_) (rest : list unit_) (i : nat)
    (st : scan_state) (s l t r b : float) :
  _parse category h units = Ok (ps, h') ->
  sort_by_top units = Ok (u0 :: rest) ->
  rest !! i = Some u ->
  running u0 rest i = Ok st ->
  get_bbox_bounds (bbox u) = Ok (l, t, r, b) ->
  para_line_s st = Some s ->
  flt (s + para_line_h st * 0.5) (t - para_bottom st) ->
  ~ same_paragraph_test st l r (t - para_bottom st)
  /\ exists x more, ps = closed st ++ now_para st :: (u :: x) :: more.
Proof.
  intros Hp Hs Hi Hrun Hb Hsp Hgap.
  assert (Hne : units <> []).
  { intros ->. discriminate. }
  destruct (parse_Ok_inv _ _ _ _ _ Hne Hp)
    as (u0' & rest' & st0 & stf & Hs' & Hinit & Hsc & -> & _).
  rewrite Hs in Hs'. injection Hs' as <- <-.
  destruct (scan_outcome _ _ _ _ _ Hsc Hi)
    as (st1 & st' & l' & t' & r' & b' & H1 & H2 & _ & _ & _ & H6).
  unfold running in Hrun. rewrite Hinit in Hrun. cbn [mbind result_bind] in Hrun.
  rewrite Hrun in H1. injection H1 as <-.
  rewrite Hb in H2. injection H2 as <- <- <- <-.
  assert (Hfail : ~ same_paragraph_test st l r (t - para_bottom st)).
  { intros (_ & _ & [Hnone|(s' & Hs' & Hlt)]); [congruence|].
    rewrite Hsp in Hs'. injection Hs' as <-.
    unfold flt in *. apply float_ltb_asym in Hgap. congruence. }
  split; [assumption|].
  destruct H6 as [(Ht & _)|(_ & _ & Hps)]; [contradiction | assumption].
Qed.

Lemma vertical_gap_splits_witness :
  ~ same_paragraph_test
      (running_state (unit_of hello 72 111 0%nat)
         [unit_of world 87 100 1%nat; unit_of far_item 70 114 2%nat] 1)
      0 100
      (100 - para_bottom
               (running_state (unit_of hello 72 111 0%nat)
                  [unit_of world 87 100 1%nat; unit_of far_item 70 114 2%nat] 1))
  /\ exists x more,
       final_paras ascii_category hwf_heap hwf_units
       = closed (running_state (unit_of hello 72 111 0%nat)
                   [unit_of world 87 100 1%nat; unit_of far_item 70 114 2%nat] 1)
         ++ now_para (running_state (unit_of hello 72 111 0%nat)
                        [unit_of world 87 100 1%nat; unit_of far_item 70 114 2%nat] 1)
            :: (unit_of far_item 70 114 2%nat :: x) :: more.
Proof.
  apply (vertical_gap_splits ascii_category hwf_heap
           (final_heap ascii_category hwf_heap hwf_units) hwf_units
           (final_paras ascii_category hwf_heap hwf_units)
           (unit_of hello 72 111 0%nat) (unit_of far_item 70 114 2%nat)
           [unit_of world 87 100 1%nat; unit_of far_item 70 114 2%nat] 1
           (running_state (unit_of hello 72 111 0%nat)
              [unit_of world 87 100 1%nat; unit_of far_item 70 114 2%nat] 1)
           2 0 100 100 120).
  - vm_compute; reflexivity.
  - vm_compute; reflexivity.
  - reflexivity.
  - vm_compute; reflexivity.
  - vm_compute; reflexivity.
  - vm_compute; reflexivity.
  - vm_compute; reflexivity.
Defined.

(** ** Degenerate boxes *)

Lemma app_singleton_neq {A : Type} (l : list A) (x : A) : l ++ [x] <> l.
Proof.
  intros H. apply (f_equal (@length A)) in H.
  rewrite length_app in H. simpl in H. lia.
Qed.

Lemma zero_tolerance_spec (st : scan_state) (l r ls : float) :
  para_line_h st = 0%float ->
  same_paragraph_test st l r ls <-> zero_tolerance_test st l r ls.
Proof.
  intros Hh. unfold same_paragraph_test, zero_tolerance_test. rewrite Hh.
  change (0 * 1.2)%float with 0%float.
  change (0 * 0.5)%float with 0%float.
  reflexivity.
Qed.

(** C7 as stated fails.  The first line has zero height, so the running line
    height is 0 when the second line is met; the second line has the same
    left and right, and it is merged: the two lines form one paragraph. *)
Lemma degenerate_line_merges :
  (st0 ← init_state (unit_of flat_item 65 65 0%nat); Ok (para_line_h st0))
  = Ok 0%float
  /\ (st0 ← init_state (unit_of flat_item 65 65 0%nat);
      st1 ← step st0 (unit_of below_item 66 66 1%nat);
      Ok (paras st1))
     = Ok [flat_units]
  /\ _get_units flat_heap [0; 1]%nat = Ok flat_units
  /\ final_paras ascii_category flat_heap flat_units = [flat_units].
Proof. repeat split; vm_compute; reflexivity. Qed.

(** C7, amended.  [_parse] returns on every list of units with non-empty
    boxes, degenerate or not.  When the running line height is 0 both
    margin tolerances are 0, and the next unit is merged when
    [|para_l - l| <= 0], [|para_r - r| <= 0] and the spacing test hold, and
    starts a new paragraph otherwise. *)
Theorem zero_line_height_rule (st : scan_state) (u : unit_) :
  bbox u <> [] ->
  para_line_h st = 0%float ->
  (forall category h units, Forall (fun a => bbox a <> []) units ->
     exists ps h', _parse category h units = Ok (ps, h'))
  /\ (para_line_h st * 1.2)%float = 0%float
  /\ exists l t r b st',
       get_bbox_bounds (bbox u) = Ok (l, t, r, b)
       /\ step st u = Ok st'
       /\ (zero_tolerance_test st l r (t - para_bottom st)
           /\ closed st' = closed st /\ now_para st' = now_para st ++ [u]
           \/ ~ zero_tolerance_test st l r (t - para_bottom st)
              /\ closed st' = closed st ++ [now_para st] /\ now_para st' = [u]).
Proof.
  intros Hne Hh.
  split; [intros; now apply parse_total|].
  split; [rewrite Hh; reflexivity|].
  destruct (get_bbox_bounds_Ok _ Hne) as (l & t & r & b & Hb).
  destruct (step_cases st u l t r b Hb) as (st' & Hs & _ & Hc).
  exists l, t, r, b, st'. split; [assumption|]. split; [assumption|].
  rewrite <- (zero_tolerance_spec st l r _ Hh).
  destruct Hc as [(Ht & Hm)|(Ht & Hm)]; [left | right].
  - unfold merged in Hm. tauto.
  - unfold seeded in Hm. tauto.
Qed.

Lemma zero_line_height_rule_witness :
  (forall category h units, Forall (fun a => bbox a <> []) units ->
     exists ps h', _parse category h units = Ok (ps, h'))
  /\ (para_line_h (running_state (unit_of flat_item 65 65 0%nat) [] 0) * 1.2)%float
     = 0%float
  /\ exists l t r b st',
       get_bbox_bounds (bbox (unit_of below_item 66 66 1%nat)) = Ok (l, t, r, b)
       /\ step (running_state (unit_of flat_item 65 65 0%nat) [] 0)
               (unit_of below_item 66 66 1%nat) = Ok st'
       /\ (zero_tolerance_test
             (running_state (unit_of flat_item 65 65 0%nat) [] 0) l r
             (t - para_bottom (running_state (unit_of flat_item 65 65 0%nat) [] 0))
           /\ closed st'
              = closed (running_state (unit_of flat_item 65 65 0%nat) [] 0)
           /\ now_para st'
              = now_para (running_state (unit_of flat_item 65 65 0%nat) [] 0)
                ++ [unit_of below_item 66 66 1%nat]
           \/ ~ zero_tolerance_test
                  (running_state (unit_of flat_item 65 65 0%nat) [] 0) l r
                  (t - para_bottom
                         (running_state (unit_of flat_item 65 65 0%nat) [] 0))
              /\ closed st'
                 = closed (running_state (unit_of flat_item 65 65 0%nat) [] 0)
                   ++ [now_para (running_state (unit_of flat_item 65 65 0%nat) [] 0)]
              /\ now_para st' = [unit_of below_item 66 66 1%nat]).
Proof.
  apply (zero_line_height_rule
           (running_state (unit_of flat_item 65 65 0%nat) [] 0)
           (unit_of below_item 66 66 1%nat)).
  - discriminate.
  - vm_compute; reflexivity.
Defined.

(** ** The end-to-end example *)

Lemma parse_hello_world (category : char -> string) (h : heap) :
  startswith_P (category 87) = false ->
  _parse category h hw_units
  = Ok ([hw_units], set_end (set_end h 0%nat sep_space) 1%nat sep_newline).
Proof.
  intros HW.
  assert (Hsep : _word_separator category 111 87 = sep_space).
  { unfold _word_separator. rewrite HW. reflexivity. }
  unfold _parse, hw_units.
  replace (sort_by_top [unit_of hello 72 111 0; unit_of world 87 100 1])
    with (Ok [unit_of hello 72 111 0; unit_of world 87 100 1])
    by (vm_compute; reflexivity).
  cbn [mbind result_bind first_item tail].
  replace (init_state (unit_of hello 72 111 0))
    with (Ok (mkState 0 100 20 20 None [] [unit_of hello 72 111 0] [None]))
    by (vm_compute; reflexivity).
  cbn [mbind result_bind].
  replace (scan (mkState 0 100 20 20 None [] [unit_of hello 72 111 0] [None])
                [unit_of world 87 100 1])
    with (Ok (mkState 0 100 42 20 (Some 2%float) []
                [unit_of hello 72 111 0; unit_of world 87 100 1] [None]))
    by (vm_compute; reflexivity).
  cbn [mbind result_bind paras closed now_para app set_all_ends].
  unfold set_para_ends.
  cbn [set_inner_ends last_item last mbind result_bind unit_of letters tb
       fst snd].
  rewrite Hsep. reflexivity.
Qed.

(** C3.  On the three observations Hello (0,0,100,20), World (0,22,100,42)
    and Footer (0,200,100,220) with the ignore rectangle (0,190,200,230),
    the filter drops Footer, whose center (50,210) lies in the rectangle,
    and the parser puts Hello and World into one paragraph, Hello with a
    space and World with a newline; the same holds when the observations
    are lines of the text layer.  The letter W is an uppercase letter: its
    category does not start with P. *)
Theorem end_to_end_example (category : char -> string) :
  startswith_P (category 87) = false ->
  _filter_ignore_areas (_ocr_image [hello; world; footer]) [footer_area]
  = Ok (_ocr_image [hello; world])
  /\ _get_units hw_heap [0; 1]%nat = Ok hw_units
  /\ final_paras category hw_heap hw_units = [hw_units]
  /\ end_ (final_heap category hw_heap hw_units 0%nat) = sep_space
  /\ end_ (final_heap category hw_heap hw_units 1%nat) = sep_newline
  /\ extract_text category example_page fullPage [footer_area]
     = Ok [ocr_block hello sep_space; ocr_block world sep_newline]
  /\ extract_text category native_example_page textOnly [footer_area]
     = Ok [native_block (0, 0, 100, 20)%float (lit "Hello") sep_space;
           native_block (0, 22, 100, 42)%float (lit "World") sep_newline].
Proof.
  intros HW.
  split; [vm_compute; reflexivity|].
  split; [vm_compute; reflexivity|].
  unfold final_paras, final_heap, extract_text.
  replace (collect example_page fullPage [footer_area])
    with (Ok (_ocr_image [hello; world])) by (vm_compute; reflexivity).
  replace (collect native_example_page textOnly [footer_area])
    with (Ok [native_block (0, 0, 100, 20)%float (lit "Hello") sep_empty;
              native_block (0, 22, 100, 42)%float (lit "World") sep_empty])
    by (vm_compute; reflexivity).
  cbn [mbind result_bind].
  change (locations (_ocr_image [hello; world])) with [0; 1]%nat.
  change (locations [native_block (0, 0, 100, 20)%float (lit "Hello") sep_empty;
                     native_block (0, 22, 100, 42)%float (lit "World") sep_empty])
    with [0; 1]%nat.
  unfold run.
  replace (_get_units (alloc (_ocr_image [hello; world])) [0; 1]%nat)
    with (Ok hw_units) by (vm_compute; reflexivity).
  replace (_get_units
             (alloc [native_block (0, 0, 100, 20)%float (lit "Hello") sep_empty;
                     native_block (0, 22, 100, 42)%float (lit "World") sep_empty])
             [0; 1]%nat)
    with (Ok hw_units) by (vm_compute; reflexivity).
  cbn [mbind result_bind].
  rewrite !(parse_hello_world category _ HW).
  repeat split; vm_compute; reflexivity.
Qed.

Lemma end_to_end_example_witness :
  _filter_ignore_areas (_ocr_image [hello; world; footer]) [footer_area]
  = Ok (_ocr_image [hello; world])
  /\ _get_units hw_heap [0; 1]%nat = Ok hw_units
  /\ final_paras ascii_category hw_heap hw_units = [hw_units]
  /\ end_ (final_heap ascii_category hw_heap hw_units 0%nat) = sep_space
  /\ end_ (final_heap ascii_category hw_heap hw_units 1%nat) = sep_newline
  /\ extract_text ascii_category example_page fullPage [footer_area]
     = Ok [ocr_block hello sep_space; ocr_block world sep_newline]
  /\ extract_text ascii_category native_example_page textOnly [footer_area]
     = Ok [native_block (0, 0, 100, 20)%float (lit "Hello") sep_space;
           native_block (0, 22, 100, 42)%float (lit "World") sep_newline].
Proof.
  apply (end_to_end_example ascii_category).
  vm_compute; reflexivity.
Defined.

(** ** Separators inside a paragraph, and shared blocks *)

Section InnerSeparators.

Variable category : char -> string.

Lemma set_inner_ends_at (h : heap) (pre post : list unit_) (a b : unit_) :
  NoDup (map tb (pre ++ a :: b :: post)) ->
  end_ (set_inner_ends category h (pre ++ a :: b :: post) (tb a))
  = _word_separator category (snd (letters a)) (fst (letters b)).
Proof.
  revert h; induction pre as [|p pre IH]; intros h Hnd.
  - simpl app. rewrite set_inner_ends_cons.
    rewrite set_inner_ends_other; [apply set_end_same|].
    simpl in Hnd. apply NoDup_cons in Hnd. destruct Hnd as [Hnotin _].
    intros Hin. apply Hnotin. now apply list_elem_of_In.
  - assert (Hshape : exists q rest, pre ++ a :: b :: post = q :: rest).
    { destruct pre; simpl; eauto. }
    destruct Hshape as (q & rest & Hshape).
    simpl app. rewrite Hshape, set_inner_ends_cons, <- Hshape.
    apply IH. simpl in Hnd. now apply NoDup_cons in Hnd.
Qed.

(** With distinct locations, a unit that is not the last of its paragraph
    ends up with the word separator of its last letter and the first letter
    of the unit after it. *)
Lemma set_all_ends_inner (h h' : heap) (ps : list (list unit_))
    (pre post : list unit_) (a b : unit_) :
  set_all_ends category h ps = Ok h' ->
  NoDup (para_locs ps) ->
  In (pre ++ a :: b :: post) ps ->
  end_ (h' (tb a)) = _word_separator category (snd (letters a)) (fst (letters b)).
Proof.
  unfold para_locs.
  revert h; induction ps as [|p ps IH]; intros h H Hnd Hin; [contradiction|].
  simpl in H. inv_bind H. rename a0 into h1.
  simpl in Hnd. rewrite map_app in Hnd.
  apply NoDup_app in Hnd. destruct Hnd as (Hp & Hdisj & Hnd).
  destruct Hin as [->|Hin]; [|now apply (IH h1)].
  assert (Hl : In (tb a) (map tb (pre ++ a :: b :: post))).
  { apply in_map, in_or_app. right. now left. }
  rewrite (set_all_ends_other category h1 h' ps (tb a) H).
  - apply set_para_ends_Ok_inv in Ha. destruct Ha as (z & Hz & ->).
    rewrite set_end_other; [now apply set_inner_ends_at|].
    intros Heq.
    assert (Hlast : last (pre ++ a :: b :: post) = last (b :: post)).
    { rewrite last_app. rewrite last_cons_cons.
      destruct (last_is_Some (b :: post)) as [_ Hsome].
      destruct Hsome as [w Hw]; [discriminate|]. now rewrite Hw. }
    rewrite Hlast in Hz. apply last_Some_elem_of in Hz.
    rewrite map_app in Hp. apply NoDup_app in Hp. destruct Hp as (_ & _ & Hp).
    simpl in Hp. apply NoDup_cons in Hp. destruct Hp as [Hnotin _].
    apply Hnotin. rewrite Heq. apply list_elem_of_In.
    apply (in_map tb (b :: post) z). now apply list_elem_of_In.
  - unfold para_locs. intros Hin2.
    apply (Hdisj (tb a)); now apply list_elem_of_In.
Qed.

End InnerSeparators.

(** The separators of the two lines of the example, read through the lemmas:
    a space inside the paragraph, a newline at its end. *)
Lemma hello_world_separators :
  end_ (final_heap ascii_category hw_heap hw_units 0%nat)
  = _word_separator ascii_category 111 87
  /\ end_ (final_heap ascii_category hw_heap hw_units 1%nat) = sep_newline.
Proof. split; vm_compute; reflexivity. Qed.

(** When the list names one dict twice, the dict can close one paragraph and
    stand inside the next: the newline it received is then overwritten.  The
    condition of distinct text blocks in [paragraphs_partition] is what
    [extract_text] provides, and it is needed. *)
Lemma aliased_block_loses_newline :
  exists units,
    _get_units aliased_heap aliased_blocks = Ok units
    /\ final_paras ascii_category aliased_heap units
       = [ [unit_of tall_item 88 88 0; unit_of short_item 65 65 1];
           [unit_of short_item 65 65 1; unit_of low_item 67 67 2] ]
    /\ end_ (final_heap ascii_category aliased_heap units 1%nat) = sep_space.
Proof.
  eexists. split; [vm_compute; reflexivity|].
  split; vm_compute; reflexivity.
Qed.

(** * Further properties *)

(** ** The separator pass as writes *)

Lemma block_ext (b b' : block) :
  same_but_end b b' -> end_ b' = end_ b -> b' = b.
Proof.
  destruct b, b'. unfold same_but_end; simpl.
  intros (-> & -> & -> & ->) ->. reflexivity.
Qed.

Lemma apply_writes_app (h : heap) (ws1 ws2 : list (loc * str)) :
  apply_writes h (ws1 ++ ws2) = apply_writes (apply_writes h ws1) ws2.
Proof. unfold apply_writes. apply fold_left_app. Qed.

Lemma apply_writes_frame (h : heap) (ws : list (loc * str)) (l : loc) :
  same_but_end (h l) (apply_writes h ws l).
Proof.
  revert h; induction ws as [|w ws IH]; intros h; simpl.
  - apply same_but_end_refl.
  - eapply same_but_end_trans; [apply set_end_frame | apply IH].
Qed.

Section WritesFacts.

Variable category : char -> string.

Lemma set_inner_ends_writes (h : heap) (para : list unit_) :
  set_inner_ends category h para = apply_writes h (inner_writes category para).
Proof.
  revert h; induction para as [|a [|b para] IH]; intros h; try reflexivity.
  rewrite set_inner_ends_cons. rewrite IH. reflexivity.
Qed.

Lemma set_para_ends_writes (h h' : heap) (para : list unit_) :
  set_para_ends category h para = Ok h' ->
  h' = apply_writes h (para_writes category para).
Proof.
  intros H. apply set_para_ends_Ok_inv in H. destruct H as (a & Ha & ->).
  unfold para_writes. rewrite Ha, apply_writes_app, set_inner_ends_writes.
  reflexivity.
Qed.

Lemma set_all_ends_writes (h h' : heap) (ps : list (list unit_)) :
  set_all_ends category h ps = Ok h' ->
  h' = apply_writes h (all_writes category ps).
Proof.
  revert h; induction ps as [|p ps IH]; intros h H; simpl in H.
  - now injection H as <-.
  - inv_bind H. apply set_para_ends_writes in Ha. subst a.
    unfold all_writes. simpl. rewrite apply_writes_app. now apply IH.
Qed.

Lemma inner_writes_locs (para : list unit_) :
  map fst (inner_writes category para) = map tb (removelast para).
Proof.
  induction para as [|a [|b para] IH]; try reflexivity.
  change (inner_writes category (a :: b :: para))
    with ((tb a, _word_separator category (snd (letters a)) (fst (letters b)))
          :: inner_writes category (b :: para)).
  change (removelast (a :: b :: para)) with (a :: removelast (b :: para)).
  rewrite !map_cons, IH. reflexivity.
Qed.

(** Every unit of a paragraph is written once, in the order of the
    paragraph. *)
Lemma para_writes_locs (para : list unit_) :
  map fst (para_writes category para) = map tb para.
Proof.
  unfold para_writes. destruct (last para) as [a|] eqn:Ha.
  - rewrite map_app, inner_writes_locs. simpl.
    apply last_Some in Ha. destruct Ha as [pre ->].
    rewrite removelast_last, map_app. reflexivity.
  - apply last_None in Ha. now subst.
Qed.

Lemma all_writes_locs (ps : list (list unit_)) :
  map fst (all_writes category ps) = para_locs ps.
Proof.
  unfold all_writes, para_locs.
  induction ps as [|p ps IH]; simpl; [reflexivity|].
  now rewrite !map_app, para_writes_locs, IH.
Qed.

(** What a write carries: the newline, on the last unit of a paragraph, or
    the word separator of a unit and the unit after it. *)
Lemma inner_writes_In (para : list unit_) (l : loc) (s : str) :
  In (l, s) (inner_writes category para) ->
  exists pre a b post,
    para = pre ++ a :: b :: post /\ tb a = l
    /\ s = _word_separator category (snd (letters a)) (fst (letters b)).
Proof.
  induction para as [|a [|b para] IH]; try contradiction.
  change (inner_writes category (a :: b :: para))
    with ((tb a, _word_separator category (snd (letters a)) (fst (letters b)))
          :: inner_writes category (b :: para)).
  intros [[= <- <-]|Hin].
  - exists [], a, b, para. auto.
  - destruct (IH Hin) as (pre & a' & b' & post & Hp & Ha & Hs).
    exists (a :: pre), a', b', post. rewrite Hp. auto.
Qed.

Lemma all_writes_In (ps : list (list unit_)) (l : loc) (s : str) :
  In (l, s) (all_writes category ps) ->
  exists para, In para ps
    /\ ((exists a, last para = Some a /\ tb a = l /\ s = sep_newline)
        \/ exists pre a b post,
             para = pre ++ a :: b :: post /\ tb a = l
             /\ s = _word_separator category (snd (letters a)) (fst (letters b))).
Proof.
  unfold all_writes. rewrite in_concat.
  intros (ws & Hws & Hin). apply in_map_iff in Hws.
  destruct Hws as (para & <- & Hpara).
  exists para. split; [assumption|].
  unfold para_writes in Hin. destruct (last para) as [a|] eqn:Ha.
  - apply in_app_or in Hin. destruct Hin as [Hin|[[= <- <-]|[]]].
    + right. now apply inner_writes_In.
    + left. eauto.
  - right. now apply inner_writes_In.
Qed.

End WritesFacts.

Lemma apply_writes_last_write (h : heap) (ws : list (loc * str)) (l : loc) :
  match last_write ws l with
  | Some s => end_ (apply_writes h ws l) = s
  | None => apply_writes h ws l = h l
  end.
Proof.
  revert h; induction ws as [|[l' s'] ws IH]; intros h; simpl; [reflexivity|].
  specialize (IH (set_end h l' s')).
  change (fold_left (fun h' w => set_end h' (fst w) (snd w)) ws (set_end h l' s'))
    with (apply_writes (set_end h l' s') ws).
  destruct (last_write ws l) as [s|]; [exact IH|].
  rewrite IH. destruct (Nat.eqb l' l) eqn:E.
  - apply Nat.eqb_eq in E. subst. apply set_end_same.
  - apply Nat.eqb_neq in E. apply set_end_other. congruence.
Qed.

Lemma last_write_Some (ws : list (loc * str)) (l : loc) (s : str) :
  last_write ws l = Some s -> In (l, s) ws.
Proof.
  induction ws as [|[l' s'] ws IH]; simpl; [discriminate|].
  destruct (last_write ws l) as [s2|].
  - intros [= <-]. right. now apply IH.
  - destruct (Nat.eqb l' l) eqn:E; [|discriminate].
    apply Nat.eqb_eq in E. subst. intros [= <-]. now left.
Qed.

Lemma last_write_None (ws : list (loc * str)) (l : loc) :
  last_write ws l = None -> ~ In l (map fst ws).
Proof.
  induction ws as [|[l' s'] ws IH]; simpl; [tauto|].
  destruct (last_write ws l) as [s2|]; [discriminate|].
  destruct (Nat.eqb l' l) eqn:E; [discriminate|].
  apply Nat.eqb_neq in E. intros _ [H|H]; [contradiction | now apply IH].
Qed.

(** ** Units and the texts they come from *)

Lemma first_item_head {A : Type} (s : list A) (a : A) :
  first_item s = Ok a <-> head s = Some a.
Proof. destruct s; simpl; split; congruence. Qed.

Lemma last_item_last {A : Type} (s : list A) (a : A) :
  last_item s = Ok a <-> last s = Some a.
Proof. unfold last_item. destruct (last s); split; congruence. Qed.

Lemma get_units_letters (h : heap) (tbs : list loc) (units : list unit_) :
  _get_units h tbs = Ok units ->
  Forall (fun u => head (text (h (tb u))) = Some (fst (letters u))
                   /\ last (text (h (tb u))) = Some (snd (letters u))) units.
Proof.
  unfold _get_units. rewrite rmap_Ok_Forall2.
  induction 1 as [|l u tbs units Hu _ IH]; constructor; [|assumption].
  apply make_unit_Ok_inv in Hu. destruct Hu as (-> & _ & _ & H1 & H2).
  split; [now apply first_item_head | now apply last_item_last].
Qed.

Lemma get_units_same_texts (h1 h2 : heap) (tbs : list loc) :
  (forall l, box (h2 l) = box (h1 l) /\ text (h2 l) = text (h1 l)) ->
  _get_units h2 tbs = _get_units h1 tbs.
Proof.
  intros Hsame. unfold _get_units.
  induction tbs as [|l tbs IH]; simpl; [reflexivity|].
  rewrite IH. unfold make_unit, get_info.
  destruct (Hsame l) as [-> ->]. reflexivity.
Qed.

Section ParseWrites.

Variable category : char -> string.

(** The paragraphs do not depend on the store, and the final store is the
    initial one after the writes of the paragraphs. *)
Lemma parse_writes (h h' : heap) (units : list unit_) (ps : list (list unit_)) :
  _parse category h units = Ok (ps, h') ->
  forall h0, _parse category h0 units
             = Ok (ps, apply_writes h0 (all_writes category ps)).
Proof.
  intros Hp h0. destruct units as [|u units].
  - injection Hp as <- <-. reflexivity.
  - pose proof (parse_sorted _ _ _ _ _ Hp) as (sorted & _ & _ & Hne & _).
    apply parse_Ok_inv in Hp; [|discriminate].
    destruct Hp as (u0 & rest & st0 & st & Hs & Hi & Hsc & -> & _).
    destruct (set_all_ends_total category h0 (paras st) Hne) as [h0' He].
    pose proof (set_all_ends_writes _ _ _ _ He) as ->.
    unfold _parse.
    rewrite Hs; cbn [mbind result_bind first_item].
    rewrite Hi; cbn [mbind result_bind tail].
    rewrite Hsc; cbn [mbind result_bind].
    rewrite He. reflexivity.
Qed.

Lemma parse_units (h h' : heap) (tbs : list loc) (units : list unit_)
    (ps : list (list unit_)) :
  _get_units h tbs = Ok units ->
  _parse category h units = Ok (ps, h') ->
  Permutation (concat ps) units
  /\ Permutation (para_locs ps) tbs
  /\ h' = apply_writes h (all_writes category ps).
Proof.
  intros Hu Hp.
  destruct (parse_sorted _ _ _ _ _ Hp) as (sorted & Hs & Hc & _ & He).
  pose proof (sort_by_top_perm _ _ Hs) as Hperm.
  destruct (get_units_Ok_inv _ _ _ Hu) as [Hmap _].
  split; [now rewrite Hc|]. split.
  - unfold para_locs. rewrite Hc, <- Hmap. now apply Permutation_map.
  - now apply set_all_ends_writes.
Qed.

Lemma word_separator_values (c1 c2 : char) :
  _word_separator category c1 c2 = sep_empty
  \/ _word_separator category c1 c2 = sep_space.
Proof.
  unfold _word_separator.
  destruct (is_cjk c1 && is_cjk c2); [now left|].
  destruct (c1 =? hyphen); [now left|].
  destruct (startswith_P (category c2)); [now left | now right].
Qed.

Lemma word_separator_hyphen (c2 : char) :
  _word_separator category hyphen c2 = sep_empty.
Proof. reflexivity. Qed.

Lemma In_last_or_inner {A : Type} (para : list A) (a : A) :
  In a para ->
  last para = Some a \/ exists pre b post, para = pre ++ a :: b :: post.
Proof.
  intros H. apply in_split in H. destruct H as (l1 & l2 & ->).
  destruct l2 as [|b post].
  - left. apply last_snoc.
  - right. eauto.
Qed.

End ParseWrites.

(** ** What [run] leaves in the blocks *)

(** X1.  With the text blocks distinct dicts, a block that is followed by
    another one in its paragraph ends up with the word separator of the
    last character of its text and the first character of the text of the
    block after it. *)
Theorem inner_separators (category : char -> string) (h h' : heap)
    (text_blocks : list loc) (units : list unit_) (ps : list (list unit_))
    (pre post : list unit_) (a b : unit_) :
  NoDup text_blocks ->
  _get_units h text_blocks = Ok units ->
  _parse category h units = Ok (ps, h') ->
  In (pre ++ a :: b :: post) ps ->
  exists c1 c2,
    last (text (h (tb a))) = Some c1
    /\ head (text (h (tb b))) = Some c2
    /\ end_ (h' (tb a)) = _word_separator category c1 c2.
Proof.
  intros Hnd Hu Hp Hin.
  destruct (parse_units _ _ _ _ _ _ Hu Hp) as (Hperm & Hlocs & _).
  destruct (parse_sorted _ _ _ _ _ Hp) as (sorted & _ & _ & _ & He).
  pose proof (get_units_letters _ _ _ Hu) as Hlet.
  rewrite List.Forall_forall in Hlet.
  assert (Hmem : forall u, In u (pre ++ a :: b :: post) -> In u units).
  { intros u Hu'. eapply Permutation_in; [exact Hperm|].
    apply in_concat. eauto. }
  destruct (Hlet a) as [_ Ha]; [apply Hmem, in_or_app; right; now left|].
  destruct (Hlet b) as [Hb _];
    [apply Hmem, in_or_app; right; right; now left|].
  exists (snd (letters a)), (fst (letters b)).
  repeat split; try assumption.
  eapply set_all_ends_inner; [exact He| |exact Hin].
  eapply NoDup_Permutation_proper; [exact Hlocs | exact Hnd].
Qed.

Lemma inner_separators_witness :
  exists c1 c2,
    last (text (hw_heap (tb (unit_of hello 72 111 0)))) = Some c1
    /\ head (text (hw_heap (tb (unit_of world 87 100 1)))) = Some c2
    /\ end_ (final_heap ascii_category hw_heap hw_units
               (tb (unit_of hello 72 111 0)))
       = _word_separator ascii_category c1 c2.
Proof.
  apply (inner_separators ascii_category hw_heap
           (final_heap ascii_category hw_heap hw_units) [0; 1]%nat hw_units
           (final_paras ascii_category hw_heap hw_units)
           [] [] (unit_of hello 72 111 0) (unit_of world 87 100 1)).
  - repeat constructor; rewrite ?list_elem_of_In; simpl; intuition lia.
  - vm_compute; reflexivity.
  - vm_compute; reflexivity.
  - vm_compute. now left.
Defined.

(** X2.  With the text blocks distinct dicts, a block of a paragraph holds
    the newline separator exactly when it is the last block of the
    paragraph: the paragraphs can be read back from the separators. *)
Theorem newline_marks_paragraph_end (category : char -> string) (h h' : heap)
    (text_blocks : list loc) (units : list unit_) (ps : list (list unit_))
    (para : list unit_) (a : unit_) :
  NoDup text_blocks ->
  _get_units h text_blocks = Ok units ->
  _parse category h units = Ok (ps, h') ->
  In para ps -> In a para ->
  end_ (h' (tb a)) = sep_newline <-> last para = Some a.
Proof.
  intros Hnd Hu Hp Hpara Ha.
  destruct (parse_units _ _ _ _ _ _ Hu Hp) as (_ & Hlocs & _).
  destruct (parse_sorted _ _ _ _ _ Hp) as (sorted & _ & _ & _ & He).
  assert (Hnd' : NoDup (para_locs ps)).
  { eapply NoDup_Permutation_proper; [exact Hlocs | exact Hnd]. }
  split.
  - intros Hend.
    destruct (In_last_or_inner para a Ha) as [Hl|(pre & b & post & ->)];
      [assumption|].
    rewrite (set_all_ends_inner category h h' ps pre post a b He Hnd' Hpara)
      in Hend.
    destruct (word_separator_values category (snd (letters a)) (fst (letters b)))
      as [E|E]; rewrite E in Hend; discriminate.
  - intros Hl. eapply set_all_ends_last; eassumption.
Qed.

Lemma newline_marks_paragraph_end_witness :
  end_ (final_heap ascii_category hwf_heap hwf_units
          (tb (unit_of world 87 100 1))) = sep_newline
  <-> last [unit_of hello 72 111 0; unit_of world 87 100 1]
      = Some (unit_of world 87 100 1).
Proof.
  apply (newline_marks_paragraph_end ascii_category hwf_heap
           (final_heap ascii_category hwf_heap hwf_units) [0; 1; 2]%nat
           hwf_units (final_paras ascii_category hwf_heap hwf_units)).
  - repeat constructor; rewrite ?list_elem_of_In; simpl; intuition lia.
  - vm_compute; reflexivity.
  - vm_compute; reflexivity.
  - vm_compute. now left.
  - right. now left.
Defined.

(** X3.  Whatever the blocks of the list held before and whether or not they
    are distinct, [run] leaves one of the three separators in each of them:
    the empty string, a space or a newline. *)
Theorem run_writes_every_end (category : char -> string) (h h' : heap)
    (text_blocks : list loc) (l : loc) :
  run category h text_blocks = Ok (text_blocks, h') ->
  In l text_blocks ->
  is_separator (end_ (h' l)).
Proof.
  intros Hrun Hl. apply run_Ok_inv in Hrun.
  destruct Hrun as (_ & units & ps & Hu & Hp).
  destruct (parse_units _ _ _ _ _ _ Hu Hp) as (_ & Hlocs & ->).
  pose proof (apply_writes_last_write h (all_writes category ps) l) as Hw.
  destruct (last_write (all_writes category ps) l) as [s|] eqn:Hlw.
  - rewrite Hw. apply last_write_Some in Hlw.
    apply all_writes_In in Hlw.
    destruct Hlw as (para & _ & [(a & _ & _ & ->)|(pre & a & b & post & _ & _ & ->)]).
    + right. now right.
    + destruct (word_separator_values category (snd (letters a)) (fst (letters b)))
        as [E|E]; rewrite E; [now left | right; now left].
  - apply last_write_None in Hlw. rewrite all_writes_locs in Hlw.
    exfalso. apply Hlw. eapply Permutation_in; [symmetry; exact Hlocs | exact Hl].
Qed.

Lemma run_writes_every_end_witness :
  is_separator (end_ (final_heap ascii_category hw_heap hw_units 0%nat)).
Proof.
  apply (run_writes_every_end ascii_category hw_heap
           (final_heap ascii_category hw_heap hw_units) [0; 1]%nat 0%nat).
  - vm_compute; reflexivity.
  - now left.
Defined.

(** X4.  A block whose text ends with a hyphen is never given a space: after
    [run] it holds the empty string or, at the end of a paragraph, the
    newline. *)
Theorem hyphen_never_spaced (category : char -> string) (h h' : heap)
    (text_blocks : list loc) (l : loc) :
  run category h text_blocks = Ok (text_blocks, h') ->
  In l text_blocks ->
  last (text (h l)) = Some hyphen ->
  end_ (h' l) = sep_empty \/ end_ (h' l) = sep_newline.
Proof.
  intros Hrun Hl Hhy. apply run_Ok_inv in Hrun.
  destruct Hrun as (_ & units & ps & Hu & Hp).
  destruct (parse_units _ _ _ _ _ _ Hu Hp) as (Hperm & Hlocs & ->).
  pose proof (get_units_letters _ _ _ Hu) as Hlet.
  rewrite List.Forall_forall in Hlet.
  pose proof (apply_writes_last_write h (all_writes category ps) l) as Hw.
  destruct (last_write (all_writes category ps) l) as [s|] eqn:Hlw.
  - rewrite Hw. apply last_write_Some in Hlw.
    apply all_writes_In in Hlw.
    destruct Hlw as (para & Hpara
                     & [(a & _ & _ & ->)|(pre & a & b & post & -> & Htb & ->)]).
    + now right.
    + left.
      assert (Ha : In a units).
      { eapply Permutation_in; [exact Hperm|]. apply in_concat.
        exists (pre ++ a :: b :: post). split; [assumption|].
        apply in_or_app. right. now left. }
      destruct (Hlet a Ha) as [_ Hlast]. rewrite Htb, Hhy in Hlast.
      injection Hlast as <-. apply word_separator_hyphen.
  - apply last_write_None in Hlw. rewrite all_writes_locs in Hlw.
    exfalso. apply Hlw. eapply Permutation_in; [symmetry; exact Hlocs | exact Hl].
Qed.

Lemma hyphen_never_spaced_witness :
  end_ (final_heap ascii_category hyphen_heap
          [unit_of hyphen_item 99 45 0; unit_of world 87 100 1] 0%nat) = sep_empty
  \/ end_ (final_heap ascii_category hyphen_heap
             [unit_of hyphen_item 99 45 0; unit_of world 87 100 1] 0%nat)
     = sep_newline.
Proof.
  apply (hyphen_never_spaced ascii_category hyphen_heap
           (final_heap ascii_category hyphen_heap
              [unit_of hyphen_item 99 45 0; unit_of world 87 100 1])
           [0; 1]%nat 0%nat).
  - vm_compute; reflexivity.
  - now left.
  - vm_compute; reflexivity.
Defined.

(** X5.  [run] reads the boxes and the texts only, and writes every listed
    block: a second [run] on the store the first one left returns the same
    store. *)
Theorem run_idempotent (category : char -> string) (h h' : heap)
    (text_blocks : list loc) :
  run category h text_blocks = Ok (text_blocks, h') ->
  exists h'', run category h' text_blocks = Ok (text_blocks, h'')
              /\ forall l, h'' l = h' l.
Proof.
  intros Hrun. apply run_Ok_inv in Hrun.
  destruct Hrun as (_ & units & ps & Hu & Hp).
  destruct (parse_units _ _ _ _ _ _ Hu Hp) as (_ & _ & ->).
  set (ws := all_writes category ps).
  exists (apply_writes (apply_writes h ws) ws). split.
  - unfold run. rewrite (get_units_same_texts h (apply_writes h ws)).
    + rewrite Hu. cbn [mbind result_bind].
      rewrite (parse_writes category _ _ _ _ Hp (apply_writes h ws)).
      reflexivity.
    + intros l. destruct (apply_writes_frame h ws l) as (Hb & Ht & _). auto.
  - intros l. apply block_ext.
    + apply apply_writes_frame.
    + pose proof (apply_writes_last_write h ws l) as H1.
      pose proof (apply_writes_last_write (apply_writes h ws) ws l) as H2.
      destruct (last_write ws l) as [s|]; [congruence | now rewrite H2].
Qed.

Lemma run_idempotent_witness :
  exists h'',
    run ascii_category (final_heap ascii_category hw_heap hw_units) [0; 1]%nat
    = Ok ([0; 1]%nat, h'')
    /\ forall l, h'' l = final_heap ascii_category hw_heap hw_units l.
Proof.
  apply (run_idempotent ascii_category hw_heap
           (final_heap ascii_category hw_heap hw_units) [0; 1]%nat).
  vm_compute; reflexivity.
Defined.

(** ** The bounds of a box *)

Lemma no_nan_spec (x : float) : no_nan x -> Prim2SF x <> S754_nan.
Proof.
  unfold no_nan, is_nan. rewrite FloatAxioms.eqb_spec. unfold SFeqb.
  intros H Hn. rewrite Hn in H. discriminate.
Qed.

Lemma SFcompare_Some (x y : spec_float) :
  x <> S754_nan -> y <> S754_nan -> exists c, SFcompare x y = Some c.
Proof.
  destruct x as [sx|sx| |sx mx ex], y as [sy|sy| |sy my ey]; simpl;
    try congruence; eauto.
Qed.

Lemma SFcompare_refl (x : spec_float) :
  x <> S754_nan -> SFcompare x x = Some Eq.
Proof.
  destruct x as [s|s| |s m e]; simpl; try congruence.
  - destruct s; reflexivity.
  - intros _. rewrite Z.compare_refl.
    change (Pcompare m m Eq) with (Pos.compare m m).
    rewrite Pos.compare_refl. destruct s; reflexivity.
Qed.

Lemma float_leb_refl (a : float) : no_nan a -> (a <=? a)%float = true.
Proof.
  intros H. apply no_nan_spec in H.
  rewrite leb_spec. unfold SFleb. now rewrite SFcompare_refl.
Qed.

Lemma float_ltb_leb (a b : float) :
  (a <? b)%float = true -> (a <=? b)%float = true.
Proof.
  rewrite ltb_spec, leb_spec. unfold SFltb, SFleb.
  destruct (SFcompare (Prim2SF a) (Prim2SF b)) as [[]|]; congruence.
Qed.

(** Two numbers that are not NaN are comparable. *)
Lemma float_not_ltb_leb (a b : float) :
  no_nan a -> no_nan b -> (a <? b)%float = false -> (b <=? a)%float = true.
Proof.
  intros Ha Hb. apply no_nan_spec in Ha, Hb.
  rewrite ltb_spec, leb_spec. unfold SFltb, SFleb.
  rewrite (SFcompare_swap (Prim2SF a) (Prim2SF b)).
  destruct (SFcompare_Some _ _ Ha Hb) as [c ->].
  destruct c; simpl; congruence.
Qed.

Lemma fold_min_spec (xs : list float) (m : float) :
  no_nan m -> Forall no_nan xs ->
  let r := fold_left (fun m y => if (y <? m)%float then y else m) xs m in
  no_nan r /\ In r (m :: xs) /\ fle r m /\ Forall (fle r) xs.
Proof.
  intros Hm Hxs; revert m Hm; induction Hxs as [|y xs Hy _ IH]; intros m Hm.
  - simpl. repeat split; auto. now apply float_leb_refl.
  - cbn [fold_left].
    set (m' := if (y <? m)%float then y else m).
    assert (Hm' : no_nan m' /\ (m' = m \/ m' = y) /\ fle m' m /\ fle m' y).
    { unfold m'. destruct (y <? m)%float eqn:E.
      - repeat split; auto. + now apply float_ltb_leb. + now apply float_leb_refl.
      - repeat split; auto. + now apply float_leb_refl.
        + now apply float_not_ltb_leb. }
    destruct Hm' as (Hn & Hor & Hle1 & Hle2).
    destruct (IH m' Hn) as (Hr & Hin & Hrm & Hall).
    repeat split; try assumption.
    + destruct Hin as [<-|Hin]; [|right; now right].
      destruct Hor as [->| ->]; [now left | right; now left].
    + unfold fle in *. eapply float_leb_trans; eassumption.
    + constructor; [|assumption].
      unfold fle in *. eapply float_leb_trans; eassumption.
Qed.

Lemma fold_max_spec (xs : list float) (m : float) :
  no_nan m -> Forall no_nan xs ->
  let r := fold_left (fun m y => if (m <? y)%float then y else m) xs m in
  no_nan r /\ In r (m :: xs) /\ fle m r /\ Forall (fun y => fle y r) xs.
Proof.
  intros Hm Hxs; revert m Hm; induction Hxs as [|y xs Hy _ IH]; intros m Hm.
  - simpl. repeat split; auto. now apply float_leb_refl.
  - cbn [fold_left].
    set (m' := if (m <? y)%float then y else m).
    assert (Hm' : no_nan m' /\ (m' = m \/ m' = y) /\ fle m m' /\ fle y m').
    { unfold m'. destruct (m <? y)%float eqn:E.
      - repeat split; auto. + now apply float_ltb_leb. + now apply float_leb_refl.
      - repeat split; auto. + now apply float_leb_refl.
        + now apply float_not_ltb_leb. }
    destruct Hm' as (Hn & Hor & Hle1 & Hle2).
    destruct (IH m' Hn) as (Hr & Hin & Hrm & Hall).
    repeat split; try assumption.
    + destruct Hin as [<-|Hin]; [|right; now right].
      destruct Hor as [->| ->]; [now left | right; now left].
    + unfold fle in *. eapply float_leb_trans; eassumption.
    + constructor; [|assumption].
      unfold fle in *. eapply float_leb_trans; eassumption.
Qed.

Lemma py_min_spec (xs : list float) (m : float) :
  Forall no_nan xs -> py_min xs = Ok m ->
  In m xs /\ Forall (fle m) xs.
Proof.
  destruct xs as [|x xs]; [discriminate|].
  intros Hall [= <-]. inversion Hall as [|? ? Hx Hxs]; subst.
  destruct (fold_min_spec xs x Hx Hxs) as (_ & Hin & Hle & Hall').
  split; [assumption | now constructor].
Qed.

Lemma py_max_spec (xs : list float) (m : float) :
  Forall no_nan xs -> py_max xs = Ok m ->
  In m xs /\ Forall (fun y => fle y m) xs.
Proof.
  destruct xs as [|x xs]; [discriminate|].
  intros Hall [= <-]. inversion Hall as [|? ? Hx Hxs]; subst.
  destruct (fold_max_spec xs x Hx Hxs) as (_ & Hin & Hle & Hall').
  split; [assumption | now constructor].
Qed.

(** X6.  For a box without NaN coordinates, [get_bbox_bounds] returns the
    axis-aligned extent: left, top, right and bottom are coordinates of the
    box, every point lies between them, and left is at most right and top at
    most bottom. *)
Theorem bbox_bounds_enclose (bbox : list point) (l t r b : float) :
  no_nan_box bbox ->
  get_bbox_bounds bbox = Ok (l, t, r, b) ->
  Forall (fun p => fle l (fst p) /\ fle (fst p) r
                   /\ fle t (snd p) /\ fle (snd p) b) bbox
  /\ In l (map fst bbox) /\ In r (map fst bbox)
  /\ In t (map snd bbox) /\ In b (map snd bbox)
  /\ fle l r /\ fle t b.
Proof.
  intros Hnn Hb. unfold get_bbox_bounds in Hb.
  inv_bind Hb. inv_bind Hb. inv_bind Hb. inv_bind Hb.
  injection Hb as <- <- <- <-.
  assert (Hxs : Forall no_nan (map fst bbox)).
  { apply List.Forall_map. eapply Forall_impl; [exact Hnn|]. simpl. tauto. }
  assert (Hys : Forall no_nan (map snd bbox)).
  { apply List.Forall_map. eapply Forall_impl; [exact Hnn|]. simpl. tauto. }
  destruct (py_min_spec _ _ Hxs Ha) as [Hl Hlall].
  destruct (py_min_spec _ _ Hys Ha0) as [Ht Htall].
  destruct (py_max_spec _ _ Hxs Ha1) as [Hr Hrall].
  destruct (py_max_spec _ _ Hys Ha2) as [Hbt Hball].
  rewrite List.Forall_map in Hlall, Htall, Hrall, Hball.
  rewrite List.Forall_forall in Hlall, Htall, Hrall, Hball.
  repeat split; try assumption.
  - apply List.Forall_forall. intros p Hp. auto.
  - apply in_map_iff in Hr. destruct Hr as (p & <- & Hp). now apply Hlall.
  - apply in_map_iff in Hbt. destruct Hbt as (p & <- & Hp). now apply Htall.
Qed.

Lemma bbox_bounds_enclose_witness :
  Forall (fun p => fle 0 (fst p) /\ fle (fst p) 11
                   /\ fle 2 (snd p) /\ fle (snd p) 9) skew_box
  /\ In 0%float (map fst skew_box) /\ In 11%float (map fst skew_box)
  /\ In 2%float (map snd skew_box) /\ In 9%float (map snd skew_box)
  /\ fle 0 11 /\ fle 2 9.
Proof.
  apply (bbox_bounds_enclose skew_box 0 2 11 9).
  - repeat constructor.
  - vm_compute; reflexivity.
Defined.

(** ** Ignore areas in stages *)

Lemma is_in_ignore_area_perm (bbox : rect) (areas1 areas2 : list rect) :
  Permutation areas1 areas2 ->
  _is_in_ignore_area bbox areas1 = _is_in_ignore_area bbox areas2.
Proof.
  intros Hperm.
  pose proof (is_in_ignore_area_spec bbox areas1) as H1.
  pose proof (is_in_ignore_area_spec bbox areas2) as H2.
  assert (Hex : Exists (center_in bbox) areas1 <-> Exists (center_in bbox) areas2).
  { rewrite !List.Exists_exists. split; intros (a & Hin & Hc); exists a; split;
      try assumption; eapply Permutation_in; try eassumption. now symmetry. }
  destruct (_is_in_ignore_area bbox areas1), (_is_in_ignore_area bbox areas2);
    try reflexivity; intuition congruence.
Qed.

Lemma kept_app (areas1 areas2 : list rect) (b : block) :
  kept (areas1 ++ areas2) b = kept areas1 b && kept areas2 b.
Proof.
  unfold kept. destruct (diagonal b) as [bbox|e]; [|reflexivity].
  rewrite is_in_ignore_area_app. apply negb_orb.
Qed.

Lemma filter_filter_and {A : Type} (f g : A -> bool) (l : list A) :
  List.filter g (List.filter f l) = List.filter (fun a => f a && g a) l.
Proof.
  induction l as [|a l IH]; simpl; [reflexivity|].
  destruct (f a); simpl; [destruct (g a); now rewrite IH | exact IH].
Qed.

Lemma filter_ignore_areas_Raise_inv (blocks : list block) (areas : list rect)
    (e : exn) :
  _filter_ignore_areas blocks areas = Raise e -> e = IndexError.
Proof.
  induction blocks as [|b blocks IH]; simpl; [discriminate|].
  destruct (diagonal b) as [bbox|e1] eqn:Hd; simpl.
  - destruct (_filter_ignore_areas blocks areas); simpl; [discriminate|].
    intros [= <-]. now apply IH.
  - intros [= <-]. now apply diagonal_Raise in Hd.
Qed.

(** X7.  Ignore areas can be applied in stages and in any order: filtering
    by two lists of areas one after the other gives what filtering by their
    concatenation gives, the [IndexError] of a box that is too short
    included, and a permutation of the areas changes nothing. *)
Theorem ignore_areas_compose (blocks : list block) (areas1 areas2 : list rect) :
  _filter_ignore_areas blocks (areas1 ++ areas2)
  = (bs ← _filter_ignore_areas blocks areas1; _filter_ignore_areas bs areas2)
  /\ forall areas3, Permutation areas1 areas3 ->
       _filter_ignore_areas blocks areas3 = _filter_ignore_areas blocks areas1.
Proof.
  split.
  - destruct (_filter_ignore_areas blocks areas1) as [bs|e] eqn:H1.
    + apply filter_ignore_areas_Ok in H1. destruct H1 as [-> Hall].
      cbn [mbind result_bind].
      rewrite (filter_ignore_areas_total _ (areas1 ++ areas2) Hall).
      rewrite filter_ignore_areas_total.
      * rewrite filter_filter_and. f_equal.
        apply filter_ext. intros b. apply kept_app.
      * rewrite List.Forall_forall in *. intros b Hb.
        apply filter_In in Hb. now apply Hall.
    + cbn [mbind result_bind].
      destruct (_filter_ignore_areas blocks (areas1 ++ areas2)) as [bs|e'] eqn:H2.
      * apply filter_ignore_areas_Ok in H2. destruct H2 as [_ Hall].
        rewrite (filter_ignore_areas_total _ areas1 Hall) in H1. discriminate.
      * rewrite (filter_ignore_areas_Raise_inv _ _ _ H1),
          (filter_ignore_areas_Raise_inv _ _ _ H2). reflexivity.
  - intros areas3 Hperm.
    assert (Hk : forall b, kept areas3 b = kept areas1 b).
    { intros b. unfold kept. destruct (diagonal b); [|reflexivity].
      f_equal. symmetry. now apply is_in_ignore_area_perm. }
    destruct (_filter_ignore_areas blocks areas1) as [bs|e] eqn:H1.
    + apply filter_ignore_areas_Ok in H1. destruct H1 as [-> Hall].
      rewrite (filter_ignore_areas_total _ areas3 Hall). f_equal.
      apply filter_ext. exact Hk.
    + destruct (_filter_ignore_areas blocks areas3) as [bs|e'] eqn:H3.
      * apply filter_ignore_areas_Ok in H3. destruct H3 as [_ Hall].
        rewrite (filter_ignore_areas_total _ areas1 Hall) in H1. discriminate.
      * rewrite (filter_ignore_areas_Raise_inv _ _ _ H1),
          (filter_ignore_areas_Raise_inv _ _ _ H3). reflexivity.
Qed.

(** ** [extract_text] as a whole *)

Lemma map_nth_seq_app {A : Type} (d : A) (pre l : list A) :
  map (fun i => nth i (pre ++ l) d) (seq (length pre) (length l)) = l.
Proof.
  revert pre; induction l as [|a l IH]; intros pre; [reflexivity|].
  cbn [length seq map]. f_equal.
  - rewrite app_nth2 by lia. now rewrite Nat.sub_diag.
  - specialize (IH (pre ++ [a])). rewrite length_app in IH. simpl in IH.
    rewrite Nat.add_1_r, <- app_assoc in IH. exact IH.
Qed.

Lemma alloc_locations (blocks : list block) :
  map (alloc blocks) (locations blocks) = blocks.
Proof. apply (map_nth_seq_app no_block [] blocks). Qed.

Lemma alloc_Forall (P : block -> Prop) (blocks : list block) :
  Forall P blocks -> Forall (fun l => P (alloc blocks l)) (locations blocks).
Proof.
  intros H. rewrite <- (alloc_locations blocks) in H at 1.
  now rewrite List.Forall_map in H.
Qed.

Lemma Forall2_map_same {A B : Type} (R : B -> B -> Prop) (f g : A -> B)
    (l : list A) :
  (forall a, R (f a) (g a)) -> Forall2 R (map f l) (map g l).
Proof. intros H. induction l; simpl; constructor; auto. Qed.

Lemma extract_text_Ok_inv (category : char -> string) (pg : page) (m : mode) (areas : list rect)
    (out : list block) :
  extract_text category pg m areas = Ok out ->
  exists blocks units ps h',
    collect pg m areas = Ok blocks
    /\ _get_units (alloc blocks) (locations blocks) = Ok units
    /\ _parse category (alloc blocks) units = Ok (ps, h')
    /\ out = map h' (locations blocks).
Proof.
  unfold extract_text. intros H. inv_bind H. rename a into blocks.
  inv_bind H. destruct a as [tbs h']. injection H as <-.
  apply run_Ok_inv in Ha0. destruct Ha0 as (-> & units & ps & Hu & Hp).
  exists blocks, units, ps, h'. auto.
Qed.

(** X8.  [extract_text] returns the blocks it has collected, as many and in
    the order of collection (native lines first, then recognised lines);
    each returned block differs from the collected one in its separator at
    most. *)
Theorem extract_text_keeps_blocks (category : char -> string) (pg : page) (m : mode) (areas : list rect)
    (out : list block) :
  extract_text category pg m areas = Ok out ->
  exists blocks,
    collect pg m areas = Ok blocks
    /\ Forall2 same_but_end blocks out
    /\ length out = length blocks.
Proof.
  intros H. apply extract_text_Ok_inv in H.
  destruct H as (blocks & units & ps & h' & Hc & Hu & Hp & ->).
  exists blocks. split; [assumption|].
  destruct (parse_units _ _ _ _ _ _ Hu Hp) as (_ & _ & ->).
  split.
  - rewrite <- (alloc_locations blocks) at 1.
    apply Forall2_map_same. intros l. apply apply_writes_frame.
  - rewrite length_map. unfold locations. apply length_seq.
Qed.

Lemma extract_text_keeps_blocks_witness :
  exists blocks,
    collect example_page fullPage [footer_area] = Ok blocks
    /\ Forall2 same_but_end blocks
         [ocr_block hello sep_space; ocr_block world sep_newline]
    /\ length [ocr_block hello sep_space; ocr_block world sep_newline]
       = length blocks.
Proof.
  apply (extract_text_keeps_blocks ascii_category example_page fullPage
           [footer_area]).
  vm_compute; reflexivity.
Defined.

Lemma ocr_blocks_usable (items : list ocr_item) (areas : list rect) :
  Forall usable_item items ->
  exists bs, _filter_ignore_areas (_ocr_image items) areas = Ok bs
             /\ Forall (fun b => text b <> [] /\ box b <> []) bs.
Proof.
  intros Hall.
  assert (H3 : Forall (fun b => (3 <= length (box b))%nat) (_ocr_image items)).
  { unfold _ocr_image. apply List.Forall_map.
    eapply Forall_impl; [exact Hall|]. unfold usable_item; simpl. tauto. }
  rewrite (filter_ignore_areas_total _ areas H3). eexists. split; [reflexivity|].
  apply List.Forall_forall. intros b Hb. apply filter_In in Hb.
  destruct Hb as [Hb _]. unfold _ocr_image in Hb. apply in_map_iff in Hb.
  destruct Hb as (it & <- & Hit). rewrite List.Forall_forall in Hall.
  destruct (Hall it Hit) as [Ht Hlen]. simpl. split; [assumption|].
  destruct (item_box it); simpl in *; [lia | discriminate].
Qed.

Lemma native_blocks_usable (ls : list line) (areas : list rect) :
  Forall (fun b => text b <> [] /\ box b <> []) (native_blocks ls areas).
Proof.
  apply List.Forall_forall. intros b Hb. apply native_blocks_In in Hb.
  destruct Hb as (Hlen & Ht & _). split; [assumption|].
  destruct (box b); [discriminate | discriminate].
Qed.

Lemma image_blocks_usable (imgs : list (list ocr_item)) (areas : list rect) :
  Forall (Forall usable_item) imgs ->
  exists bs, image_blocks imgs areas = Ok bs
             /\ Forall (fun b => text b <> [] /\ box b <> []) bs.
Proof.
  induction 1 as [|img imgs Himg _ (rest & Hrest & Hall)]; simpl.
  - exists []. split; [reflexivity | constructor].
  - destruct (ocr_blocks_usable img areas Himg) as (bs & Hbs & Hbsall).
    rewrite Hbs; cbn [mbind result_bind]. rewrite Hrest; cbn [mbind result_bind].
    eexists. split; [reflexivity|]. now apply Forall_app.
Qed.

Lemma collect_usable (pg : page) (m : mode) (areas : list rect) :
  Forall usable_item (pixmap pg) ->
  Forall usable_image (images pg) ->
  exists blocks, collect pg m areas = Ok blocks
                 /\ Forall (fun b => text b <> [] /\ box b <> []) blocks.
Proof.
  intros Hpix Himgs.
  destruct (ocr_blocks_usable (pixmap pg) areas Hpix) as (pb & Hpb & Hpball).
  destruct (extract_images_Ok pg) as (imgs & Himgs_ok & Hsnd).
  { eapply Forall_impl; [exact Himgs|]. unfold usable_image. tauto. }
  destruct (image_blocks_usable (map snd imgs) areas) as (ib & Hib & Hiball).
  { rewrite Hsnd. apply List.Forall_map.
    eapply Forall_impl; [exact Himgs|]. unfold usable_image. tauto. }
  pose proof (native_blocks_usable (lines pg) areas) as Hnat.
  unfold collect. destruct m; rewrite ?Hpb, ?Himgs_ok; cbn [mbind result_bind];
    rewrite ?Hib; cbn [mbind result_bind];
    eexists; (split; [reflexivity|]);
    rewrite ?app_nil_r; try apply Forall_app; auto.
Qed.

(** X9.  [extract_text] returns, in every mode, on a page each of whose
    images has a rectangle and whose recognised lines, of the images and of
    the rendered page, all have a text and a box of three points at least;
    the lines of the text layer need no condition. *)
Theorem extract_text_returns (category : char -> string) (pg : page) (m : mode)
    (areas : list rect) :
  Forall usable_item (pixmap pg) ->
  Forall usable_image (images pg) ->
  exists out, extract_text category pg m areas = Ok out.
Proof.
  intros Hpix Himgs.
  destruct (collect_usable pg m areas Hpix Himgs) as (blocks & Hc & Hall).
  destruct (run_total_aux category (alloc blocks) (locations blocks))
    as [h' Hrun].
  { exact (alloc_Forall (fun b => text b <> [] /\ box b <> []) blocks Hall). }
  unfold extract_text. rewrite Hc; cbn [mbind result_bind].
  rewrite Hrun. eexists; reflexivity.
Qed.

Lemma extract_text_returns_witness :
  exists out, extract_text ascii_category pictured_page mixed [footer_area] = Ok out.
Proof.
  apply (extract_text_returns ascii_category pictured_page mixed [footer_area]).
  - repeat constructor; simpl; (discriminate || lia).
  - repeat constructor; simpl; (discriminate || lia).
Defined.

(** The page of the example above yields its line of text and the line of
    its image, in one paragraph. *)
Lemma pictured_page_blocks :
  extract_text ascii_category pictured_page mixed [footer_area]
  = Ok [ native_block (0, 0, 100, 20)%float (lit "Hello") sep_space;
         ocr_block world sep_newline ].
Proof. vm_compute; reflexivity. Qed.

(** X17.  An image without a rectangle makes [extract_text] raise
    [IndexError] in the two modes that read the images of the page, whatever
    the text layer, the other images and the ignore areas are; the two other
    modes answer as if the page had no image. *)
Theorem image_without_rect_raises (category : char -> string) (pg : page)
    (areas : list rect) :
  Exists (fun img => image_rects img = []) (images pg) ->
  extract_text category pg mixed areas = Raise IndexError
  /\ extract_text category pg imageOnly areas = Raise IndexError
  /\ extract_text category pg textOnly areas
     = extract_text category (mkPage (lines pg) [] (pixmap pg)) textOnly areas
  /\ extract_text category pg fullPage areas
     = extract_text category (mkPage (lines pg) [] (pixmap pg)) fullPage areas.
Proof.
  intros Hex. unfold extract_text, collect.
  rewrite (extract_images_Raise pg Hex). repeat split.
Qed.

Lemma image_without_rect_raises_witness :
  extract_text ascii_category unplaced_page mixed [] = Raise IndexError
  /\ extract_text ascii_category unplaced_page imageOnly [] = Raise IndexError
  /\ extract_text ascii_category unplaced_page textOnly []
     = extract_text ascii_category
         (mkPage (lines unplaced_page) [] (pixmap unplaced_page)) textOnly []
  /\ extract_text ascii_category unplaced_page fullPage []
     = extract_text ascii_category
         (mkPage (lines unplaced_page) [] (pixmap unplaced_page)) fullPage [].
Proof.
  apply (image_without_rect_raises ascii_category unplaced_page []).
  apply Exists_cons_hd. reflexivity.
Defined.

(** The page that lists an image without showing it still yields its line of
    text in the text mode. *)
Lemma unplaced_page_text :
  extract_text ascii_category unplaced_page textOnly []
  = Ok [ native_block (0, 0, 100, 20)%float (lit "Hello") sep_newline ].
Proof. vm_compute; reflexivity. Qed.

(** X10.  One recognised line with an empty text that the ignore areas do
    not drop makes [extract_text] raise [IndexError] for the page in the
    full-page mode: no block of the page is returned. *)
Theorem empty_ocr_text_raises (category : char -> string) (pg : page)
    (areas : list rect) (it : ocr_item) :
  Forall (fun i => (3 <= length (item_box i))%nat) (pixmap pg) ->
  In it (pixmap pg) ->
  item_text it = [] ->
  kept areas (ocr_block it sep_empty) = true ->
  extract_text category pg fullPage areas = Raise IndexError.
Proof.
  intros H3 Hin Htext Hkept.
  assert (H3' : Forall (fun b => (3 <= length (box b))%nat) (_ocr_image (pixmap pg))).
  { unfold _ocr_image. now apply List.Forall_map. }
  unfold extract_text, collect.
  rewrite (filter_ignore_areas_total _ areas H3'). cbn [mbind result_bind app].
  set (blocks := List.filter (kept areas) (_ocr_image (pixmap pg))).
  assert (Hb : In (ocr_block it sep_empty) blocks).
  { apply filter_In. split; [|assumption].
    unfold _ocr_image. apply in_map_iff. now exists it. }
  unfold run. rewrite get_units_Raise; [reflexivity|].
  apply List.Exists_exists.
  destruct (In_nth _ _ no_block Hb) as (n & Hn & Hnth).
  exists n. split.
  - unfold locations. apply in_seq. lia.
  - unfold alloc. rewrite Hnth. exact Htext.
Qed.

Lemma empty_ocr_text_raises_witness :
  extract_text ascii_category
    (mkPage [] [] [hello; mkItem [] (rect_box 0 22 100 42) 1]) fullPage []
  = Raise IndexError.
Proof.
  apply (empty_ocr_text_raises ascii_category
           (mkPage [] [] [hello; mkItem [] (rect_box 0 22 100 42) 1]) []
           (mkItem [] (rect_box 0 22 100 42) 1)).
  - repeat constructor; simpl; lia.
  - right. now left.
  - reflexivity.
  - reflexivity.
Defined.

(** ** The OCR wrapper *)

Lemma raw_point_Ok (box : list (list float)) (k : nat) (pt : point) :
  raw_point box k = Ok pt <->
  exists rest, box !! k = Some (fst pt :: snd pt :: rest).
Proof.
  unfold raw_point, item. destruct (box !! k) as [[|x [|y rest]]|]; simpl.
  - split; [discriminate | intros [rest' Hr]; discriminate].
  - split; [discriminate | intros [rest' Hr]; discriminate].
  - split.
    + intros [= <-]. now exists rest.
    + intros [rest' Hr]. injection Hr as -> -> _. now destruct pt.
  - split; [discriminate | intros [rest' Hr]; discriminate].
Qed.

Lemma raw_point_total (box : list (list float)) (k : nat) :
  (exists pt, raw_point box k = Ok pt) <->
  match box !! k with Some p => (2 <=? length p)%nat | None => false end = true.
Proof.
  unfold raw_point, item. destruct (box !! k) as [[|x [|y rest]]|]; simpl.
  - split; [intros [pt Hp]; discriminate | discriminate].
  - split; [intros [pt Hp]; discriminate | discriminate].
  - split; [reflexivity | intros _; eexists; reflexivity].
  - split; [intros [pt Hp]; discriminate | discriminate].
Qed.

Lemma recognize_line_Ok (ln : raw_line) (it : ocr_item) :
  recognize_line ln = Ok it -> well_formed_line ln = true /\ line_kept_as ln it.
Proof.
  unfold recognize_line. intros H.
  inv_bind H. inv_bind H. inv_bind H. inv_bind H. injection H as <-.
  split.
  - unfold well_formed_line. cbn [forallb].
    rewrite !andb_true_iff. repeat split;
      apply raw_point_total; eauto.
  - unfold line_kept_as; simpl. repeat split.
    intros k x y Hk.
    destruct k as [|[|[|[|k]]]]; simpl in Hk; try discriminate;
      injection Hk as Hk;
      match goal with
      | Hp : raw_point _ _ = Ok ?a |- _ =>
          match type of Hk with
          | a = _ => apply raw_point_Ok in Hp; rewrite Hk in Hp; exact Hp
          end
      end.
Qed.

Lemma recognize_line_total (ln : raw_line) :
  well_formed_line ln = true -> exists it, recognize_line ln = Ok it.
Proof.
  unfold well_formed_line. cbn [forallb]. rewrite !andb_true_iff.
  intros (H0 & H1 & H2 & H3 & _).
  apply raw_point_total in H0, H1, H2, H3.
  destruct H0 as [p0 H0], H1 as [p1 H1], H2 as [p2 H2], H3 as [p3 H3].
  unfold recognize_line. rewrite H0, H1, H2, H3. eexists; reflexivity.
Qed.

Lemma recognize_Some (lines : list raw_line) :
  recognize (Some lines)
  = match rmap recognize_line lines with Ok output => output | Raise _ => [] end.
Proof. destruct lines; reflexivity. Qed.

(** X11.  The lists [recognize] returns are safe for the ignore-area filter:
    every box has exactly four points, so the filter never raises on them,
    whatever the engine returned. *)
Theorem recognize_output_is_safe (engine_result : option (list raw_line))
    (areas : list rect) :
  Forall (fun it => length (item_box it) = 4%nat) (recognize engine_result)
  /\ _filter_ignore_areas (_ocr_image (recognize engine_result)) areas
     = Ok (List.filter (kept areas) (_ocr_image (recognize engine_result))).
Proof.
  assert (H4 : Forall (fun it => length (item_box it) = 4%nat)
                      (recognize engine_result)).
  { destruct engine_result as [lines|]; [|constructor].
    rewrite recognize_Some.
    destruct (rmap recognize_line lines) as [output|e] eqn:Hr; [|constructor].
    apply rmap_Ok_Forall2 in Hr.
    induction Hr as [|ln it lines output Hit _ IH]; constructor; [|assumption].
    apply recognize_line_Ok in Hit. destruct Hit as (_ & _ & _ & Hlen & _).
    exact Hlen. }
  split; [assumption|].
  apply filter_ignore_areas_total. unfold _ocr_image. apply List.Forall_map.
  eapply Forall_impl; [exact H4|]. simpl. intros it ->. lia.
Qed.

(** X12.  [recognize] is all or nothing.  When every line of the engine has
    a box of four points with two coordinates each, it returns one item per
    line, in order, with the line's text and score and the first two
    coordinates of its first four points; when one line falls short, the
    exception is swallowed and the result is empty: the other lines of the
    image are lost with it. *)
Theorem recognize_all_or_nothing (lines : list raw_line) :
  (forallb well_formed_line lines = true ->
   Forall2 line_kept_as lines (recognize (Some lines)))
  /\ (forallb well_formed_line lines = false -> recognize (Some lines) = []).
Proof.
  rewrite recognize_Some. split.
  - intros Hwf.
    assert (Hall : Forall (fun ln => exists it, recognize_line ln = Ok it) lines).
    { apply List.Forall_forall. intros ln Hln.
      rewrite forallb_forall in Hwf. apply recognize_line_total. now apply Hwf. }
    destruct (rmap_total _ _ Hall) as [output Hr]. rewrite Hr.
    apply rmap_Ok_Forall2 in Hr.
    induction Hr as [|ln it lines output Hit _ IH]; constructor.
    + now apply recognize_line_Ok in Hit.
    + apply IH.
      * simpl in Hwf. now apply andb_true_iff in Hwf.
      * now inversion Hall.
  - intros Hwf.
    destruct (rmap recognize_line lines) as [output|e] eqn:Hr; [|reflexivity].
    apply rmap_Ok_Forall2 in Hr.
    assert (Hall : forallb well_formed_line lines = true).
    { clear Hwf. induction Hr as [|ln it lines output Hit _ IH]; [reflexivity|].
      simpl. apply recognize_line_Ok in Hit. destruct Hit as [-> _].
      exact IH. }
    congruence.
Qed.

(** ** The document loop *)

Lemma extract_text_at_in_range (category : char -> string) (doc : list page)
    (n : nat) (pg : page) (m : mode) (areas : list rect) :
  doc !! n = Some pg ->
  extract_text_at category (Some doc) (Z.of_nat n) m areas
  = extract_text category pg m areas.
Proof.
  intros Hn. pose proof (lookup_lt_Some _ _ _ Hn) as Hlt.
  unfold extract_text_at.
  replace (Z.of_nat n <? 0) with false by (symmetry; apply Z.ltb_ge; lia).
  replace (Z.of_nat (length doc) <=? Z.of_nat n) with false
    by (symmetry; apply Z.leb_gt; lia).
  cbn [orb]. rewrite Nat2Z.id, Hn. reflexivity.
Qed.

(** Outside the document the guard answers the empty list. *)
Lemma extract_text_at_out_of_range (category : char -> string)
    (doc : option (list page)) (page_num : Z) (m : mode) (areas : list rect) :
  doc = None \/ page_num < 0
  \/ (exists pages, doc = Some pages /\ Z.of_nat (length pages) <= page_num) ->
  extract_text_at category doc page_num m areas = Ok [].
Proof.
  unfold extract_text_at. destruct doc as [pages|]; [|reflexivity].
  intros [H|[H|(pages' & [= <-] & H)]]; [discriminate| |].
  - replace (page_num <? 0) with true by (symmetry; apply Z.ltb_lt; lia).
    reflexivity.
  - replace (Z.of_nat (length pages) <=? page_num) with true
      by (symmetry; apply Z.leb_le; lia).
    now rewrite orb_true_r.
Qed.

Lemma extract_pages_spec (category : char -> string) (doc pages : list page)
    (k : nat) (acc : list paged_block) :
  drop k doc = pages ->
  extract_pages category doc (seq k (length pages)) acc
  = (rs ← rmap (fun pg => extract_text category pg mixed []) pages;
     Ok (acc ++ concat (imap (fun i r => tag_page (k + i) r) rs))).
Proof.
  revert k acc; induction pages as [|pg pages IH]; intros k acc Hdrop.
  - simpl. now rewrite app_nil_r.
  - assert (Hk : doc !! k = Some pg).
    { rewrite <- (Nat.add_0_r k), <- lookup_drop, Hdrop. reflexivity. }
    assert (Hdrop' : drop (S k) doc = pages).
    { rewrite (drop_S doc pg k Hk) in Hdrop. now injection Hdrop. }
    cbn [length seq extract_pages rmap].
    rewrite (extract_text_at_in_range _ _ _ _ _ _ Hk).
    destruct (extract_text category pg mixed []) as [tbs|e]; [|reflexivity].
    cbn [mbind result_bind].
    assert (Hacc : match tbs with
                   | [] => acc
                   | _ :: _ => acc ++ map (fun b => (b, Z.of_nat k + 1)) tbs
                   end = acc ++ tag_page k tbs).
    { destruct tbs; [now rewrite app_nil_r | reflexivity]. }
    rewrite Hacc, (IH (S k) _ Hdrop').
    destruct (rmap (fun pg0 => extract_text category pg0 mixed []) pages)
      as [rs|e]; [|reflexivity].
    cbn [mbind result_bind]. f_equal.
    rewrite imap_cons. cbn [concat]. rewrite Nat.add_0_r, <- app_assoc.
    do 3 f_equal. apply imap_ext. intros i r _. simpl.
    f_equal. lia.
Qed.

Lemma blocks_of_page_tag (k : nat) (p : Z) (r : list block) :
  blocks_of_page p (tag_page k r) = if Z.of_nat k + 1 =? p then r else [].
Proof.
  unfold blocks_of_page, tag_page.
  induction r as [|b r IH]; simpl.
  - now destruct (Z.of_nat k + 1 =? p).
  - destruct (Z.of_nat k + 1 =? p) eqn:E; simpl; [now rewrite IH | exact IH].
Qed.

Lemma blocks_of_page_app (p : Z) (out1 out2 : list paged_block) :
  blocks_of_page p (out1 ++ out2) = blocks_of_page p out1 ++ blocks_of_page p out2.
Proof. unfold blocks_of_page. now rewrite List.filter_app, map_app. Qed.

Lemma blocks_of_page_imap (k : nat) (p : Z) (rs : list (list block)) :
  blocks_of_page p (concat (imap (fun i r => tag_page (k + i) r) rs))
  = match rs !! (Z.to_nat (p - 1) - k)%nat with
    | Some r => if (Z.of_nat k + 1 <=? p) then r else []
    | None => []
    end.
Proof.
  revert k; induction rs as [|r rs IH]; intros k.
  - reflexivity.
  - rewrite imap_cons. cbn [concat].
    rewrite blocks_of_page_app, blocks_of_page_tag.
    rewrite (imap_ext _ (fun i r0 => tag_page (S k + i) r0))
      by (intros i r0 _; simpl; f_equal; lia).
    rewrite IH, Nat.add_0_r.
    destruct (Z.of_nat k + 1 =? p) eqn:E.
    + apply Z.eqb_eq in E.
      replace (Z.to_nat (p - 1) - k)%nat with 0%nat by lia.
      replace (Z.to_nat (p - 1) - S k)%nat with 0%nat by lia.
      replace (Z.of_nat k + 1 <=? p) with true by (symmetry; apply Z.leb_le; lia).
      replace (Z.of_nat (S k) + 1 <=? p) with false
        by (symmetry; apply Z.leb_gt; lia).
      simpl. destruct (rs !! 0%nat); now rewrite app_nil_r.
    + apply Z.eqb_neq in E. simpl.
      destruct (Z.of_nat k + 1 <=? p) eqn:E2.
      * apply Z.leb_le in E2.
        replace (Z.to_nat (p - 1) - k)%nat
          with (S (Z.to_nat (p - 1) - S k))%nat by lia.
        replace (Z.of_nat (S k) + 1 <=? p) with true
          by (symmetry; apply Z.leb_le; lia).
        reflexivity.
      * apply Z.leb_gt in E2.
        replace (Z.of_nat (S k) + 1 <=? p) with false
          by (symmetry; apply Z.leb_gt; lia).
        destruct (rs !! (Z.to_nat (p - 1) - S k)%nat);
          destruct ((r :: rs) !! (Z.to_nat (p - 1) - k)%nat); reflexivity.
Qed.

Lemma extract_pdf_data_spec (category : char -> string) (doc : list page) :
  extract_pdf_data category doc
  = (rs ← rmap (fun pg => extract_text category pg mixed []) doc;
     Ok (concat (imap tag_page rs))).
Proof.
  unfold extract_pdf_data.
  rewrite (extract_pages_spec category doc doc 0 [] eq_refl).
  destruct (rmap (fun pg => extract_text category pg mixed []) doc); reflexivity.
Qed.

Lemma tagged_bounds (k : nat) (rs : list (list block)) :
  Forall (fun bp => Z.of_nat k + 1 <= snd bp <= Z.of_nat (k + length rs))
         (concat (imap (fun i r => tag_page (k + i) r) rs)).
Proof.
  revert k; induction rs as [|r rs IH]; intros k; [constructor|].
  rewrite imap_cons. cbn [concat]. apply Forall_app. split.
  - unfold tag_page. apply List.Forall_map. apply List.Forall_forall.
    intros b _. simpl. lia.
  - rewrite (imap_ext _ (fun i r0 => tag_page (S k + i) r0))
      by (intros i r0 _; simpl; f_equal; lia).
    eapply Forall_impl; [apply (IH (S k))|]. simpl. intros bp. lia.
Qed.

Lemma tagged_fst (k : nat) (rs : list (list block)) :
  map fst (concat (imap (fun i r => tag_page (k + i) r) rs)) = concat rs.
Proof.
  revert k; induction rs as [|r rs IH]; intros k; [reflexivity|].
  rewrite imap_cons. cbn [concat]. rewrite map_app.
  rewrite (imap_ext _ (fun i r0 => tag_page (S k + i) r0))
    by (intros i r0 _; simpl; f_equal; lia).
  rewrite IH. f_equal. unfold tag_page. rewrite map_map. simpl.
  apply map_id.
Qed.

Lemma map_lookup_seq_app {A : Type} (pre l : list (list A)) :
  map (fun i => default [] ((pre ++ l) !! i)) (seq (length pre) (length l)) = l.
Proof.
  revert pre; induction l as [|r l IH]; intros pre; [reflexivity|].
  cbn [length seq map]. f_equal.
  - rewrite lookup_app_r by lia. now rewrite Nat.sub_diag.
  - specialize (IH (pre ++ [r])). rewrite length_app in IH. simpl in IH.
    rewrite Nat.add_1_r, <- app_assoc in IH. exact IH.
Qed.

(** X13.  [extract_pdf_data] returns the blocks of the pages in page order,
    each with its page number counted from 1: the blocks that carry page
    [i + 1] are exactly what [extract_text] returns for page [i] in the
    mixed mode, in the same order, and no block carries another page. *)
Theorem extract_pdf_data_pages (category : char -> string) (doc : list page)
    (out : list paged_block) :
  extract_pdf_data category doc = Ok out ->
  (forall i pg, doc !! i = Some pg ->
     extract_text category pg mixed []
     = Ok (blocks_of_page (Z.of_nat i + 1) out))
  /\ Forall (fun bp => 1 <= snd bp <= Z.of_nat (length doc)) out
  /\ length out
     = length (concat (map (fun i => blocks_of_page (Z.of_nat i + 1) out)
                           (seq 0 (length doc)))).
Proof.
  rewrite extract_pdf_data_spec. intros H. inv_bind H. rename a into rs.
  injection H as <-.
  pose proof (rmap_length _ _ _ Ha) as Hlen.
  apply rmap_Ok_Forall2 in Ha.
  assert (Hpage : forall p,
             blocks_of_page p (concat (imap tag_page rs))
             = match rs !! Z.to_nat (p - 1) with
               | Some r => if 1 <=? p then r else []
               | None => []
               end).
  { intros p. pose proof (blocks_of_page_imap 0 p rs) as Hi.
    rewrite Nat.sub_0_r in Hi. exact Hi. }
  assert (Hi : forall i, blocks_of_page (Z.of_nat i + 1) (concat (imap tag_page rs))
                         = default [] (rs !! i)).
  { intros i. rewrite Hpage.
    replace (Z.to_nat (Z.of_nat i + 1 - 1)) with i by lia.
    replace (1 <=? Z.of_nat i + 1) with true by (symmetry; apply Z.leb_le; lia).
    now destruct (rs !! i). }
  repeat split.
  - intros i pg Hpg. rewrite Hi.
    destruct (Forall2_lookup_l _ _ _ _ _ Ha Hpg) as (r & Hr & Hok).
    now rewrite Hr.
  - rewrite <- Hlen. pose proof (tagged_bounds 0 rs) as G.
    change (fun i r => tag_page (0 + i) r) with tag_page in G.
    eapply Forall_impl; [exact G|]. simpl. intros bp. lia.
  - rewrite (map_ext _ (fun i => default [] (rs !! i)) Hi).
    rewrite <- Hlen.
    pose proof (map_lookup_seq_app [] rs) as Hseq. simpl in Hseq. rewrite Hseq.
    pose proof (tagged_fst 0 rs) as G.
    change (fun i r => tag_page (0 + i) r) with tag_page in G.
    rewrite <- G. now rewrite length_map.
Qed.

Lemma extract_pdf_data_pages_witness :
  (forall i pg, two_page_doc !! i = Some pg ->
     extract_text ascii_category pg mixed []
     = Ok (blocks_of_page (Z.of_nat i + 1)
             [ (native_block (0, 0, 100, 20)%float (lit "Hello") sep_newline, 1);
               (native_block (0, 22, 100, 42)%float (lit "World") sep_newline, 2) ]))
  /\ Forall (fun bp => 1 <= snd bp <= Z.of_nat (length two_page_doc))
       [ (native_block (0, 0, 100, 20)%float (lit "Hello") sep_newline, 1);
         (native_block (0, 22, 100, 42)%float (lit "World") sep_newline, 2) ]
  /\ length
       [ (native_block (0, 0, 100, 20)%float (lit "Hello") sep_newline, 1);
         (native_block (0, 22, 100, 42)%float (lit "World") sep_newline, 2) ]
     = length
         (concat
            (map (fun i =>
                    blocks_of_page (Z.of_nat i + 1)
                      [ (native_block (0, 0, 100, 20)%float (lit "Hello")
                           sep_newline, 1);
                        (native_block (0, 22, 100, 42)%float (lit "World")
                           sep_newline, 2) ])
                 (seq 0 (length two_page_doc)))).
Proof.
  apply (extract_pdf_data_pages ascii_category two_page_doc).
  vm_compute; reflexivity.
Defined.

(** X14.  [extract_pdf_data] returns exactly when [extract_text] returns on
    every page of the document: the exception of one page is the outcome for
    the whole document, and the blocks of the other pages are not
    returned. *)
Theorem extract_pdf_data_all_pages (category : char -> string) (doc : list page) :
  (exists out, extract_pdf_data category doc = Ok out)
  <-> Forall (fun pg => exists r, extract_text category pg mixed [] = Ok r) doc.
Proof.
  rewrite extract_pdf_data_spec. split.
  - intros [out H]. inv_bind H. apply rmap_Ok_Forall2 in Ha.
    clear H. induction Ha; constructor; eauto.
  - intros H. destruct (rmap_total _ _ H) as [rs Hrs].
    rewrite Hrs. eexists; reflexivity.
Qed.

(** ** The anchors of the inserted images *)

Lemma image_anchor_inj (count i j : nat) :
  image_anchor count i = image_anchor count j -> i = j.
Proof.
  unfold image_anchor, image_offsets.
  destruct (count <=? 2)%nat; cbn [fst snd]; intros H.
  - assert (H2 : 2 + Z.of_nat i * 10 = 2 + Z.of_nat j * 10)
      by exact (f_equal snd H).
    lia.
  - assert (H1 : 2 + Z.of_nat i / 2 * 50 = 2 + Z.of_nat j / 2 * 50)
      by exact (f_equal fst H).
    assert (H2 : 2 + Z.of_nat i mod 2 * 10 = 2 + Z.of_nat j mod 2 * 10)
      by exact (f_equal snd H).
    assert (Hd : Z.of_nat i / 2 = Z.of_nat j / 2) by lia.
    assert (Hm : Z.of_nat i mod 2 = Z.of_nat j mod 2) by lia.
    pose proof (Z.div_mod (Z.of_nat i) 2 ltac:(lia)) as Ei.
    pose proof (Z.div_mod (Z.of_nat j) 2 ltac:(lia)) as Ej.
    rewrite Hd, Hm in Ei. lia.
Qed.

Lemma insert_images_from_sublist (exists_ usable : str -> bool) (count i : nat)
    (image_paths : list str) :
  sublist (map snd (insert_images_from exists_ usable count i image_paths))
          (map (image_anchor count) (seq i (length image_paths))).
Proof.
  revert i; induction image_paths as [|p ps IH]; intros i; simpl.
  - constructor.
  - destruct (exists_ p && usable p); simpl.
    + apply sublist_skip, IH.
    + apply sublist_cons, IH.
Qed.

Lemma insert_images_from_paths (exists_ usable : str -> bool) (count i : nat)
    (image_paths : list str) :
  map fst (insert_images_from exists_ usable count i image_paths)
  = List.filter (fun p => exists_ p && usable p) image_paths.
Proof.
  revert i; induction image_paths as [|p ps IH]; intros i; simpl; [reflexivity|].
  destruct (exists_ p && usable p); simpl; now rewrite IH.
Qed.

Lemma insert_images_from_anchor (exists_ usable : str -> bool) (count i : nat)
    (image_paths : list str) (pa : str * (Z * Z)) (P : Z * Z -> Prop) :
  In pa (insert_images_from exists_ usable count i image_paths) ->
  (forall j, P (image_anchor count j)) -> P (snd pa).
Proof.
  intros Hin HP. revert i Hin.
  induction image_paths as [|p ps IH]; intros i Hin; simpl in Hin; [contradiction|].
  apply in_app_or in Hin. destruct Hin as [Hin|Hin]; [|now apply (IH (S i))].
  destruct (exists_ p && usable p); [|contradiction].
  destruct Hin as [<-|[]]. apply HP.
Qed.

(** X15.  No two inserted images are anchored at the same cell, whatever
    files exist: the anchor of an image is fixed by its index in the list of
    paths.  Rows and columns start at 2; up to two images lie in row 2, more
    than two are laid out in the two columns 2 and 12.  The images inserted
    are those of the list whose file exists and loads, in the order of the
    list. *)
Theorem image_anchors_distinct (exists_ usable : str -> bool)
    (image_paths : list str) :
  NoDup (map snd (inserted_images exists_ usable image_paths))
  /\ Forall (fun pa =>
       2 <= fst (snd pa) /\ 2 <= snd (snd pa)
       /\ ((length image_paths <= 2)%nat -> fst (snd pa) = 2)
       /\ ((2 < length image_paths)%nat ->
           snd (snd pa) = 2 \/ snd (snd pa) = 12))
       (inserted_images exists_ usable image_paths)
  /\ map fst (inserted_images exists_ usable image_paths)
     = List.filter (fun p => exists_ p && usable p) image_paths.
Proof.
  unfold inserted_images. split; [|split].
  - eapply sublist_NoDup; [|apply insert_images_from_sublist].
    apply (NoDup_fmap_2_strong (image_anchor (length image_paths))).
    + intros i j _ _. apply image_anchor_inj.
    + apply NoDup_seq.
  - apply List.Forall_forall. intros pa Hpa.
    apply (insert_images_from_anchor exists_ usable (length image_paths) 0
             image_paths pa
             (fun a => 2 <= fst a /\ 2 <= snd a
                       /\ ((length image_paths <= 2)%nat -> fst a = 2)
                       /\ ((2 < length image_paths)%nat ->
                           snd a = 2 \/ snd a = 12)) Hpa).
    intros i. unfold image_anchor, image_offsets.
    destruct (length image_paths <=? 2)%nat eqn:E; cbn [fst snd].
    + apply Nat.leb_le in E. repeat split; lia.
    + apply Nat.leb_gt in E.
      pose proof (Z.mod_pos_bound (Z.of_nat i) 2 ltac:(lia)).
      pose proof (Z.div_pos (Z.of_nat i) 2 ltac:(lia) ltac:(lia)).
      repeat split; lia.
  - apply insert_images_from_paths.
Qed.

(** ** The order of the text blocks *)

Lemma SFltb_trans (x y z : spec_float) :
  SFltb x y = true -> SFltb y z = true -> SFltb x z = true.
Proof.
  unfold SFltb.
  destruct x as [sx|sx| |sx mx ex], y as [sy|sy| |sy my ey], z as [sz|sz| |sz mz ez];
    simpl; try discriminate; try reflexivity;
    try (destruct sx; simpl; try discriminate; try reflexivity);
    try (destruct sy; simpl; try discriminate; try reflexivity);
    try (destruct sz; simpl; try discriminate; try reflexivity).
  all: change (Pcompare mx my Eq) with (Pos.compare mx my);
       change (Pcompare my mz Eq) with (Pos.compare my mz);
       change (Pcompare mx mz Eq) with (Pos.compare mx mz).
  all: destruct (Z.compare_spec ex ey), (Z.compare_spec ey ez), (Z.compare_spec ex ez);
       simpl; try discriminate; try reflexivity; try lia.
  all: destruct (Pos.compare_spec mx my), (Pos.compare_spec my mz),
         (Pos.compare_spec mx mz);
       simpl; try discriminate; try reflexivity; try lia.
Qed.

Lemma float_ltb_trans (a b c : float) :
  (a <? b)%float = true -> (b <? c)%float = true -> (a <? c)%float = true.
Proof. rewrite !ltb_spec. apply SFltb_trans. Qed.

Lemma top_key_top_of (u : unit_) (k : float) : top_key u = Ok k -> top_of u = k.
Proof. unfold top_of. now intros ->. Qed.

Lemma combine_keys_map (units : list unit_) (keys : list float) :
  Forall2 (fun a k => top_key a = Ok k) units keys ->
  combine keys units = map (fun u => (top_of u, u)) units.
Proof.
  induction 1 as [|u k units keys Hk _ IH]; simpl; [reflexivity|].
  now rewrite IH, (top_key_top_of _ _ Hk).
Qed.

Lemma sort_by_top_keyed (units sorted : list unit_) :
  sort_by_top units = Ok sorted ->
  sorted = map snd (sort_keyed (map (fun u => (top_of u, u)) units)).
Proof.
  unfold sort_by_top. intros H. inv_bind H. injection H as <-.
  apply rmap_Ok_Forall2 in Ha. now rewrite (combine_keys_map _ _ Ha).
Qed.

Lemma top_key_Raise (u : unit_) (e : exn) :
  top_key u = Raise e -> e = ValueError /\ bbox u = [].
Proof.
  unfold top_key. destruct (bbox u) as [|p ps] eqn:Hb.
  - rewrite get_bbox_bounds_nil. simpl. now intros [= <-].
  - destruct (get_bbox_bounds_Ok (p :: ps)) as (l & t & r & b & Hok);
      [discriminate|].
    rewrite Hok. discriminate.
Qed.

Lemma sort_by_top_Raise (units : list unit_) (e : exn) :
  sort_by_top units = Raise e ->
  e = ValueError /\ Exists (fun u => bbox u = []) units.
Proof.
  unfold sort_by_top. intros H.
  destruct (rmap top_key units) as [keys|e'] eqn:Hr; [discriminate|].
  cbn [mbind result_bind] in H. injection H as ->.
  revert e Hr. induction units as [|u units IH]; intros e Hr; [discriminate|].
  simpl in Hr. destruct (top_key u) as [k|e1] eqn:Hk; simpl in Hr.
  - destruct (rmap top_key units) as [ks|e2]; simpl in Hr; [discriminate|].
    injection Hr as <-. destruct (IH e2 eq_refl) as [-> Hex].
    split; [reflexivity | now apply Exists_cons_tl].
  - injection Hr as <-. apply top_key_Raise in Hk. destruct Hk as [-> Hb].
    split; [reflexivity | now apply Exists_cons_hd].
Qed.

Lemma sort_by_top_Raise_intro (units : list unit_) :
  Exists (fun u => bbox u = []) units -> sort_by_top units = Raise ValueError.
Proof.
  intros Hex. destruct (sort_by_top units) as [sorted|e] eqn:Hs.
  - apply sort_by_top_Ok_inv in Hs. rewrite List.Forall_forall in Hs.
    apply List.Exists_exists in Hex. destruct Hex as (u & Hin & Hb).
    now apply Hs in Hin.
  - apply sort_by_top_Raise in Hs. now destruct Hs as [-> _].
Qed.

Lemma Sorted_strict (l : list (float * unit_)) :
  Sorted not_above l ->
  List.NoDup l ->
  (forall x y, In x l -> In y l -> x <> y ->
               strictly_below x y \/ strictly_below y x) ->
  Sorted strictly_below l.
Proof.
  induction 1 as [|a l Hs IH Hhd]; intros Hnd Hcmp; [constructor|].
  apply List.NoDup_cons_iff in Hnd. destruct Hnd as [Hnotin Hnd].
  constructor.
  - apply IH; [assumption|]. intros x y Hx Hy. apply Hcmp; now right.
  - destruct Hhd as [|b l' Hab]; constructor.
    destruct (Hcmp a b) as [H|H]; [now left | right; now left | |assumption|].
    + intros ->. apply Hnotin. now left.
    + unfold not_above in Hab. unfold strictly_below in H. congruence.
Qed.

Lemma distinct_tops_perm (units1 units2 : list unit_) :
  Permutation units1 units2 -> distinct_tops units1 -> distinct_tops units2.
Proof.
  intros Hperm [Hnd Hcmp]. split.
  - now rewrite <- Hperm.
  - intros a b Ha Hb. apply Hcmp; eapply Permutation_in; try eassumption;
      now symmetry.
Qed.

Lemma sort_keyed_strict (units : list unit_) :
  distinct_tops units ->
  Sorted strictly_below (sort_keyed (map (fun u => (top_of u, u)) units)).
Proof.
  intros [Hnd Hcmp].
  set (l := map (fun u => (top_of u, u)) units).
  pose proof (sort_keyed_perm l) as Hperm.
  assert (HndL : List.NoDup l).
  { apply NoDup_ListNoDup.
    apply (NoDup_fmap_2_strong (fun u => (top_of u, u))); [|assumption].
    intros x y _ _ [= _ H]. exact H. }
  apply Sorted_strict.
  - apply sort_keyed_sorted.
  - eapply Permutation_NoDup; [symmetry; exact Hperm | exact HndL].
  - intros x y Hx Hy Hne.
    apply (Permutation_in _ Hperm) in Hx. apply (Permutation_in _ Hperm) in Hy.
    unfold l in Hx, Hy. apply in_map_iff in Hx, Hy.
    destruct Hx as (a & <- & Ha), Hy as (b & <- & Hb).
    unfold strictly_below; simpl. apply Hcmp; try assumption. congruence.
Qed.

Lemma sort_keyed_perm_eq (units1 units2 : list unit_) :
  Permutation units1 units2 -> distinct_tops units1 ->
  sort_keyed (map (fun u => (top_of u, u)) units1)
  = sort_keyed (map (fun u => (top_of u, u)) units2).
Proof.
  intros Hperm Hd.
  assert (Htrans : Transitive strictly_below).
  { intros x y z. unfold strictly_below. apply float_ltb_trans. }
  apply (@Sorted_unique_strong _ strictly_below Htrans).
  - intros x1 x2 _ _ H1 H2. unfold strictly_below in *.
    apply float_ltb_asym in H1. congruence.
  - now apply sort_keyed_strict.
  - apply sort_keyed_strict. now apply (distinct_tops_perm units1).
  - rewrite !sort_keyed_perm. now apply Permutation_map.
Qed.

Lemma sort_by_top_perm_eq (units1 units2 : list unit_) :
  Permutation units1 units2 -> distinct_tops units1 ->
  sort_by_top units1 = sort_by_top units2.
Proof.
  intros Hperm Hd.
  destruct (sort_by_top units1) as [s1|e1] eqn:H1.
  - pose proof (sort_by_top_Ok_inv _ _ H1) as Hall.
    destruct (sort_by_top_total units2) as [s2 H2].
    { eapply Permutation_Forall; [exact Hperm | exact Hall]. }
    rewrite H2. f_equal.
    rewrite (sort_by_top_keyed _ _ H1), (sort_by_top_keyed _ _ H2).
    now rewrite (sort_keyed_perm_eq units1 units2).
  - apply sort_by_top_Raise in H1. destruct H1 as [-> Hex].
    symmetry. apply sort_by_top_Raise_intro.
    apply List.Exists_exists in Hex. destruct Hex as (u & Hin & Hb).
    apply List.Exists_exists. exists u. split; [|assumption].
    eapply Permutation_in; eassumption.
Qed.

Lemma parse_perm_eq (category : char -> string) (h : heap)
    (units1 units2 : list unit_) :
  Permutation units1 units2 -> distinct_tops units1 ->
  _parse category h units1 = _parse category h units2.
Proof.
  intros Hperm Hd. pose proof (sort_by_top_perm_eq _ _ Hperm Hd) as Hs.
  destruct units1 as [|u1 units1], units2 as [|u2 units2].
  - reflexivity.
  - apply Permutation_nil in Hperm. discriminate.
  - symmetry in Hperm. apply Permutation_nil in Hperm. discriminate.
  - unfold _parse. now rewrite Hs.
Qed.

Lemma rmap_cons_Ok {A B : Type} (f : A -> result B) (a : A) (l : list A)
    (r : list B) :
  rmap f (a :: l) = Ok r <->
  exists b bs, f a = Ok b /\ rmap f l = Ok bs /\ r = b :: bs.
Proof.
  simpl. split.
  - intros H. apply bind_Ok in H. destruct H as (b & Hb & H).
    apply bind_Ok in H. destruct H as (bs & Hbs & H).
    injection H as <-. eauto.
  - intros (b & bs & Hb & Hbs & ->). rewrite Hb; simpl. now rewrite Hbs.
Qed.

Lemma rmap_perm {A B : Type} (f : A -> result B) (l1 l2 : list A) :
  Permutation l1 l2 ->
  forall r1, rmap f l1 = Ok r1 ->
  exists r2, rmap f l2 = Ok r2 /\ Permutation r1 r2.
Proof.
  induction 1 as [|x l1 l2 Hperm IH|x y l|l1 l2 l3 H12 IH12 H23 IH23];
    intros r1 Hr.
  - injection Hr as <-. now exists [].
  - apply rmap_cons_Ok in Hr. destruct Hr as (b & bs & Hb & Hbs & ->).
    destruct (IH _ Hbs) as (r2 & Hr2 & Hp).
    exists (b :: r2). split; [|now constructor].
    apply rmap_cons_Ok. eauto.
  - apply rmap_cons_Ok in Hr. destruct Hr as (by_ & bs & Hy & Hbs & ->).
    apply rmap_cons_Ok in Hbs. destruct Hbs as (bx & bs' & Hx & Hbs' & ->).
    exists (bx :: by_ :: bs'). split; [|apply perm_swap].
    apply rmap_cons_Ok. exists bx, (by_ :: bs'). repeat split; try assumption.
    apply rmap_cons_Ok. eauto.
  - destruct (IH12 _ Hr) as (r2 & Hr2 & Hp12).
    destruct (IH23 _ Hr2) as (r3 & Hr3 & Hp23).
    exists r3. split; [assumption | now transitivity r2].
Qed.

(** X16.  When the tops of the units are pairwise different and comparable,
    the order of the list of text blocks does not matter: [run] on a
    permutation of the list leaves exactly the same store. *)
Theorem run_order_independent (category : char -> string) (h h1 : heap)
    (text_blocks1 text_blocks2 : list loc) (units1 : list unit_) :
  Permutation text_blocks1 text_blocks2 ->
  _get_units h text_blocks1 = Ok units1 ->
  distinct_tops units1 ->
  run category h text_blocks1 = Ok (text_blocks1, h1) ->
  run category h text_blocks2 = Ok (text_blocks2, h1).
Proof.
  intros Hperm Hu Hd Hrun.
  destruct (rmap_perm (make_unit h) _ _ Hperm _ Hu) as (units2 & Hu2 & Hpu).
  unfold run in *. fold (_get_units h text_blocks2) in Hu2.
  rewrite Hu in Hrun. rewrite Hu2. cbn [mbind result_bind] in *.
  rewrite <- (parse_perm_eq category h units1 units2 Hpu Hd).
  destruct (_parse category h units1) as [[ps h']|e]; [|discriminate].
  cbn [mbind result_bind] in *. now injection Hrun as <-.
Qed.

Lemma run_order_independent_witness :
  run ascii_category hwf_heap [2; 0; 1]%nat
  = Ok ([2; 0; 1]%nat, final_heap ascii_category hwf_heap hwf_units).
Proof.
  apply (run_order_independent ascii_category hwf_heap
           (final_heap ascii_category hwf_heap hwf_units)
           [0; 1; 2]%nat [2; 0; 1]%nat hwf_units).
  - change [2; 0; 1]%nat with ([2] ++ [0; 1])%nat.
    change [0; 1; 2]%nat with ([0; 1] ++ [2])%nat. apply Permutation_app_comm.
  - vm_compute; reflexivity.
  - split.
    + repeat constructor; rewrite ?list_elem_of_In; simpl;
        intuition discriminate.
    + intros a b [<-|[<-|[<-|[]]]] [<-|[<-|[<-|[]]]] Hne;
        try (exfalso; apply Hne; reflexivity);
        unfold flt; vm_compute; auto.
  - vm_compute; reflexivity.
Defined.
